(** * The upvote bot: event watcher, dispenser calls, config cache, heartbeat

    A shallow embedding of the bot's main script (the second program of
    [src/unnamed/part_003]): the [onLogs] callback of [watchUpvotes],
    [getConfig], [addUpvotesToDispenser], [getCurrentTip], [tick], the logging
    helpers and the state load at module top level.

    The script is [async] JavaScript.  Its functions are embedded as programs
    of a small free monad, [Async], whose nodes are the things the script does
    between two of its own instructions: read or write the module's globals
    and files, read the clock, throw, and [await].  Two semantics are given
    to the same programs: [run], where one program runs to its end against
    an environment that answers every question, and [loop_step], where
    several invocations are in flight at once and interleave at their
    [await]s, as on the JavaScript event loop.

    Beside these: [decodeUpvoteData], in the same monad; the daily log
    files of [getLogFile] and [logToFile], as functions on the directory
    ([DailyLog]); and the contract the bot calls,
    [src/contracts/MegapurrDispenser.sol], as functions on its storage
    ([MegapurrDispenser]).

    What is taken for granted: the file system works ([appendFileSync],
    [writeFileSync], [readdirSync] and [unlinkSync] succeed; the script
    catches their failures where they occur and goes on), strings are ASCII,
    and the logs delivered are mined ones, with a transaction hash and a log
    index. *)

From Stdlib Require Import ZArith List String Ascii Bool Lia Arith.
From Stdlib Require Import Sorted Permutation.
From Stdlib Require Import DecimalString.
From Stdlib Require DecimalZ.
From ExtLib Require Import Structures.Monad Structures.MonadExc.
Import ListNotations.
Import MonadNotation.
Local Open Scope string_scope.
Local Open Scope Z_scope.
Local Open Scope list_scope.
Local Open Scope monad_scope.

(** The pieces of a template literal are joined with [^^]. *)
Infix "^^" := String.append (at level 60, right associativity).

(** ** JavaScript values the script relies on *)

(** [BigInt.prototype.toString()] and [Number.prototype.toString()] on
    integers: the decimal numeral, with a leading [-] below zero. *)
Definition toString (z : Z) : string := NilZero.string_of_int (Z.to_int z).

(** The value of a hexadecimal digit of either case. *)
Definition hex_digit (c : ascii) : option Z :=
  let n := Z.of_nat (nat_of_ascii c) in
  if (48 <=? n) && (n <=? 57) then Some (n - 48)
  else if (97 <=? n) && (n <=? 102) then Some (n - 87)
  else if (65 <=? n) && (n <=? 70) then Some (n - 55)
  else None.

(** Tab, line feed, vertical tab, form feed, carriage return, space. *)
Definition is_white_space (c : ascii) : bool :=
  let n := Z.of_nat (nat_of_ascii c) in
  ((9 <=? n) && (n <=? 13)) || (n =? 32).

Fixpoint all_white_space (s : string) : bool :=
  match s with
  | EmptyString => true
  | String c s' => is_white_space c && all_white_space s'
  end.

Fixpoint skip_white_space (s : string) : string :=
  match s with
  | EmptyString => EmptyString
  | String c s' => if is_white_space c then skip_white_space s' else s
  end.

(** A digit of the numeral system of base [radix] (2, 8, 10 or 16). *)
Definition digit (radix : Z) (c : ascii) : option Z :=
  match hex_digit c with
  | Some d => if d <? radix then Some d else None
  | None => None
  end.

(** Digits, at least one, then blanks only. *)
Fixpoint numeral (radix : Z) (seen : bool) (acc : Z) (s : string) : option Z :=
  match s with
  | EmptyString => if seen then Some acc else None
  | String c s' =>
      match digit radix c with
      | Some d => numeral radix true (radix * acc + d) s'
      | None => if seen && all_white_space s then Some acc else None
      end
  end.

Definition one_of (c a b : ascii) : bool := Ascii.eqb c a || Ascii.eqb c b.

(** [BigInt(s)] on a string.  Blanks around the literal are dropped; the
    literal is empty (the value is 0), a decimal numeral with an optional
    sign, or a hexadecimal, octal or binary numeral after [0x], [0o] or
    [0b].  Anything else is a [SyntaxError], which is [None]. *)
Definition BigInt_of_string (s : string) : option Z :=
  match skip_white_space s with
  | EmptyString => Some 0
  | String c r as t =>
      if Ascii.eqb c "+" then numeral 10 false 0 r
      else if Ascii.eqb c "-" then option_map Z.opp (numeral 10 false 0 r)
      else
        match r with
        | String p r' =>
            if Ascii.eqb c "0" && one_of p "x" "X" then numeral 16 false 0 r'
            else if Ascii.eqb c "0" && one_of p "o" "O" then numeral 8 false 0 r'
            else if Ascii.eqb c "0" && one_of p "b" "B" then numeral 2 false 0 r'
            else numeral 10 false 0 t
        | EmptyString => numeral 10 false 0 t
        end
  end.

(** [String.prototype.toLowerCase()] on ASCII text.  Every string the script
    lower-cases is an address: [0x] followed by forty hexadecimal digits. *)
Definition lower_ascii (c : ascii) : ascii :=
  let n := nat_of_ascii c in
  if ((65 <=? n) && (n <=? 90))%nat then ascii_of_nat (n + 32) else c.

Fixpoint toLowerCase (s : string) : string :=
  match s with
  | EmptyString => EmptyString
  | String c s' => String (lower_ascii c) (toLowerCase s')
  end.

(** Case-insensitive equality of ASCII text, stated on its own: the same
    length, and at every position the same letter up to its case. *)
Definition same_letter (a b : ascii) : Prop :=
  a = b \/
  (exists n, (65 <= n <= 90)%nat /\
     ((a = ascii_of_nat n /\ b = ascii_of_nat (n + 32)) \/
      (b = ascii_of_nat n /\ a = ascii_of_nat (n + 32)))).

Fixpoint case_insensitive_eq (s t : string) : Prop :=
  match s, t with
  | EmptyString, EmptyString => True
  | String a s', String b t' => same_letter a b /\ case_insensitive_eq s' t'
  | _, _ => False
  end.

(** A JavaScript [Set] of strings.  A [Set] keeps its members in insertion
    order, [add] of a member leaves it where it is, and [Array.from] lists
    the members in that order. *)
Module JSSet.

Definition t := list string.

Definition empty : t := [].

Definition has (x : string) (s : t) : bool := existsb (String.eqb x) s.

Definition add (x : string) (s : t) : t := if has x s then s else s ++ [x].

(** [new Set(array)] *)
Definition of_array (a : list string) : t :=
  fold_left (fun s x => add x s) a empty.

(** [Array.from(set)] *)
Definition to_array (s : t) : list string := s.

Definition size (s : t) : nat := List.length s.

End JSSet.

(** [array.slice(start)] for [0 <= start]. *)
Definition slice_from {A} (start : nat) (a : list A) : list A := skipn start a.

(** JSON values written to the log files. *)
Inductive JSON : Type :=
| JNum (z : Z)
| JStr (s : string)
| JArr (l : list string).   (* the script only writes arrays of strings *)

(** A field whose value is [undefined] is left out by [JSON.stringify]. *)
Definition opt_field (name : string) (v : option string) : list (string * JSON) :=
  match v with
  | Some s => [(name, JStr s)]
  | None => []
  end.

(** An [Error]: [err.message] and [err.stack]. *)
Record Error : Type := { message : string; stack : string }.

(** A settled promise, and the outcome of a call: a value, or the error it
    was rejected with or threw. *)
Inductive Res (A : Type) : Type :=
| Ok (a : A)
| Err (e : Error).
Arguments Ok {A} a.
Arguments Err {A} e.

(** ** Data of the script *)

(** One delivered log of the [Upvoted(user, token, numUpvotes)] event, as
    viem decodes it.  [blockNumber] is [null] on a pending log.  The
    watcher is not strict: a log whose topics or data do not decode is
    delivered all the same, with [args.token] or [args.numUpvotes] missing
    ([None] for [undefined]).  [args.user] is only put to use on an entry
    that has passed both filters. *)
Record Log : Type := {
  transactionHash : string;
  logIndex : Z;
  args_user : string;
  args_token : option string;
  args_numUpvotes : option Z;
  blockNumber : option Z
}.

(** The snapshot [getConfig] returns. *)
Record Config : Type := {
  upvotesRequired : string;
  queuedNFTCount : nat;
  queuedNFTs : list string;
  lastUpdated : Z
}.

(** [configCache]: [{}] at start, then [{ timestamp, data }]. *)
Record Cache : Type := { timestamp : Z; data : Config }.

Inductive Level : Type := info | warn | error.

(** A line of the daily log file ([logToFile]): [{ type, level, ...data }].
    The [timestamp] field and the rotation of the daily files are left out. *)
Record LogEntry : Type := {
  type : string;
  level : Level;
  fields : list (string * JSON)
}.

(** A line of [dispenser-actions.jsonl] ([logDispenserAction]). *)
Record DispenserEntry : Type := {
  action : string;
  action_data : list (string * JSON)
}.

Inductive ConsoleLine : Type :=
| console_log (s : string)
| console_error (s : string).

(** The object [tick] writes to [net_state.json] and the state load reads
    back.  A field is [None] when the file has no such key (or, for
    [processed], a value that is not an array). *)
Record StateFile : Type := {
  sf_lastProcessed : option string;
  sf_tip : option string;
  sf_lastProcessedBlock : option string;
  sf_processed : option (list string)
}.

(** The module's globals and the files it writes. *)
Record World : Type := {
  lastProcessed : Z;
  configCache : option Cache;
  processedLogIds : JSSet.t;
  lastProcessedBlock : Z;
  heartbeatCount : Z;
  net_state_json : option StateFile;   (* [None]: no file, or not JSON *)
  logFile : list LogEntry;
  dispenserLogFile : list DispenserEntry;
  console : list ConsoleLine
}.

Definition set_lastProcessed (v : Z) (w : World) : World :=
  {| lastProcessed := v; configCache := configCache w;
     processedLogIds := processedLogIds w;
     lastProcessedBlock := lastProcessedBlock w;
     heartbeatCount := heartbeatCount w; net_state_json := net_state_json w;
     logFile := logFile w; dispenserLogFile := dispenserLogFile w;
     console := console w |}.

Definition set_configCache (v : option Cache) (w : World) : World :=
  {| lastProcessed := lastProcessed w; configCache := v;
     processedLogIds := processedLogIds w;
     lastProcessedBlock := lastProcessedBlock w;
     heartbeatCount := heartbeatCount w; net_state_json := net_state_json w;
     logFile := logFile w; dispenserLogFile := dispenserLogFile w;
     console := console w |}.

Definition set_processedLogIds (v : JSSet.t) (w : World) : World :=
  {| lastProcessed := lastProcessed w; configCache := configCache w;
     processedLogIds := v;
     lastProcessedBlock := lastProcessedBlock w;
     heartbeatCount := heartbeatCount w; net_state_json := net_state_json w;
     logFile := logFile w; dispenserLogFile := dispenserLogFile w;
     console := console w |}.

Definition set_lastProcessedBlock (v : Z) (w : World) : World :=
  {| lastProcessed := lastProcessed w; configCache := configCache w;
     processedLogIds := processedLogIds w;
     lastProcessedBlock := v;
     heartbeatCount := heartbeatCount w; net_state_json := net_state_json w;
     logFile := logFile w; dispenserLogFile := dispenserLogFile w;
     console := console w |}.

Definition set_heartbeatCount (v : Z) (w : World) : World :=
  {| lastProcessed := lastProcessed w; configCache := configCache w;
     processedLogIds := processedLogIds w;
     lastProcessedBlock := lastProcessedBlock w;
     heartbeatCount := v; net_state_json := net_state_json w;
     logFile := logFile w; dispenserLogFile := dispenserLogFile w;
     console := console w |}.

Definition set_net_state_json (v : option StateFile) (w : World) : World :=
  {| lastProcessed := lastProcessed w; configCache := configCache w;
     processedLogIds := processedLogIds w;
     lastProcessedBlock := lastProcessedBlock w;
     heartbeatCount := heartbeatCount w; net_state_json := v;
     logFile := logFile w; dispenserLogFile := dispenserLogFile w;
     console := console w |}.

Definition set_logFile (v : list LogEntry) (w : World) : World :=
  {| lastProcessed := lastProcessed w; configCache := configCache w;
     processedLogIds := processedLogIds w;
     lastProcessedBlock := lastProcessedBlock w;
     heartbeatCount := heartbeatCount w; net_state_json := net_state_json w;
     logFile := v; dispenserLogFile := dispenserLogFile w;
     console := console w |}.

Definition set_dispenserLogFile (v : list DispenserEntry) (w : World) : World :=
  {| lastProcessed := lastProcessed w; configCache := configCache w;
     processedLogIds := processedLogIds w;
     lastProcessedBlock := lastProcessedBlock w;
     heartbeatCount := heartbeatCount w; net_state_json := net_state_json w;
     logFile := logFile w; dispenserLogFile := v;
     console := console w |}.

Definition set_console (v : list ConsoleLine) (w : World) : World :=
  {| lastProcessed := lastProcessed w; configCache := configCache w;
     processedLogIds := processedLogIds w;
     lastProcessedBlock := lastProcessedBlock w;
     heartbeatCount := heartbeatCount w; net_state_json := net_state_json w;
     logFile := logFile w; dispenserLogFile := dispenserLogFile w;
     console := v |}.

(** ** Remote operations and the [Async] monad *)

(** What [simulateContract] hands to [writeContract]. *)
Record Request : Type := {
  req_address : string;
  req_user : string;
  req_numVotes : Z;
  req_gasPrice : Z
}.

(** The promises the script awaits, indexed by the type of their value. *)
Inductive Op : Type -> Type :=
| readContract_upvotesRequired (address : string) : Op Z
| readContract_getQueuedNFTs (address : string) : Op (list Z)
| readContract_getTotalMessagesForAppCount (app : string) : Op Z
| getGasPrice : Op Z
| simulateContract_addUpvotes (address user : string) (amount gasPrice : Z) : Op Request
| writeContract (request : Request) : Op string
| Promise_all {A B : Type} (a : Op A) (b : Op B) : Op (A * B).

Inductive Async (A : Type) : Type :=
| Ret (a : A)
| Throw (e : Error)
| Get (k : World -> Async A)
| Put (w : World) (k : Async A)
| Now (k : Z -> Async A)
| Await {B : Type} (op : Op B) (k : Res B -> Async A)
| Yield (k : Async A).
Arguments Ret {A} a.
Arguments Throw {A} e.
Arguments Get {A} k.
Arguments Put {A} w k.
Arguments Now {A} k.
Arguments Await {A B} op k.
Arguments Yield {A} k.

Fixpoint abind {A B} (m : Async A) (f : A -> Async B) : Async B :=
  match m with
  | Ret a => f a
  | Throw e => Throw e
  | Get k => Get (fun w => abind (k w) f)
  | Put w k => Put w (abind k f)
  | Now k => Now (fun t => abind (k t) f)
  | Await op k => Await op (fun r => abind (k r) f)
  | Yield k => Yield (abind k f)
  end.

(** [try { m } catch (err) { h err }] *)
Fixpoint try_catch {A} (m : Async A) (h : Error -> Async A) : Async A :=
  match m with
  | Ret a => Ret a
  | Throw e => h e
  | Get k => Get (fun w => try_catch (k w) h)
  | Put w k => Put w (try_catch k h)
  | Now k => Now (fun t => try_catch (k t) h)
  | Await op k => Await op (fun r => try_catch (k r) h)
  | Yield k => Yield (try_catch k h)
  end.

#[global] Instance Monad_Async : Monad Async :=
  {| ret := @Ret; bind := @abind |}.

#[global] Instance MonadExc_Async : MonadExc Error Async :=
  {| raise := @Throw; catch := @try_catch |}.

(** [await p] for a promise [p] of the network: the invocation is set aside
    until [p] settles, then has the value of [p], or throws what [p] was
    rejected with. *)
Definition await {B} (op : Op B) : Async B :=
  Await op (fun r => match r with Ok b => Ret b | Err e => Throw e end).

(** [await f(...)] for an [async] function [f] of the script: the call runs
    at once, up to its own first [await]; when it has returned (or thrown),
    the caller is set aside and goes on in a later microtask. *)
Definition await_call {A} (m : Async A) : Async A :=
  try_catch (abind m (fun a => Yield (Ret a))) (fun e => Yield (Throw e)).

Definition getWorld : Async World := Get Ret.
Definition modify (f : World -> World) : Async unit :=
  Get (fun w => Put (f w) (Ret tt)).
(** [Date.now()] *)
Definition Date_now : Async Z := Now Ret.

(** ** Running one program to its end

    The environment answers the [n]-th question the program asks: the time,
    or how the awaited promise settles. *)

Record Env : Type := {
  env_now : nat -> Z;
  env_settle : nat -> forall B : Type, Op B -> Res B
}.

(** A remote operation the program started, with the world it started in. *)
Record Call : Type := {
  call_op : { B : Type & Op B };
  call_world : World
}.

Record Outcome (A : Type) : Type := {
  result : Res A;        (* returned, or threw to the caller *)
  world : World;
  calls : list Call;
  asked : nat
}.
Arguments result {A} o.
Arguments world {A} o.
Arguments calls {A} o.
Arguments asked {A} o.

(** The outcome [o] of what a program did last, after the remote operations
    [cs] it had started before. *)
Definition after_calls {A} (cs : list Call) (o : Outcome A) : Outcome A :=
  {| result := result o; world := world o; calls := cs ++ calls o;
     asked := asked o |}.

Fixpoint run {A} (env : Env) (n : nat) (w : World) (m : Async A) : Outcome A :=
  match m with
  | Ret a => {| result := Ok a; world := w; calls := []; asked := n |}
  | Throw e => {| result := Err e; world := w; calls := []; asked := n |}
  | Get k => run env n w (k w)
  | Put w' k => run env n w' k
  | Now k => run env (S n) w (k (env_now env n))
  | Await op k =>
      after_calls [{| call_op := existT _ _ op; call_world := w |}]
        (run env (S n) w (k (env_settle env n _ op)))
  | Yield k => run env n w k
  end.

(** The operations of [addUpvotesToDispenser]; a call of the function shows
    as exactly one [getGasPrice], its first instruction. *)
Definition starts_dispatch {B} (op : Op B) : bool :=
  match op with
  | getGasPrice => true
  | _ => false
  end.

Definition is_getGasPrice (c : Call) : bool :=
  starts_dispatch (projT2 (call_op c)).

Definition is_dispatch_op (c : Call) : bool :=
  match projT2 (call_op c) with
  | getGasPrice => true
  | simulateContract_addUpvotes _ _ _ _ => true
  | writeContract _ => true
  | _ => false
  end.

(** ** The daily log files

    [logToFile] writes to one file per day in [LOG_DIR], and [getLogFile]
    deletes old files when the day changes.  [dispenser-actions.jsonl] lives
    in the same directory.  A file is named here by its name inside
    [LOG_DIR]; the script's path is [LOG_DIR/name].  The directory holds
    regular files only. *)
Module DailyLog.

Inductive Line : Type :=
| log_line (e : LogEntry)
| dispenser_line (e : DispenserEntry).

Record File : Type := { file_name : string; file_lines : list Line }.

(** The directory [LOG_DIR], the globals [currentLogFile] and
    [currentLogDate] ([None] for [null]), and what was printed. *)
Record Logs : Type := {
  files : list File;
  currentLogFile : option string;
  currentLogDate : option string;
  printed : list ConsoleLine
}.

(** [s.endsWith(suffix)] *)
Definition endsWith (s suffix : string) : bool :=
  let n := String.length s in
  let k := String.length suffix in
  (k <=? n)%nat && (substring (n - k) k s =? suffix)%string.

(** [array.sort()] without a comparator puts strings in the order of their
    code units, which is [String.leb].  The sorted array does not depend on
    the algorithm; insertion sort is used here. *)
Fixpoint sort_insert (x : string) (l : list string) : list string :=
  match l with
  | [] => [x]
  | y :: l' => if String.leb x y then x :: l else y :: sort_insert x l'
  end.

Definition sort (l : list string) : list string := fold_right sort_insert [] l.

(** [array.slice(0, -k)]: all but the last [k] elements. *)
Definition slice_0_minus {A} (k : nat) (a : list A) : list A :=
  firstn (List.length a - k) a.

Definition readdirSync (fs : list File) : list string := map file_name fs.

Definition unlinkSync (name : string) (fs : list File) : list File :=
  filter (fun f => negb (file_name f =? name)%string) fs.

(** [fs.appendFileSync(path, line)] creates the file when there is none. *)
Fixpoint appendFileSync (name : string) (line : Line) (fs : list File)
  : list File :=
  match fs with
  | [] => [{| file_name := name; file_lines := [line] |}]
  | f :: fs' =>
      if (file_name f =? name)%string
      then {| file_name := name; file_lines := file_lines f ++ [line] |} :: fs'
      else f :: appendFileSync name line fs'
  end.

(** The files the clean-up deletes:
    [files.filter(f => f.endsWith('.jsonl')).sort().slice(0, -7)]. *)
Definition oldFiles (fs : list File) : list string :=
  slice_0_minus 7
    (sort (filter (fun f => endsWith f ".jsonl") (readdirSync fs))).

(** One turn of the loop over [oldFiles]. *)
Definition clean (st : Logs) (file : string) : Logs :=
  {| files := unlinkSync file (files st);
     currentLogFile := currentLogFile st;
     currentLogDate := currentLogDate st;
     printed := printed st
                ++ [console_log ("Cleaned up old log file: " ^^ file)] |}.

(** [getLogFile()], with [today] the date part of the clock's ISO time,
    [new Date().toISOString().split('T')[0]]. *)
Definition getLogFile (today : string) (st : Logs) : string * Logs :=
  let fresh :=
    let logFile := today ^^ ".jsonl" in
    let st' := fold_left clean (oldFiles (files st)) st in
    (logFile,
     {| files := files st';
        currentLogFile := Some logFile;
        currentLogDate := Some today;
        printed := printed st' |}) in
  match currentLogFile st, currentLogDate st with
  | Some current, Some date =>
      if (date =? today)%string then (current, st) else fresh
  | _, _ => fresh
  end.

(** [logToFile(msg)] *)
Definition logToFile (today : string) (msg : LogEntry) (st : Logs) : Logs :=
  let '(logFile, st') := getLogFile today st in
  {| files := appendFileSync logFile (log_line msg) (files st');
     currentLogFile := currentLogFile st';
     currentLogDate := currentLogDate st';
     printed := printed st' |}.

End DailyLog.

(** *** Notions for the daily log files *)

Definition is_jsonl (name : string) : bool := DailyLog.endsWith name ".jsonl".

(** How many [.jsonl] names of the directory come after [name] in the
    order of [sort]. *)
Definition newer (name : string) (names : list string) : nat :=
  List.length (filter (fun g => is_jsonl g && String.ltb name g) names).

(** The lines of the file [name]; none when there is no such file. *)
Definition lines_of (name : string) (fs : list DailyLog.File)
  : list DailyLog.Line :=
  match find (fun f => (DailyLog.file_name f =? name)%string) fs with
  | Some f => DailyLog.file_lines f
  | None => []
  end.

(** The order [sort] puts an array in. *)
Definition leb_true (s t : string) : Prop := String.leb s t = true.

(** [currentLogFile] is the file of [currentLogDate]. *)
Definition cache_names_the_day (st : DailyLog.Logs) : Prop :=
  DailyLog.currentLogFile st =
  option_map (fun d => d ^^ ".jsonl") (DailyLog.currentLogDate st).

(** [getLogFile] has no file for [today] yet. *)
Definition day_changed (today : string) (st : DailyLog.Logs) : Prop :=
  DailyLog.currentLogFile st = None
  \/ DailyLog.currentLogDate st <> Some today.

(** ** The dispenser contract

    [src/contracts/MegapurrDispenser.sol], the contract the bot calls.  A
    function takes [msg.sender] and the storage, and either reverts or
    returns the new storage, the events emitted and the calls made to the
    NFT contract.  A [uint256] is a [Z] in [0, 2^256); the compiler is
    0.8.24, so [+=] reverts on overflow.  What a call to the NFT contract
    does is given from outside ([nft]: whether the transfer is carried out
    or reverts); the receiver of a transfer out of the dispenser is taken
    not to call back into it. *)
Module MegapurrDispenser.

Definition address : Type := Z.

Definition MAX_UINT256 : Z := 2 ^ 256 - 1.

Inductive Event : Type :=
| NFTQueued (tokenId : Z)
| NFTClaimed (user : address) (tokenId : Z)
| UpvotesAdded (user : address) (count : Z)
| NFTRescued (to : address) (tokenId : Z)
| AllNFTsRescued (to : address) (count : Z).

Record Storage : Type := {
  owner : address;
  nftContract : address;
  trackedToken : address;
  upvotesRequired : Z;
  queuedNFTs : list Z;
  userUpvotes : address -> Z
}.

(** [IERC721(nft).safeTransferFrom(from, to, tokenId)] *)
Inductive External : Type :=
| safeTransferFrom (nft from to : address) (tokenId : Z).

Inductive Failure : Type :=
| Error_ (reason : string)     (* a failed [require] *)
| Panic_overflow               (* checked arithmetic *)
| External_revert.             (* the call to the NFT contract reverted *)

Inductive Result : Type :=
| Revert (why : Failure)
| Success (s : Storage) (events : list Event) (calls : list External).

Definition constructor (sender _nftContract _trackedToken : address) : Storage :=
  {| owner := sender; nftContract := _nftContract;
     trackedToken := _trackedToken; upvotesRequired := 420;
     queuedNFTs := []; userUpvotes := fun _ => 0 |}.

Definition set_userUpvotes (user : address) (v : Z) (s : Storage) : Storage :=
  {| owner := owner s; nftContract := nftContract s;
     trackedToken := trackedToken s; upvotesRequired := upvotesRequired s;
     queuedNFTs := queuedNFTs s;
     userUpvotes := fun a => if a =? user then v else userUpvotes s a |}.

Definition set_queuedNFTs (q : list Z) (s : Storage) : Storage :=
  {| owner := owner s; nftContract := nftContract s;
     trackedToken := trackedToken s; upvotesRequired := upvotesRequired s;
     queuedNFTs := q; userUpvotes := userUpvotes s |}.

Definition set_upvotesRequired (v : Z) (s : Storage) : Storage :=
  {| owner := owner s; nftContract := nftContract s;
     trackedToken := trackedToken s; upvotesRequired := v;
     queuedNFTs := queuedNFTs s; userUpvotes := userUpvotes s |}.

(** [modifier onlyOwner] *)
Definition onlyOwner (sender : address) (s : Storage) (body : Result) : Result :=
  if sender =? owner s then body else Revert (Error_ "Not owner").

Definition addUpvotes (this : address) (nft : External -> bool)
           (sender user : address) (numVotes : Z) (s : Storage) : Result :=
  onlyOwner sender s
    (let total := userUpvotes s user + numVotes in
     if MAX_UINT256 <? total then Revert Panic_overflow else
     let s1 := set_userUpvotes user total s in
     (* Simple check: if user has enough upvotes and we have NFTs, give them one *)
     if (upvotesRequired s1 <=? userUpvotes s1 user)
        && (0 <? Z.of_nat (List.length (queuedNFTs s1)))
     then
       let tokenId := last (queuedNFTs s1) 0 in
       let s2 := set_queuedNFTs (removelast (queuedNFTs s1)) s1 in
       let s3 := set_userUpvotes user (userUpvotes s2 user - upvotesRequired s2) s2 in
       let call := safeTransferFrom (nftContract s3) this user tokenId in
       if nft call
       then Success s3 [UpvotesAdded user numVotes; NFTClaimed user tokenId] [call]
       else Revert External_revert
     else Success s1 [UpvotesAdded user numVotes] []).

Definition onERC721Received (sender : address) (tokenId : Z) (s : Storage)
  : Result :=
  if sender =? nftContract s
  then Success (set_queuedNFTs (queuedNFTs s ++ [tokenId]) s) [NFTQueued tokenId] []
  else Revert (Error_ "Only accepted NFTs").

(** [queueNFT]: [ownerOf] is the answer of the NFT contract ([None] when
    that call reverts); [during] is what the transfer into the dispenser
    does to the dispenser while it runs (it reverts, or it returns with
    this storage and these events). *)
Definition queueNFT (this : address) (ownerOf : Z -> option address)
           (during : External -> Storage -> option (Storage * list Event))
           (sender : address) (tokenId : Z) (s : Storage) : Result :=
  match ownerOf tokenId with
  | None => Revert External_revert
  | Some holder =>
      if negb (holder =? sender) then Revert (Error_ "Not owner") else
      let call := safeTransferFrom (nftContract s) sender this tokenId in
      match during call s with
      | None => Revert External_revert
      | Some (s1, events) =>
          Success (set_queuedNFTs (queuedNFTs s1 ++ [tokenId]) s1)
                  (events ++ [NFTQueued tokenId]) [call]
      end
  end.

Definition setUpvotesRequired (sender : address) (newThreshold : Z) (s : Storage)
  : Result :=
  onlyOwner sender s (Success (set_upvotesRequired newThreshold s) [] []).

Definition rescueNFT (this : address) (nft : External -> bool)
           (sender to : address) (tokenId : Z) (s : Storage) : Result :=
  onlyOwner sender s
    (let call := safeTransferFrom (nftContract s) this to tokenId in
     if nft call then Success s [NFTRescued to tokenId] [call]
     else Revert External_revert).

Definition rescueAllNFTs (this : address) (nft : External -> bool)
           (sender to : address) (s : Storage) : Result :=
  onlyOwner sender s
    (let count := Z.of_nat (List.length (queuedNFTs s)) in
     let calls := map (safeTransferFrom (nftContract s) this to) (queuedNFTs s) in
     if forallb nft calls
     then Success (set_queuedNFTs [] s) [AllNFTsRescued to count] calls
     else Revert External_revert).

Definition getQueuedNFTs (s : Storage) : list Z := queuedNFTs s.

End MegapurrDispenser.

(** The token a call hands over. *)
Definition transferred (c : MegapurrDispenser.External) : Z :=
  match c with MegapurrDispenser.safeTransferFrom _ _ _ tokenId => tokenId end.

(** ** The script

    The addresses come from the process environment through
    [validateConfig]; [REQUIRED_UPVOTES] is [BigInt(process.env.REQUIRED_UPVOTES)]
    or [420n]. *)

Definition CACHE_TTL_MS : Z := 60 * 1000.
Definition HEARTBEAT_INTERVAL : Z := 10.
Definition NET_PROTOCOL_ADDRESS : string :=
  "0x00000000B24D62781dB359b07880a105cD0b64e6".

Section Bot.

Variable REQUIRED_UPVOTES : Z.
Variable NORMALIZED_DISPENSER_ADDRESS : string.
Variable NORMALIZED_TRACKED_TOKEN_ADDRESS : string.
Variable NORMALIZED_UPVOTE_APP_ADDRESS : string.

(** *** Logging *)

Definition console_print (l : ConsoleLine) : Async unit :=
  modify (fun w => set_console (console w ++ [l]) w).

(** [fs.appendFileSync(DISPENSER_LOG_FILE, ...)]; a failed write is caught
    inside the function and only printed. *)
Definition logDispenserAction (action : string) (data : list (string * JSON))
  : Async unit :=
  modify (fun w =>
    set_dispenserLogFile
      (dispenserLogFile w ++ [{| action := action; action_data := data |}]) w).

Definition logToFile (msg : LogEntry) : Async unit :=
  modify (fun w => set_logFile (logFile w ++ [msg]) w).

Definition logInfo (type : string) (data : list (string * JSON)) : Async unit :=
  logToFile {| type := type; level := info; fields := data |}.

Definition logError (type : string) (err : Error) (data : list (string * JSON))
  : Async unit :=
  logToFile {| type := type; level := error;
               fields := ("error", JStr (message err))
                         :: ("stack", JStr (stack err)) :: data |}.

Definition logWarning (type : string) (data : list (string * JSON)) : Async unit :=
  logToFile {| type := type; level := warn; fields := data |}.

(** *** getConfig *)

(** [configCache.timestamp && now - configCache.timestamp < CACHE_TTL_MS] *)
Definition cache_hit (now : Z) (c : option Cache) : option Config :=
  match c with
  | Some c =>
      if negb (timestamp c =? 0) && (now - timestamp c <? CACHE_TTL_MS)
      then Some (data c) else None
  | None => None
  end.

Definition default_config : Config :=
  {| upvotesRequired := "200"; queuedNFTCount := 0; queuedNFTs := [];
     lastUpdated := 0 |}.

(** Read all contract settings in parallel *)
Definition read_settings : Op (Z * list Z) :=
  Promise_all (readContract_upvotesRequired NORMALIZED_DISPENSER_ADDRESS)
              (readContract_getQueuedNFTs NORMALIZED_DISPENSER_ADDRESS).

Definition getConfig : Async Config :=
  now <- Date_now ;;
  w <- getWorld ;;
  match cache_hit now (configCache w) with
  | Some d => ret d
  | None =>
      catch
        (r <- await read_settings ;;
         let '(upvotesRequired, queuedNFTs) := r in
         let config :=
           {| upvotesRequired := toString upvotesRequired;
              queuedNFTCount := List.length queuedNFTs;
              queuedNFTs := map toString queuedNFTs;
              lastUpdated := now |} in
         logInfo "config_updated"
           [("upvotesRequired", JStr (toString upvotesRequired));
            ("queuedNFTCount", JNum (Z.of_nat (List.length queuedNFTs)));
            ("queuedNFTs", JArr (map toString queuedNFTs));
            ("lastUpdated", JNum now)] ;;
         logDispenserAction "config_updated"
           [("upvotesRequired", JStr (toString upvotesRequired));
            ("queuedNFTCount", JNum (Z.of_nat (List.length queuedNFTs)));
            ("queuedNFTs", JArr (map toString queuedNFTs))] ;;
         modify (set_configCache (Some {| timestamp := now; data := config |})) ;;
         (* return configCache.data, assigned on the line before *)
         ret config)
        (fun err =>
           console_print (console_error
             ("[CONFIG_ERROR] Failed to fetch dispenser config: " ^^ message err)) ;;
           logError "config_fetch_error" err
             [("dispenserAddress", JStr NORMALIZED_DISPENSER_ADDRESS)] ;;
           w <- getWorld ;;
           match configCache w with
           | Some c =>
               console_print (console_log "Using cached config data") ;;
               ret (data c)
           | None => ret default_config
           end)
  end.

(** *** getCurrentTip *)

Definition getCurrentTip : Async Z :=
  catch
    (await (readContract_getTotalMessagesForAppCount NORMALIZED_UPVOTE_APP_ADDRESS))
    (fun err =>
       console_print (console_error
         ("[NET_PROTOCOL_ERROR] Failed to get message count: " ^^ message err)) ;;
       logError "net_protocol_error" err
         [("netProtocolAddress", JStr NET_PROTOCOL_ADDRESS);
          ("upvoteAppAddress", JStr NORMALIZED_UPVOTE_APP_ADDRESS)] ;;
       ret 0).

(** *** decodeUpvoteData *)

(** [s.slice(from, to)] and [s.slice(from)] for [0 <= from <= to]. *)
Definition slice (from to : nat) (s : string) : string :=
  substring from (to - from) s.

Definition slice_to_end (from : nat) (s : string) : string :=
  substring from (String.length s - from) s.

(** [s.startsWith(prefix)] *)
Definition startsWith (s prefix : string) : bool := String.prefix prefix s.

(** [BigInt('0x' + h)]: hexadecimal digits of either case, at least one,
    then blanks only; anything else is a [SyntaxError]. *)
Fixpoint hex_literal (seen : bool) (acc : Z) (s : string) : option Z :=
  match s with
  | EmptyString => if seen then Some acc else None
  | String c s' =>
      match hex_digit c with
      | Some d => hex_literal true (16 * acc + d) s'
      | None => if seen && all_white_space s then Some acc else None
      end
  end.

(** The [SyntaxError] of [BigInt(s)]; of the stack only the first line is
    kept. *)
Definition SyntaxError_BigInt (s : string) : Error :=
  {| message := "Cannot convert " ^^ s ^^ " to a BigInt";
     stack := "SyntaxError: Cannot convert " ^^ s ^^ " to a BigInt" |}.

Definition BigInt_0x (h : string) : Res Z :=
  match hex_literal false 0 h with
  | Some z => Ok z
  | None => Err (SyntaxError_BigInt ("0x" ^^ h))
  end.

(** The result is [{ token, amount }], or [null] ([None]). *)
Definition decodeUpvoteData (data : string) : Async (option (string * Z)) :=
  catch
    ((* The upvote function selector is 0x2d4ba917 (upvote(address,uint256)) *)
     let upvoteSelector := "0x2d4ba917" in
     if negb (startsWith data upvoteSelector) then
       console_print (console_log
         ("[DECODE] Not an upvote call, selector: " ^^ slice 0 10 data)) ;;
       ret None
     else
       (* Remove function selector (first 4 bytes) *)
       let params := slice_to_end 10 data in
       let token := "0x" ^^ slice 24 64 params in
       match BigInt_0x (slice 64 96 params) with
       | Err e => raise e
       | Ok amount =>
           console_print (console_log
             ("[DECODE] Decoded upvote: token=" ^^ token
              ^^ ", amount=" ^^ toString amount)) ;;
           ret (Some (token, amount))
       end)
    (fun err =>
       console_print (console_error
         ("Error decoding upvote data: " ^^ stack err)) ;;
       ret None).

(** *** addUpvotesToDispenser

    The result is the transaction hash, or [null] ([None]). *)

Definition addUpvotesToDispenser (user : string) (amount : Z)
  : Async (option string) :=
  catch
    (gasPrice <- await getGasPrice ;;
     let adjustedGasPrice := Z.quot (gasPrice * 120) 100 in
     request <- await (simulateContract_addUpvotes
                         NORMALIZED_DISPENSER_ADDRESS user amount adjustedGasPrice) ;;
     hash <- await (writeContract request) ;;
     logInfo "dispenser_call"
       [("hash", JStr hash); ("user", JStr user);
        ("amount", JStr (toString amount))] ;;
     console_print (console_log
       ("[DISPENSER] Called addUpvotes for " ^^ user ^^ " with "
        ^^ toString amount ^^ " votes. Hash: " ^^ hash)) ;;
     ret (Some hash))
    (fun err =>
       console_print (console_error
         ("[DISPENSER_ERROR] Failed to call addUpvotes: " ^^ message err)) ;;
       logError "dispenser_call_error" err
         [("user", JStr user); ("amount", JStr (toString amount));
          ("dispenserAddress", JStr NORMALIZED_DISPENSER_ADDRESS)] ;;
       ret None).

(** *** The [onLogs] callback of [watchUpvotes] *)

(** [`${log.transactionHash}:${log.logIndex}`] *)
Definition log_id (log : Log) : string :=
  transactionHash log ^^ ":" ^^ toString (logIndex log).

Definition basescan_tx (hash : string) : string :=
  "https://basescan.org/tx/" ^^ hash.

(** [log.args.token || ''] *)
Definition token_of (log : Log) : string :=
  match args_token log with Some t => t | None => "" end.

(** [(log.args.token || '').toLowerCase()] *)
Definition log_token (log : Log) : string := toLowerCase (token_of log).

(** [if (awardHash)]: [null] and the empty string are falsy. *)
Definition truthy_hash (h : option string) : option string :=
  match h with
  | Some s => if (s =? "")%string then None else Some s
  | None => None
  end.

(** [log.blockNumber && BigInt(log.blockNumber) > lastProcessedBlock]:
    [null] and [0n] are falsy. *)
Definition advances_block (b : option Z) (last : Z) : option Z :=
  match b with
  | Some b => if negb (b =? 0) && (b >? last) then Some b else None
  | None => None
  end.

(** The second half of the loop body, from [// Check inventory] to its end,
    entered once the entry is marked. *)
Definition check_inventory_and_award (log : Log) : Async unit :=
  let user := args_user log in
  (* Check inventory *)
  c <- await_call getConfig ;;
  if (queuedNFTCount c =? 0)%nat then
    console_print (console_log
      ("[DISPENSER] Out of NFTs! User " ^^ user ^^ " upvoted "
       ^^ toString REQUIRED_UPVOTES ^^ " times but no inventory available.")) ;;
    logWarning "dispenser_depleted"
      ([("user", JStr user); ("txHash", JStr (transactionHash log))]
       ++ opt_field "blockNumber" (option_map toString (blockNumber log))) ;;
    logDispenserAction "inventory_depleted"
      [("user", JStr user); ("sourceTx", JStr (transactionHash log));
       ("sourceBasescan", JStr (basescan_tx (transactionHash log)));
       ("note", JStr ("User upvoted " ^^ toString REQUIRED_UPVOTES
                      ^^ " times but no NFTs available"))]
    (* continue *)
  else
    (* Award exactly required upvotes for this tx *)
    awardHash <- await_call (addUpvotesToDispenser user REQUIRED_UPVOTES) ;;
    match truthy_hash awardHash with
    | Some awardHash =>
        console_print (console_log
          ("[DISPENSER] NFT awarded to " ^^ user ^^ "! Transaction: "
           ^^ basescan_tx awardHash)) ;;
        logInfo "award_success"
          [("user", JStr user); ("amount", JStr (toString REQUIRED_UPVOTES));
           ("sourceTx", JStr (transactionHash log));
           ("dispenserTx", JStr awardHash);
           ("sourceBasescan", JStr (basescan_tx (transactionHash log)));
           ("dispenserBasescan", JStr (basescan_tx awardHash))] ;;
        logDispenserAction "nft_awarded"
          [("user", JStr user); ("amount", JStr (toString REQUIRED_UPVOTES));
           ("sourceTx", JStr (transactionHash log));
           ("dispenserTx", JStr awardHash);
           ("sourceBasescan", JStr (basescan_tx (transactionHash log)));
           ("dispenserBasescan", JStr (basescan_tx awardHash));
           ("inventoryBefore", JStr (toString (Z.of_nat (queuedNFTCount c))))]
    | None =>
        console_print (console_log
          ("[DISPENSER] Failed to award NFT to " ^^ user
           ^^ ". Check logs for details.")) ;;
        logWarning "award_failed"
          [("user", JStr user); ("amount", JStr (toString REQUIRED_UPVOTES));
           ("sourceTx", JStr (transactionHash log))] ;;
        logDispenserAction "award_failed"
          [("user", JStr user); ("amount", JStr (toString REQUIRED_UPVOTES));
           ("sourceTx", JStr (transactionHash log));
           ("sourceBasescan", JStr (basescan_tx (transactionHash log)));
           ("error", JStr "Transaction failed")]
    end ;;
    (* Track last processed block *)
    w <- getWorld ;;
    match advances_block (blockNumber log) (lastProcessedBlock w) with
    | Some b => modify (set_lastProcessedBlock b)
    | None => ret tt
    end.

(** [BigInt(v)] for [v] a bigint or [undefined]: the bigint itself, or a
    [TypeError]. *)
Definition TypeError_undefined : Error :=
  {| message := "Cannot convert undefined to a BigInt";
     stack := "TypeError: Cannot convert undefined to a BigInt" |}.

Definition BigInt_of_value (v : option Z) : Async Z :=
  match v with
  | Some z => ret z
  | None => raise TypeError_undefined
  end.

(** The body of [for (const log of logs)].  A [continue] ends the body. *)
Definition processLog (log : Log) : Async unit :=
  let id := log_id log in
  w <- getWorld ;;
  if JSSet.has id (processedLogIds w) then ret tt (* continue *) else
  let user := args_user log in
  let token := log_token log in
  numUpvotes <- BigInt_of_value (args_numUpvotes log) ;;
  (* Only tracked token and exactly required upvotes in a single tx *)
  if negb (token =? toLowerCase NORMALIZED_TRACKED_TOKEN_ADDRESS)%string
  then ret tt (* continue *) else
  if negb (numUpvotes =? REQUIRED_UPVOTES) then ret tt (* continue *) else
  (* Mark processed preemptively to avoid re-entry *)
  modify (fun w => set_processedLogIds (JSSet.add id (processedLogIds w)) w) ;;
  logInfo "upvote_event_seen"
    ([("user", JStr user); ("token", JStr token);
      ("numUpvotes", JStr (toString numUpvotes));
      ("txHash", JStr (transactionHash log))]
     ++ opt_field "blockNumber" (option_map toString (blockNumber log))
     ++ [("basescanTx", JStr (basescan_tx (transactionHash log)))]) ;;
  check_inventory_and_award log.

Fixpoint onLogs (logs : list Log) : Async unit :=
  match logs with
  | [] => ret tt
  | log :: rest => processLog log ;; onLogs rest
  end.

(** *** tick *)

(** [processed.slice(Math.max(0, processed.length - 500))] *)
Definition trimmed (processed : list string) : list string :=
  slice_from (Z.to_nat (Z.max 0 (Z.of_nat (List.length processed) - 500)))
             processed.

Definition tick : Async unit :=
  catch
    (c <- await_call getConfig ;;
     let upvotesRequired := upvotesRequired c in
     let queuedNFTCount := queuedNFTCount c in
     currentTip <- await_call getCurrentTip ;;
     (* Persist state (cap processed log ids to last 500 for file size) *)
     w <- getWorld ;;
     let processed := JSSet.to_array (processedLogIds w) in
     let state :=
       {| sf_lastProcessed := Some (toString currentTip);
          sf_tip := Some (toString currentTip);
          sf_lastProcessedBlock := Some (toString (lastProcessedBlock w));
          sf_processed := Some (trimmed processed) |} in
     modify (set_net_state_json (Some state)) ;;
     modify (fun w => set_heartbeatCount (heartbeatCount w + 1) w) ;;
     w <- getWorld ;;
     (if Z.rem (heartbeatCount w) HEARTBEAT_INTERVAL =? 0 then
        console_print (console_log
          ("[HEARTBEAT] Bot healthy - Required: " ^^ upvotesRequired
           ^^ ", NFTs: " ^^ toString (Z.of_nat queuedNFTCount)
           ^^ ", Tip: " ^^ toString currentTip
           ^^ ", Block: " ^^ toString (lastProcessedBlock w)
           ^^ ", Processed: "
           ^^ toString (Z.of_nat (JSSet.size (processedLogIds w)))))
      else ret tt) ;;
     w <- getWorld ;;
     match configCache w with
     | Some cache =>
         let '(Build_Config cached _ _ _) := data cache in
         if negb (cached =? upvotesRequired)%string
         then
           console_print (console_log
             ("[CONFIG] Upvotes required changed to: " ^^ upvotesRequired)) ;;
           logDispenserAction "threshold_changed"
             [("oldValue", JStr cached); ("newValue", JStr upvotesRequired)]
         else ret tt
     | None => ret tt
     end)
    (fun err =>
       console_print (console_error
         ("[TICK_ERROR] Failed to update bot state: " ^^ message err)) ;;
       w <- getWorld ;;
       logError "tick_error" err
         [("heartbeatCount", JStr (toString (heartbeatCount w)));
          ("lastProcessedBlock", JStr (toString (lastProcessedBlock w)))]).


(** *** State load at module top level *)

(** The globals of a process that has just started, over the files the
    previous process left. *)
Definition fresh_process (disk : World) : World :=
  {| lastProcessed := 0; configCache := None;
     processedLogIds := JSSet.empty; lastProcessedBlock := 0;
     heartbeatCount := 0;
     net_state_json := net_state_json disk; logFile := logFile disk;
     dispenserLogFile := dispenserLogFile disk; console := [] |}.

Definition loadState : Async unit :=
  catch
    (w <- getWorld ;;
     match net_state_json w with
     | None =>
         (* fs.readFileSync or JSON.parse throws *)
         raise {| message := "ENOENT: no such file or directory, open 'net_state.json'";
                  stack := "" |}
     | Some state =>
         (* Restore processed logs & last processed block if present *)
         match sf_processed state with
         | Some processed =>
             modify (set_processedLogIds (JSSet.of_array processed))
         | None => ret tt
         end ;;
         match sf_lastProcessedBlock state with
         | Some s =>
             if (s =? "")%string then ret tt else
             match BigInt_of_string s with
             | Some b => modify (set_lastProcessedBlock b)
             | None =>
                 raise {| message := "Cannot convert " ^^ s ^^ " to a BigInt";
                          stack := "" |}
             end
         | None => ret tt
         end ;;
         (* For previous versions, keep app-specific message index at 0 *)
         modify (set_lastProcessed 0) ;;
         w <- getWorld ;;
         console_print (console_log
           ("Starting from app message index: " ^^ toString (lastProcessed w)
            ^^ " (block " ^^ toString (lastProcessedBlock w) ^^ ")"))
     end)
    (fun err =>
       console_print (console_log "No state file found, starting from 0") ;;
       modify (set_lastProcessed 0)).

(** The process that starts over the files [disk]. *)
Definition startup (env : Env) (disk : World) : World :=
  world (run env 0 (fresh_process disk) loadState).

(** ** The event loop

    On the JavaScript event loop an invocation runs without interruption
    until it ends or reaches an [await]; there it is set aside with the
    promise it waits for, and any other callback may run before the promise
    settles. *)

Inductive Stage (A : Type) : Type :=
| Finished (r : Res A) (w : World)
| Suspended (w : World) {B : Type} (op : Op B) (k : Res B -> Async A)
| Yielded (w : World) (k : Async A).
Arguments Finished {A} r w.
Arguments Suspended {A} w {B} op k.
Arguments Yielded {A} w k.

(** Run [m] up to its next [await]; [clock] gives the successive readings
    of [Date.now()]. *)
Fixpoint advance {A} (clock : nat -> Z) (n : nat) (w : World) (m : Async A)
  : Stage A :=
  match m with
  | Ret a => Finished (Ok a) w
  | Throw e => Finished (Err e) w
  | Get k => advance clock n w (k w)
  | Put w' k => advance clock n w' k
  | Now k => advance clock (S n) w (k (clock n))
  | Await op k => Suspended w op k
  | Yield k => Yielded w k
  end.

(** An invocation set aside at an [await]: it waits for a promise of the
    network to settle, or is queued as a microtask. *)
Inductive Pending : Type :=
| Awaiting {B : Type} (op : Op B) (resume : Res B -> Async unit)
| Queued (resume : Async unit).

Record Loop : Type := {
  globals : World;
  pending : list Pending;
  started : list Call      (* the remote operations started so far *)
}.

Definition boot (w : World) : Loop :=
  {| globals := w; pending := []; started := [] |}.

(** The loop after an invocation has run up to [st]; [others] are the
    invocations that stay set aside, [before] the operations started so
    far.  An invocation that throws to the loop ends there (Node would log
    [fatal_error] and exit; every state the bot goes through before that is
    a state of this loop). *)
Definition set_aside (st : Stage unit) (before : list Call)
  (others : list Pending) : Loop :=
  match st with
  | Finished _ w' =>
      {| globals := w'; pending := others; started := before |}
  | Suspended w' op k =>
      {| globals := w';
         pending := others ++ [Awaiting op k];
         started := before ++
                    [{| call_op := existT _ _ op; call_world := w' |}] |}
  | Yielded w' k =>
      {| globals := w'; pending := others ++ [Queued k];
         started := before |}
  end.

(** Run the callback [m] in the loop [L]. *)
Definition enter (clock : nat -> Z) (m : Async unit) (L : Loop)
  (others : list Pending) : Loop :=
  set_aside (advance clock 0 (globals L) m) (started L) others.

(** One turn of the loop: the subscription delivers a batch of logs (all of
    them among the [deliverable] ones), the timer fires [tick], a pending
    promise settles, or a queued invocation goes on, in any order and with
    any outcome.  (Node runs queued microtasks before timers and deliveries;
    the loop here allows every order.) *)
Inductive loop_step (deliverable : Log -> Prop) : Loop -> Loop -> Prop :=
| step_logs L clock logs :
    Forall deliverable logs ->
    loop_step deliverable L (enter clock (onLogs logs) L (pending L))
| step_tick L clock :
    loop_step deliverable L (enter clock tick L (pending L))
| step_settle L clock before B (op : Op B) k after (r : Res B) :
    pending L = before ++ Awaiting op k :: after ->
    loop_step deliverable L (enter clock (k r) L (before ++ after))
| step_resume L clock before k after :
    pending L = before ++ Queued k :: after ->
    loop_step deliverable L (enter clock k L (before ++ after)).

Inductive reachable (deliverable : Log -> Prop) (L0 : Loop) : Loop -> Prop :=
| reach_start : reachable deliverable L0 L0
| reach_step L L' :
    reachable deliverable L0 L -> loop_step deliverable L L' ->
    reachable deliverable L0 L'.

(** *** A logic for invocations that interleave *)

(** The [processed] array of the state file, if there is one, has at most
    500 entries, and they are consecutive members of [processedLogIds]:
    the keys inserted before them are [older], those inserted since the
    file was written are [newer]. *)
Definition file_capped (w : World) : Prop :=
  match net_state_json w with
  | Some state =>
      match sf_processed state with
      | Some kept =>
          (List.length kept <= 500)%nat
          /\ exists older newer, processedLogIds w = older ++ kept ++ newer
      | None => True
      end
  | None => True
  end.

(** [put_ok w w' g]: a write of the globals that never lowers
    [lastProcessedBlock], either leaves [processedLogIds] alone ([g = 0])
    or appends one new, deliverable key ([g = 1]), and keeps the state file
    capped. *)
Definition put_ok (deliverable : Log -> Prop) (w w' : World) (g : Z) : Prop :=
  lastProcessedBlock w <= lastProcessedBlock w'
  /\ ((g = 0 /\ processedLogIds w' = processedLogIds w)
      \/ (g = 1 /\ exists log,
             deliverable log
             /\ JSSet.has (log_id log) (processedLogIds w) = false
             /\ processedLogIds w' = processedLogIds w ++ [log_id log]))
  /\ (file_capped w -> file_capped w').

(** [wp m w c Q]: run from the world [w] holding [c] credits, [m] only makes
    writes that are [put_ok], earns a credit with each key it appends, pays
    one for each dispatch it starts, is never in debt when it is set aside,
    and ends in [Q].  While it is set aside the world may change in any
    way. *)
Fixpoint wp (deliverable : Log -> Prop) {A} (m : Async A) (w : World) (c : Z)
  (Q : Res A -> World -> Z -> Prop) : Prop :=
  match m with
  | Ret a => Q (Ok a) w c
  | Throw e => Q (Err e) w c
  | Get k => wp deliverable (k w) w c Q
  | Put w' k => exists g, put_ok deliverable w w' g /\ wp deliverable k w' (c + g) Q
  | Now k => forall t, wp deliverable (k t) w c Q
  | Await op k =>
      let c' := c - (if starts_dispatch op then 1 else 0) in
      0 <= c' /\ forall r w', wp deliverable (k r) w' c' Q
  | Yield k => 0 <= c /\ forall w', wp deliverable k w' c Q
  end.

(** The writes of one or more turns, with the number of keys appended. *)
Inductive extends_by (deliverable : Log -> Prop) : World -> World -> Z -> Prop :=
| ext_refl w : extends_by deliverable w w 0
| ext_put w w' w'' g g' :
    extends_by deliverable w w' g -> put_ok deliverable w' w'' g' ->
    extends_by deliverable w w'' (g + g').

(** A pending invocation is in order with [c] credits. *)
Definition pending_ok (deliverable : Log -> Prop) (p : Pending) (c : Z) : Prop :=
  0 <= c
  /\ match p with
     | Awaiting op k =>
         forall r w', wp deliverable (k r) w' c (fun _ _ c' => 0 <= c')
     | Queued k =>
         forall w', wp deliverable k w' c (fun _ _ c' => 0 <= c')
     end.

Definition sumZ (l : list Z) : Z := fold_right Z.add 0 l.

Definition dispatches (cs : list Call) : Z :=
  Z.of_nat (List.length (filter is_getGasPrice cs)).

Definition loop_inv (deliverable : Log -> Prop) (w0 : World) (L : Loop) : Prop :=
  exists gained credits,
    extends_by deliverable w0 (globals L) gained
    /\ Forall2 (pending_ok deliverable) (pending L) credits
    /\ dispatches (started L) + sumZ credits <= gained.

(** ** Notions used to state the theorems *)

(** The globals that only the event handler, [tick] and the state load
    write: they are the same in [w] and [w']. *)
Record same_bookkeeping (w w' : World) : Prop := {
  cf_processedLogIds : processedLogIds w' = processedLogIds w;
  cf_lastProcessedBlock : lastProcessedBlock w' = lastProcessedBlock w;
  cf_lastProcessed : lastProcessed w' = lastProcessed w;
  cf_heartbeatCount : heartbeatCount w' = heartbeatCount w;
  cf_net_state_json : net_state_json w' = net_state_json w
}.

(** A delivered entry is matched when it passes both filters. *)
Definition matched (log : Log) : Prop :=
  case_insensitive_eq (token_of log) NORMALIZED_TRACKED_TOKEN_ADDRESS
  /\ args_numUpvotes log = Some REQUIRED_UPVOTES.

(** The world of a matched, new entry at the moment the handler asks for
    the inventory: the key is in [processedLogIds] and [upvote_event_seen]
    is in the log file. *)
Definition marked (log : Log) (w : World) : World :=
  set_logFile
    (logFile w ++
     [{| type := "upvote_event_seen"; level := info;
         fields :=
           [("user", JStr (args_user log)); ("token", JStr (log_token log))]
           ++ opt_field "numUpvotes" (option_map toString (args_numUpvotes log))
           ++ [("txHash", JStr (transactionHash log))]
           ++ opt_field "blockNumber" (option_map toString (blockNumber log))
           ++ [("basescanTx", JStr (basescan_tx (transactionHash log)))] |}])
    (set_processedLogIds (JSSet.add (log_id log) (processedLogIds w)) w).

(** How the network treats one call of [addUpvotesToDispenser user amount]
    whose first question is the [n]-th: the hash [writeContract] resolves
    to, or the error of the first of the three promises that is rejected. *)
Definition dispatch_settles (env : Env) (n : nat) (user : string) (amount : Z)
  : Res string :=
  match env_settle env n _ getGasPrice with
  | Err e => Err e
  | Ok gasPrice =>
      match env_settle env (S n) _
              (simulateContract_addUpvotes NORMALIZED_DISPENSER_ADDRESS user
                 amount (Z.quot (gasPrice * 120) 100)) with
      | Err e => Err e
      | Ok request => env_settle env (S (S n)) _ (writeContract request)
      end
  end.

(** A snapshot whose count is the length of its list of queued tokens. *)
Definition snapshot_consistent (c : Config) : Prop :=
  queuedNFTCount c = List.length (queuedNFTs c).

Definition cache_consistent (w : World) : Prop :=
  match configCache w with
  | Some c => snapshot_consistent (data c)
  | None => True
  end.

(** The remote operations of one call of [addUpvotesToDispenser]. *)
Definition gas_call (w : World) : Call :=
  {| call_op := existT _ _ getGasPrice; call_world := w |}.

Definition simulate_call (w : World) (user : string) (amount gasPrice : Z) : Call :=
  {| call_op := existT _ _
       (simulateContract_addUpvotes NORMALIZED_DISPENSER_ADDRESS user amount
          gasPrice);
     call_world := w |}.

Definition write_call (w : World) (request : Request) : Call :=
  {| call_op := existT _ _ (writeContract request); call_world := w |}.

(** The value of a decimal numeral read after [acc]. *)
Fixpoint uint_value (acc : Z) (d : Decimal.uint) : Z :=
  match d with
  | Decimal.Nil => acc
  | Decimal.D0 l => uint_value (10 * acc + 0) l
  | Decimal.D1 l => uint_value (10 * acc + 1) l
  | Decimal.D2 l => uint_value (10 * acc + 2) l
  | Decimal.D3 l => uint_value (10 * acc + 3) l
  | Decimal.D4 l => uint_value (10 * acc + 4) l
  | Decimal.D5 l => uint_value (10 * acc + 5) l
  | Decimal.D6 l => uint_value (10 * acc + 6) l
  | Decimal.D7 l => uint_value (10 * acc + 7) l
  | Decimal.D8 l => uint_value (10 * acc + 8) l
  | Decimal.D9 l => uint_value (10 * acc + 9) l
  end.

(** A number written in [n] hexadecimal digits, the most significant
    first, as calldata has it. *)
Definition hex_char (d : Z) : ascii :=
  ascii_of_nat (Z.to_nat (if d <? 10 then 48 + d else 87 + d)).

Fixpoint hex_fixed (n : nat) (z : Z) : string :=
  match n with
  | O => EmptyString
  | S n' => String (hex_char ((z / 16 ^ Z.of_nat n') mod 16)) (hex_fixed n' z)
  end.

(** ** Concrete inputs used to exercise the theorems *)

Definition ex_tracked : string := "0xAbCdEF0000000000000000000000000000000001".
Definition ex_dispenser : string := "0xD15D15D15D15D15D15D15D15D15D15D15D15D15D1".
Definition ex_app : string := "0x0ada882Dbbdc12388a1F9CA85d2d847088F747df".

Definition ex_empty_disk : World :=
  {| lastProcessed := 0; configCache := None;
     processedLogIds := JSSet.empty; lastProcessedBlock := 0;
     heartbeatCount := 0; net_state_json := None; logFile := [];
     dispenserLogFile := []; console := [] |}.

(** A log that passes both filters when 420 upvotes are required. *)
Definition ex_log : Log :=
  {| transactionHash := "0xaaa"; logIndex := 3; args_user := "0xU1";
     args_token := Some "0xABCDEF0000000000000000000000000000000001";
     args_numUpvotes := Some 420; blockNumber := Some 100 |}.

(** The same event with 419 upvotes, and with another token. *)
Definition ex_log_419 : Log :=
  {| transactionHash := "0xbbb"; logIndex := 0; args_user := "0xU1";
     args_token := Some "0xABCDEF0000000000000000000000000000000001";
     args_numUpvotes := Some 419; blockNumber := Some 101 |}.

Definition ex_log_other_token : Log :=
  {| transactionHash := "0xccc"; logIndex := 1; args_user := "0xU1";
     args_token := Some "0x0000000000000000000000000000000000000002";
     args_numUpvotes := Some 420; blockNumber := Some 102 |}.

(** A log that did not decode: [args] is [{}]. *)
Definition ex_log_undecoded : Log :=
  {| transactionHash := "0xddd"; logIndex := 2; args_user := "undefined";
     args_token := None; args_numUpvotes := None; blockNumber := Some 103 |}.

(** A world in which [ex_log] has been handled before. *)
Definition ex_world_seen : World :=
  set_processedLogIds ["0xaaa:3"] ex_empty_disk.

(** A world whose set holds 501 keys, [0xtx0:0] the oldest. *)
Definition ex_keys : list string :=
  map (fun i => "0xtx" ^^ toString (Z.of_nat i) ^^ ":0") (seq 0 501).

Definition ex_world_501 : World := set_processedLogIds ex_keys ex_empty_disk.

(** How each promise settles in the examples: [stock] tokens are queued;
    the [n]-th question fails when [fails n] holds. *)
Fixpoint ex_settle (stock : list Z) (B : Type) (op : Op B) : Res B :=
  match op in Op B return Res B with
  | readContract_upvotesRequired _ => Ok 420
  | readContract_getQueuedNFTs _ => Ok stock
  | readContract_getTotalMessagesForAppCount _ => Ok 55
  | getGasPrice => Ok 1000
  | simulateContract_addUpvotes a u amt g =>
      Ok {| req_address := a; req_user := u; req_numVotes := amt;
            req_gasPrice := g |}
  | writeContract _ => Ok "0xfeed"
  | Promise_all a b =>
      match ex_settle stock _ a, ex_settle stock _ b with
      | Ok x, Ok y => Ok (x, y)
      | Err e, _ => Err e
      | _, Err e => Err e
      end
  end.

Definition ex_revert : Error :=
  {| message := "execution reverted"; stack := "Error: execution reverted" |}.

Definition ex_env (stock : list Z) (fails : nat -> bool) : Env :=
  {| env_now := fun n => 1700000000000 + Z.of_nat n;
     env_settle := fun n B op =>
       if fails n then Err ex_revert else ex_settle stock B op |}.

(** A log directory on 1 November 2026 with one dated log, the dispenser
    log and a file that is no log; nothing logged yet by this process. *)
Definition ex_logs : DailyLog.Logs :=
  {| DailyLog.files :=
       [{| DailyLog.file_name := "2026-10-30.jsonl"; DailyLog.file_lines := [] |};
        {| DailyLog.file_name := "dispenser-actions.jsonl";
           DailyLog.file_lines := [] |};
        {| DailyLog.file_name := "notes.txt"; DailyLog.file_lines := [] |}];
     DailyLog.currentLogFile := None;
     DailyLog.currentLogDate := None;
     DailyLog.printed := [] |}.

Definition ex_entry : LogEntry :=
  {| type := "startup_success"; level := info; fields := [] |}.

(** A dispenser owned by account 1, for the NFT contract 2, holding the
    tokens 7 and 8; account 5 has no credit. *)
Definition ex_storage : MegapurrDispenser.Storage :=
  MegapurrDispenser.set_queuedNFTs [7; 8] (MegapurrDispenser.constructor 1 2 3).

(** ** Proof conventions *)

#[local] Arguments String.append : simpl never.
#[local] Arguments toString : simpl never.

(** Unfold the monad notations to [abind], [Ret], [try_catch], [Throw]. *)
Ltac unmonad :=
  cbn [bind ret catch raise Monad_Async MonadExc_Async].

(** ** Lemmas on strings and sets *)

Lemma lower_ascii_upper (n : nat) :
  (65 <= n <= 90)%nat -> lower_ascii (ascii_of_nat n) = ascii_of_nat (n + 32).
Proof.
  intros Hn. unfold lower_ascii.
  rewrite nat_ascii_embedding by lia.
  destruct (Nat.leb_spec 65 n); [|lia].
  destruct (Nat.leb_spec n 90); [|lia]. reflexivity.
Qed.

Lemma lower_ascii_other (a : ascii) :
  ~ (65 <= nat_of_ascii a <= 90)%nat -> lower_ascii a = a.
Proof.
  intros Hn. unfold lower_ascii.
  destruct (Nat.leb_spec 65 (nat_of_ascii a));
    destruct (Nat.leb_spec (nat_of_ascii a) 90); simpl; try reflexivity; lia.
Qed.

Lemma ascii_of_nat_inj (n m : nat) :
  (n < 256)%nat -> (m < 256)%nat -> ascii_of_nat n = ascii_of_nat m -> n = m.
Proof.
  intros Hn Hm H. apply (f_equal nat_of_ascii) in H.
  now rewrite !nat_ascii_embedding in H by assumption.
Qed.

Lemma same_letter_lower (a b : ascii) :
  same_letter a b <-> lower_ascii a = lower_ascii b.
Proof.
  split.
  - intros [-> | (n & Hn & [[-> ->] | [-> ->]])]; [reflexivity | |].
    + rewrite (lower_ascii_upper n) by assumption.
      rewrite lower_ascii_other; [reflexivity|].
      rewrite nat_ascii_embedding by lia. lia.
    + rewrite (lower_ascii_upper n) by assumption.
      rewrite lower_ascii_other; [reflexivity|].
      rewrite nat_ascii_embedding by lia. lia.
  - intros H.
    destruct (le_dec 65 (nat_of_ascii a)) as [Ha1|Ha1];
      [destruct (le_dec (nat_of_ascii a) 90) as [Ha2|Ha2]|];
      (destruct (le_dec 65 (nat_of_ascii b)) as [Hb1|Hb1];
       [destruct (le_dec (nat_of_ascii b) 90) as [Hb2|Hb2]|]).
    all: try (rewrite (lower_ascii_other a) in H by lia).
    all: try (rewrite (lower_ascii_other b) in H by lia).
    all: try (left; exact H).
    + rewrite <- (ascii_nat_embedding a), <- (ascii_nat_embedding b) in H.
      rewrite !lower_ascii_upper in H by lia.
      apply ascii_of_nat_inj in H; [|lia|lia].
      left. rewrite <- (ascii_nat_embedding a), <- (ascii_nat_embedding b).
      f_equal. lia.
    + right. exists (nat_of_ascii a). split; [lia|]. left.
      rewrite ascii_nat_embedding. split; [reflexivity|].
      rewrite <- H. rewrite <- (ascii_nat_embedding a) at 1.
      now rewrite lower_ascii_upper by lia.
    + right. exists (nat_of_ascii a). split; [lia|]. left.
      rewrite ascii_nat_embedding. split; [reflexivity|].
      rewrite <- H. rewrite <- (ascii_nat_embedding a) at 1.
      now rewrite lower_ascii_upper by lia.
    + right. exists (nat_of_ascii b). split; [lia|]. right.
      rewrite ascii_nat_embedding. split; [reflexivity|].
      rewrite H. rewrite <- (ascii_nat_embedding b) at 1.
      now rewrite lower_ascii_upper by lia.
    + right. exists (nat_of_ascii b). split; [lia|]. right.
      rewrite ascii_nat_embedding. split; [reflexivity|].
      rewrite H. rewrite <- (ascii_nat_embedding b) at 1.
      now rewrite lower_ascii_upper by lia.
Qed.

(** Comparing the lower-cased strings is case-insensitive equality. *)
Lemma toLowerCase_eq_iff (s t : string) :
  toLowerCase s = toLowerCase t <-> case_insensitive_eq s t.
Proof.
  revert t. induction s as [|a s IH]; intros [|b t]; simpl.
  - tauto.
  - split; [discriminate | tauto].
  - split; [discriminate | tauto].
  - rewrite same_letter_lower, <- IH. split.
    + intros H. injection H. tauto.
    + intros [-> ->]. reflexivity.
Qed.

Lemma has_true_iff (x : string) (s : JSSet.t) :
  JSSet.has x s = true <-> In x s.
Proof.
  unfold JSSet.has. rewrite existsb_exists. split.
  - intros (y & Hy & Heq). apply String.eqb_eq in Heq. now subst.
  - intros H. exists x. split; [assumption | apply String.eqb_refl].
Qed.

Lemma has_eq_of_In_iff (x : string) (s s' : JSSet.t) :
  (In x s <-> In x s') -> JSSet.has x s = JSSet.has x s'.
Proof.
  intros H.
  destruct (JSSet.has x s) eqn:E1, (JSSet.has x s') eqn:E2; try reflexivity.
  - apply has_true_iff, H, has_true_iff in E1. congruence.
  - apply has_true_iff, H, has_true_iff in E2. congruence.
Qed.

Lemma In_add (x y : string) (s : JSSet.t) :
  In x (JSSet.add y s) <-> x = y \/ In x s.
Proof.
  unfold JSSet.add. destruct (JSSet.has y s) eqn:E.
  - apply has_true_iff in E. split; [tauto|]. intros [->|H]; assumption.
  - rewrite in_app_iff. simpl. intuition congruence.
Qed.

Lemma has_add_same (x : string) (s : JSSet.t) :
  JSSet.has x (JSSet.add x s) = true.
Proof. apply has_true_iff, In_add. now left. Qed.

Lemma In_fold_add (x : string) (a : list string) (acc : JSSet.t) :
  In x (fold_left (fun s y => JSSet.add y s) a acc) <-> In x acc \/ In x a.
Proof.
  revert acc. induction a as [|y a IH]; intros acc; simpl.
  - tauto.
  - rewrite IH, In_add. intuition congruence.
Qed.

(** [new Set(array)] has exactly the members of the array. *)
Lemma has_of_array (x : string) (a : list string) :
  JSSet.has x (JSSet.of_array a) = JSSet.has x a.
Proof.
  apply has_eq_of_In_iff. unfold JSSet.of_array.
  rewrite In_fold_add. unfold JSSet.empty. simpl. tauto.
Qed.

(** What [tick] keeps of the keys: the last 500, all of them when there
    are no more. *)
Lemma trimmed_length (l : list string) :
  List.length (trimmed l) = Nat.min 500 (List.length l).
Proof. unfold trimmed, slice_from. rewrite length_skipn. lia. Qed.

Lemma trimmed_suffix (l : list string) :
  exists older, l = older ++ trimmed l.
Proof.
  unfold trimmed, slice_from.
  eexists. symmetry. apply firstn_skipn.
Qed.

Lemma trimmed_small (l : list string) :
  (List.length l <= 500)%nat -> trimmed l = l.
Proof.
  intros H. unfold trimmed, slice_from.
  replace (Z.to_nat (Z.max 0 (Z.of_nat (List.length l) - 500))) with 0%nat by lia.
  reflexivity.
Qed.

(** ** Lemmas on [run] *)

Lemma after_calls_nil {A} (o : Outcome A) : after_calls [] o = o.
Proof. now destruct o. Qed.

Lemma after_calls_app {A} (cs cs' : list Call) (o : Outcome A) :
  after_calls cs (after_calls cs' o) = after_calls (cs ++ cs') o.
Proof. unfold after_calls. cbn. now rewrite app_assoc. Qed.

Lemma run_bind {A B} (m : Async A) (f : A -> Async B) env n w :
  run env n w (abind m f) =
  let o := run env n w m in
  match result o with
  | Ok a => after_calls (calls o) (run env (asked o) (world o) (f a))
  | Err e =>
      {| result := Err e; world := world o; calls := calls o;
         asked := asked o |}
  end.
Proof.
  revert n w.
  induction m as [a|e|k IH|w' k IH|k IH|T op k IH|k IH]; intros n w;
    cbn [abind run]; cbv zeta.
  - cbn. now rewrite after_calls_nil.
  - reflexivity.
  - apply IH.
  - apply IH.
  - apply IH.
  - rewrite IH. cbv zeta. cbn [result world asked calls after_calls].
    destruct (result (run env (S n) w (k (env_settle env n T op))));
      [now rewrite after_calls_app | reflexivity].
  - apply IH.
Qed.

Lemma run_try_catch {A} (m : Async A) (h : Error -> Async A) env n w :
  run env n w (try_catch m h) =
  let o := run env n w m in
  match result o with
  | Ok a => o
  | Err e => after_calls (calls o) (run env (asked o) (world o) (h e))
  end.
Proof.
  revert n w.
  induction m as [a|e|k IH|w' k IH|k IH|T op k IH|k IH]; intros n w;
    cbn [try_catch run]; cbv zeta.
  - reflexivity.
  - cbn. now rewrite after_calls_nil.
  - apply IH.
  - apply IH.
  - apply IH.
  - rewrite IH. cbv zeta. cbn [result world asked calls after_calls].
    destruct (result (run env (S n) w (k (env_settle env n T op))));
      [reflexivity | now rewrite after_calls_app].
  - apply IH.
Qed.

(** With nothing else in flight, [await f(...)] is the call of [f]. *)
Lemma run_await_call {A} (m : Async A) env n w :
  run env n w (await_call m) = run env n w m.
Proof.
  unfold await_call. rewrite run_try_catch, run_bind. cbv zeta.
  destruct (run env n w m) as [[a|e] w' cs k]; cbn;
    unfold after_calls; cbn; now rewrite app_nil_r.
Qed.

(** ** The event handler: entries it skips *)

Lemma run_onLogs_cons env n w log rest :
  run env n w (onLogs (log :: rest)) =
  let o := run env n w (processLog log) in
  match result o with
  | Ok _ => after_calls (calls o) (run env (asked o) (world o) (onLogs rest))
  | Err e =>
      {| result := Err e; world := world o; calls := calls o;
         asked := asked o |}
  end.
Proof.
  change (onLogs (log :: rest)) with (abind (processLog log) (fun _ => onLogs rest)).
  now rewrite run_bind.
Qed.

(** An entry whose body ends at a [continue] without doing anything is, for
    the rest of the batch, as if it had not been delivered. *)
Lemma run_onLogs_skip env n w log rest :
  run env n w (processLog log) =
    {| result := Ok tt; world := w; calls := []; asked := n |} ->
  run env n w (onLogs (log :: rest)) = run env n w (onLogs rest).
Proof.
  intros H. rewrite run_onLogs_cons, H. cbn. apply after_calls_nil.
Qed.

Lemma processLog_seen env n w log :
  JSSet.has (log_id log) (processedLogIds w) = true ->
  run env n w (processLog log) =
    {| result := Ok tt; world := w; calls := []; asked := n |}.
Proof.
  intros H. unfold processLog. unmonad. cbn [abind getWorld run].
  now rewrite H.
Qed.

(** C2: a delivered entry whose key [txHash:logIndex] is already in
    [processedLogIds] is skipped: the loop body returns at once, starts no
    remote operation (so no dispatch), and leaves the whole world as it was:
    no global changes and nothing is written to the log file, the dispenser
    log or the console.  The rest of the batch runs as if the entry had not
    been delivered. *)
Theorem processed_key_is_skipped env n w log rest :
  JSSet.has (log_id log) (processedLogIds w) = true ->
  run env n w (processLog log) =
    {| result := Ok tt; world := w; calls := []; asked := n |}
  /\ run env n w (onLogs (log :: rest)) = run env n w (onLogs rest).
Proof.
  intros H. pose proof (processLog_seen env n w log H) as Hbody.
  split; [exact Hbody | now apply run_onLogs_skip].
Qed.

(** X25: an entry whose amount decoded, and whose token is not, up to the
    case of its letters, the tracked token, or whose upvote count is not
    [REQUIRED_UPVOTES], is dropped: no remote operation is started, the key
    is not added to [processedLogIds], and nothing is written to any log;
    the world is unchanged, and the batch goes on as without the entry. *)
Theorem mismatch_is_dropped env n w log amount rest :
  args_numUpvotes log = Some amount ->
  ~ case_insensitive_eq (token_of log) NORMALIZED_TRACKED_TOKEN_ADDRESS
  \/ amount <> REQUIRED_UPVOTES ->
  run env n w (processLog log) =
    {| result := Ok tt; world := w; calls := []; asked := n |}
  /\ run env n w (onLogs (log :: rest)) = run env n w (onLogs rest).
Proof.
  intros Ha H.
  assert (Hbody : run env n w (processLog log) =
            {| result := Ok tt; world := w; calls := []; asked := n |}).
  { unfold processLog. unmonad. cbn [abind getWorld run].
    destruct (JSSet.has (log_id log) (processedLogIds w)); [reflexivity|].
    rewrite Ha. cbn [BigInt_of_value ret Monad_Async abind run].
    destruct (String.eqb_spec (log_token log)
                (toLowerCase NORMALIZED_TRACKED_TOKEN_ADDRESS)) as [Ht|Ht];
      cbn [negb]; [|reflexivity].
    destruct (Z.eqb_spec amount REQUIRED_UPVOTES) as [Hn|Hn];
      cbn [negb]; [|reflexivity].
    exfalso. destruct H as [H|H]; [|contradiction].
    apply H, toLowerCase_eq_iff. exact Ht. }
  split; [exact Hbody | now apply run_onLogs_skip].
Qed.

(** The body of the loop on a new entry whose amount did not decode:
    [BigInt(undefined)] throws before both filters, with the world as it
    was. *)
Lemma processLog_undecoded env n w log :
  JSSet.has (log_id log) (processedLogIds w) = false ->
  args_numUpvotes log = None ->
  run env n w (processLog log) =
    {| result := Err TypeError_undefined; world := w; calls := [];
       asked := n |}.
Proof.
  intros Hnew Ha. unfold processLog. unmonad. cbn [abind getWorld run].
  rewrite Hnew, Ha. reflexivity.
Qed.

(** C3, where the code departs from it: a delivered entry, not handled
    before, whose amount did not decode is not dropped.
    [BigInt(log.args.numUpvotes)] throws before either filter is tested,
    whatever the token is: the callback ends with the [TypeError], the
    world as it was and nothing started, and the entries after it in the
    batch are not handled. *)
Theorem undecoded_entry_is_not_dropped env n w log rest :
  JSSet.has (log_id log) (processedLogIds w) = false ->
  args_numUpvotes log = None ->
  run env n w (processLog log) =
    {| result := Err TypeError_undefined; world := w; calls := [];
       asked := n |}
  /\ run env n w (onLogs (log :: rest)) =
     {| result := Err TypeError_undefined; world := w; calls := [];
        asked := n |}.
Proof.
  intros Hnew Ha. pose proof (processLog_undecoded env n w log Hnew Ha) as H.
  split; [exact H|]. rewrite run_onLogs_cons. cbv zeta. now rewrite H.
Qed.

(** ** getConfig *)

Lemma getConfig_hit env n w d :
  cache_hit (env_now env n) (configCache w) = Some d ->
  run env n w getConfig =
    {| result := Ok d; world := w; calls := []; asked := S n |}.
Proof.
  intros H. unfold getConfig. unmonad. cbn [abind Date_now getWorld run].
  now rewrite H.
Qed.

Lemma getConfig_refresh env n w u q :
  cache_hit (env_now env n) (configCache w) = None ->
  env_settle env (S n) _ read_settings = Ok (u, q) ->
  let config :=
    {| upvotesRequired := toString u; queuedNFTCount := List.length q;
       queuedNFTs := map toString q; lastUpdated := env_now env n |} in
  run env n w getConfig =
    {| result := Ok config;
       world :=
         set_configCache (Some {| timestamp := env_now env n; data := config |})
           (set_dispenserLogFile
              (dispenserLogFile w ++
               [{| action := "config_updated";
                   action_data :=
                     [("upvotesRequired", JStr (toString u));
                      ("queuedNFTCount", JNum (Z.of_nat (List.length q)));
                      ("queuedNFTs", JArr (map toString q))] |}])
              (set_logFile
                 (logFile w ++
                  [{| type := "config_updated"; level := info;
                      fields :=
                        [("upvotesRequired", JStr (toString u));
                         ("queuedNFTCount", JNum (Z.of_nat (List.length q)));
                         ("queuedNFTs", JArr (map toString q));
                         ("lastUpdated", JNum (env_now env n))] |}]) w));
       calls := [{| call_op := existT _ _ read_settings; call_world := w |}];
       asked := S (S n) |}.
Proof.
  intros Hc Hs. unfold getConfig. unmonad. cbn [abind Date_now getWorld run].
  rewrite Hc. cbn. now rewrite Hs.
Qed.

Lemma getConfig_fail env n w e :
  cache_hit (env_now env n) (configCache w) = None ->
  env_settle env (S n) _ read_settings = Err e ->
  let logged :=
    set_logFile
      (logFile w ++
       [{| type := "config_fetch_error"; level := error;
           fields :=
             [("error", JStr (message e)); ("stack", JStr (stack e));
              ("dispenserAddress", JStr NORMALIZED_DISPENSER_ADDRESS)] |}])
      (set_console
         (console w ++
          [console_error
             ("[CONFIG_ERROR] Failed to fetch dispenser config: " ^^ message e)])
         w) in
  run env n w getConfig =
    {| result :=
         Ok (match configCache w with
             | Some c => data c
             | None => default_config
             end);
       world :=
         match configCache w with
         | Some _ =>
             set_console
               (console logged ++ [console_log "Using cached config data"])
               logged
         | None => logged
         end;
       calls := [{| call_op := existT _ _ read_settings; call_world := w |}];
       asked := S (S n) |}.
Proof.
  intros Hc Hs. unfold getConfig. unmonad. cbn [abind Date_now getWorld run].
  rewrite Hc. cbn. rewrite Hs. cbn. now destruct (configCache w).
Qed.

Lemma getConfig_cases env n w :
  let o := run env n w getConfig in
  (exists c, result o = Ok c)
  /\ same_bookkeeping w (world o)
  /\ (calls o = [] \/
      calls o = [{| call_op := existT _ _ read_settings; call_world := w |}]).
Proof.
  destruct (cache_hit (env_now env n) (configCache w)) as [d|] eqn:Hc.
  - rewrite (getConfig_hit _ _ _ _ Hc). cbn. repeat split; eauto.
  - destruct (env_settle env (S n) _ read_settings) as [[u q]|e] eqn:Hs.
    + rewrite (getConfig_refresh _ _ _ _ _ Hc Hs). cbn. repeat split; eauto.
    + rewrite (getConfig_fail _ _ _ _ Hc Hs). cbn.
      destruct (configCache w); cbn; repeat split; eauto.
Qed.

(** C8: when the read of the dispenser's settings fails, [getConfig] does
    not throw.  It returns the cached snapshot unchanged when there is one,
    and otherwise the hardcoded default (threshold ["200"], no queued token,
    count 0); either way the error is written to the log file as
    [config_fetch_error] with its message, and the cache is left as it was. *)
Theorem getConfig_survives_read_failure env n w e :
  cache_hit (env_now env n) (configCache w) = None ->
  env_settle env (S n) _ read_settings = Err e ->
  let o := run env n w getConfig in
  result o =
    Ok (match configCache w with
        | Some c => data c
        | None =>
            {| upvotesRequired := "200"; queuedNFTCount := 0;
               queuedNFTs := []; lastUpdated := 0 |}
        end)
  /\ logFile (world o) =
       logFile w ++
       [{| type := "config_fetch_error"; level := error;
           fields :=
             [("error", JStr (message e)); ("stack", JStr (stack e));
              ("dispenserAddress", JStr NORMALIZED_DISPENSER_ADDRESS)] |}]
  /\ configCache (world o) = configCache w
  /\ forallb (fun c => negb (is_dispatch_op c)) (calls o) = true.
Proof.
  intros Hc Hs. cbv zeta. rewrite (getConfig_fail _ _ _ _ Hc Hs).
  cbn [result world calls].
  destruct (configCache w) as [c|] eqn:Ecache; cbn; repeat split; assumption.
Qed.

(** ** addUpvotesToDispenser *)

Lemma addUpvotes_cases env n w user amount :
  let o := run env n w (addUpvotesToDispenser user amount) in
  match dispatch_settles env n user amount with
  | Ok hash =>
      result o = Ok (Some hash)
      /\ world o =
         set_console
           (console w ++
            [console_log
               ("[DISPENSER] Called addUpvotes for " ^^ user ^^ " with "
                ^^ toString amount ^^ " votes. Hash: " ^^ hash)])
           (set_logFile
              (logFile w ++
               [{| type := "dispenser_call"; level := info;
                   fields := [("hash", JStr hash); ("user", JStr user);
                              ("amount", JStr (toString amount))] |}]) w)
  | Err e =>
      result o = Ok None
      /\ world o =
         set_logFile
           (logFile w ++
            [{| type := "dispenser_call_error"; level := error;
                fields :=
                  [("error", JStr (message e)); ("stack", JStr (stack e));
                   ("user", JStr user); ("amount", JStr (toString amount));
                   ("dispenserAddress", JStr NORMALIZED_DISPENSER_ADDRESS)] |}])
           (set_console
              (console w ++
               [console_error
                  ("[DISPENSER_ERROR] Failed to call addUpvotes: " ^^ message e)])
              w)
  end
  /\ (exists rest,
        calls o = {| call_op := existT _ _ getGasPrice; call_world := w |} :: rest
        /\ forallb (fun c => negb (is_getGasPrice c)) rest = true
        /\ Forall (fun c => call_world c = w) rest).
Proof.
  unfold dispatch_settles, addUpvotesToDispenser. unmonad. cbn.
  destruct (env_settle env n Z getGasPrice) as [g|e]; cbn.
  2: { split; [split; reflexivity|]. eexists; repeat split; constructor. }
  destruct (env_settle env (S n) Request _) as [rq|e]; cbn.
  2: { split; [split; reflexivity|].
       eexists; repeat split; repeat constructor. }
  destruct (env_settle env (S (S n)) string (writeContract rq)) as [h|e]; cbn.
  - split; [split; reflexivity|]. eexists; repeat split; repeat constructor.
  - split; [split; reflexivity|]. eexists; repeat split; repeat constructor.
Qed.

(** C9: [addUpvotesToDispenser] never raises to its caller.  When the gas
    price, the simulation and the submission all succeed it returns the
    transaction hash of the submitted call; when any of the three is
    rejected the error is caught, written to the console and to the log file
    ([dispenser_call_error], with the error's message), and the function
    returns [null]. *)
Theorem addUpvotesToDispenser_never_raises env n w user amount :
  let o := run env n w (addUpvotesToDispenser user amount) in
  (exists r, result o = Ok r)
  /\ (forall hash, dispatch_settles env n user amount = Ok hash ->
        result o = Ok (Some hash))
  /\ (forall e, dispatch_settles env n user amount = Err e ->
        result o = Ok None
        /\ console (world o) =
             console w ++
             [console_error
                ("[DISPENSER_ERROR] Failed to call addUpvotes: " ^^ message e)]
        /\ logFile (world o) =
             logFile w ++
             [{| type := "dispenser_call_error"; level := error;
                 fields :=
                   [("error", JStr (message e)); ("stack", JStr (stack e));
                    ("user", JStr user); ("amount", JStr (toString amount));
                    ("dispenserAddress",
                     JStr NORMALIZED_DISPENSER_ADDRESS)] |}]).
Proof.
  cbv zeta. pose proof (addUpvotes_cases env n w user amount) as H.
  cbv zeta in H.
  destruct (dispatch_settles env n user amount) as [h|e];
    destruct H as [[Hr Hw] _].
  - repeat split; [eauto | intros ? [= <-]; assumption | discriminate..].
  - split; [eauto|]. split; [discriminate|].
    intros e' [= <-]. rewrite Hw. cbn. repeat split. assumption.
Qed.

(** ** The event handler: matched entries *)

#[local] Arguments getConfig : simpl never.
#[local] Arguments addUpvotesToDispenser : simpl never.
#[local] Arguments check_inventory_and_award : simpl never.

Lemma matched_tests log :
  matched log ->
  (log_token log =? toLowerCase NORMALIZED_TRACKED_TOKEN_ADDRESS)%string = true
  /\ args_numUpvotes log = Some REQUIRED_UPVOTES.
Proof.
  intros [Ht Hn]. split.
  - apply String.eqb_eq, toLowerCase_eq_iff, Ht.
  - exact Hn.
Qed.

(** The body of the loop on a matched, new entry, up to the inventory
    check: it marks the key, writes [upvote_event_seen] and goes on in the
    world [marked log w]. *)
Lemma processLog_matched env n w log :
  JSSet.has (log_id log) (processedLogIds w) = false ->
  matched log ->
  run env n w (processLog log) =
  run env n (marked log w) (check_inventory_and_award log).
Proof.
  intros Hnew Hm. destruct (matched_tests log Hm) as [Ht Hn].
  unfold processLog, marked. unmonad. cbn [abind getWorld run].
  rewrite Hnew, Hn. cbn [BigInt_of_value ret Monad_Async abind run].
  rewrite Ht, Z.eqb_refl. reflexivity.
Qed.

Lemma getConfig_no_dispatch env n w :
  forallb (fun c => negb (is_dispatch_op c)) (calls (run env n w getConfig)) = true.
Proof.
  destruct (getConfig_cases env n w) as (_ & _ & [-> | ->]); reflexivity.
Qed.

(** C4: on a matched entry, when the inventory count [getConfig] returns is
    zero, the handler writes the depleted outcome ([dispenser_depleted] at
    level [warn] with the user and the source transaction, and
    [inventory_depleted] in the dispenser log) and starts no operation of
    the dispatch.  Of the globals only [processedLogIds] differs from before
    the entry, by the entry's key; [lastProcessedBlock] and the rest are
    as they were, and the cache is as [getConfig] left it. *)
Theorem depleted_inventory_is_logged_not_dispatched env n w log c :
  JSSet.has (log_id log) (processedLogIds w) = false ->
  matched log ->
  let oc := run env n (marked log w) getConfig in
  result oc = Ok c ->
  queuedNFTCount c = 0%nat ->
  let o := run env n w (processLog log) in
  result o = Ok tt
  /\ calls o = calls oc
  /\ forallb (fun c => negb (is_dispatch_op c)) (calls o) = true
  /\ logFile (world o) =
       logFile (world oc) ++
       [{| type := "dispenser_depleted"; level := warn;
           fields :=
             [("user", JStr (args_user log));
              ("txHash", JStr (transactionHash log))]
             ++ opt_field "blockNumber"
                  (option_map toString (blockNumber log)) |}]
  /\ dispenserLogFile (world o) =
       dispenserLogFile (world oc) ++
       [{| action := "inventory_depleted";
           action_data :=
             [("user", JStr (args_user log));
              ("sourceTx", JStr (transactionHash log));
              ("sourceBasescan", JStr (basescan_tx (transactionHash log)));
              ("note", JStr ("User upvoted " ^^ toString REQUIRED_UPVOTES
                             ^^ " times but no NFTs available"))] |}]
  /\ processedLogIds (world o) = JSSet.add (log_id log) (processedLogIds w)
  /\ lastProcessedBlock (world o) = lastProcessedBlock w
  /\ lastProcessed (world o) = lastProcessed w
  /\ heartbeatCount (world o) = heartbeatCount w
  /\ net_state_json (world o) = net_state_json w
  /\ configCache (world o) = configCache (world oc).
Proof.
  intros Hnew Hm oc Hc Hzero o.
  destruct (getConfig_cases env n (marked log w)) as (_ & Hframe & _).
  fold oc in Hframe. destruct Hframe as [F1 F2 F3 F4 F5].
  pose proof (getConfig_no_dispatch env n (marked log w)) as Hnd. fold oc in Hnd.
  subst o. rewrite (processLog_matched _ _ _ _ Hnew Hm).
  unfold check_inventory_and_award. unmonad. rewrite run_bind, run_await_call.
  fold oc. cbv zeta. rewrite Hc, Hzero. cbn.
  rewrite app_nil_r.
  repeat split; assumption.
Qed.

Lemma addUpvotes_frame env n w user amount :
  let o := run env n w (addUpvotesToDispenser user amount) in
  (exists r, result o = Ok r)
  /\ same_bookkeeping w (world o)
  /\ configCache (world o) = configCache w
  /\ dispenserLogFile (world o) = dispenserLogFile w.
Proof.
  cbv zeta. pose proof (addUpvotes_cases env n w user amount) as H.
  cbv zeta in H.
  destruct (dispatch_settles env n user amount);
    destruct H as [[Hr ->] _]; cbn; split; eauto; repeat split.
Qed.

Lemma count_getGasPrice_addUpvotes env n w user amount :
  List.length
    (filter is_getGasPrice (calls (run env n w (addUpvotesToDispenser user amount))))
  = 1%nat.
Proof.
  destruct (addUpvotes_cases env n w user amount) as (_ & rest & -> & Hrest & _).
  cbn. f_equal. induction rest as [|c rest IH]; [reflexivity|].
  cbn in Hrest |- *. apply andb_prop in Hrest as [Hc Hrest].
  destruct (is_getGasPrice c); [discriminate | auto].
Qed.

Lemma count_getGasPrice_getConfig env n w :
  filter is_getGasPrice (calls (run env n w getConfig)) = [].
Proof.
  destruct (getConfig_cases env n w) as (_ & _ & [-> | ->]); reflexivity.
Qed.

(** C5: on a matched entry with inventory, when [addUpvotesToDispenser]
    returns no transaction identifier, the handler writes [award_failed]
    (level [warn]) with the user, the amount and the source transaction, and
    the same in the dispenser log; the key stays in [processedLogIds]; and
    the dispatch has been called once, not again. *)
Theorem failed_dispatch_is_logged_not_retried env n w log c r :
  JSSet.has (log_id log) (processedLogIds w) = false ->
  matched log ->
  let oc := run env n (marked log w) getConfig in
  result oc = Ok c ->
  queuedNFTCount c <> 0%nat ->
  let od := run env (asked oc) (world oc)
              (addUpvotesToDispenser (args_user log) REQUIRED_UPVOTES) in
  result od = Ok r ->
  truthy_hash r = None ->
  let o := run env n w (processLog log) in
  result o = Ok tt
  /\ logFile (world o) =
       logFile (world od) ++
       [{| type := "award_failed"; level := warn;
           fields :=
             [("user", JStr (args_user log));
              ("amount", JStr (toString REQUIRED_UPVOTES));
              ("sourceTx", JStr (transactionHash log))] |}]
  /\ dispenserLogFile (world o) =
       dispenserLogFile (world oc) ++
       [{| action := "award_failed";
           action_data :=
             [("user", JStr (args_user log));
              ("amount", JStr (toString REQUIRED_UPVOTES));
              ("sourceTx", JStr (transactionHash log));
              ("sourceBasescan", JStr (basescan_tx (transactionHash log)));
              ("error", JStr "Transaction failed")] |}]
  /\ JSSet.has (log_id log) (processedLogIds (world o)) = true
  /\ List.length (filter is_getGasPrice (calls o)) = 1%nat.
Proof.
  intros Hnew Hm oc Hc Hstock od Hr Hfail o.
  destruct (getConfig_cases env n (marked log w)) as (_ & Hframe & _).
  fold oc in Hframe. destruct Hframe as [F1 _ _ _ _].
  destruct (addUpvotes_frame env (asked oc) (world oc) (args_user log)
              REQUIRED_UPVOTES) as (_ & [G1 _ _ _ _] & _ & G6).
  fold od in G1, G6.
  pose proof (count_getGasPrice_addUpvotes env (asked oc) (world oc)
                (args_user log) REQUIRED_UPVOTES) as Hone. fold od in Hone.
  pose proof (count_getGasPrice_getConfig env n (marked log w)) as Hnone.
  fold oc in Hnone.
  subst o. rewrite (processLog_matched _ _ _ _ Hnew Hm).
  unfold check_inventory_and_award. unmonad. rewrite run_bind, run_await_call.
  fold oc. cbv zeta. rewrite Hc.
  destruct (Nat.eqb_spec (queuedNFTCount c) 0) as [|_]; [contradiction|].
  rewrite !run_bind, run_await_call. fold od. cbv zeta. rewrite Hr, Hfail.
  cbn -[advances_block].
  destruct (advances_block _ _); cbn;
    rewrite ?app_nil_r, filter_app, Hnone, ?G1, ?F1, ?G6; cbn;
    repeat split; try assumption; apply has_add_same.
Qed.

(** A summary of the second half of the loop body: it never throws; it
    calls [getConfig], then, with inventory, [addUpvotesToDispenser] once;
    it leaves [processedLogIds] alone; and it moves [lastProcessedBlock]
    only after a dispatch. *)
Lemma check_inventory_summary env n w log :
  let o := run env n w (check_inventory_and_award log) in
  let oc := run env n w getConfig in
  let od := run env (asked oc) (world oc)
              (addUpvotesToDispenser (args_user log) REQUIRED_UPVOTES) in
  exists c,
    result oc = Ok c
    /\ result o = Ok tt
    /\ processedLogIds (world o) = processedLogIds w
    /\ lastProcessed (world o) = lastProcessed w
    /\ heartbeatCount (world o) = heartbeatCount w
    /\ net_state_json (world o) = net_state_json w
    /\ if (queuedNFTCount c =? 0)%nat
       then calls o = calls oc
            /\ lastProcessedBlock (world o) = lastProcessedBlock w
       else calls o = calls oc ++ calls od
            /\ lastProcessedBlock (world o) =
                 match advances_block (blockNumber log) (lastProcessedBlock w) with
                 | Some b => b
                 | None => lastProcessedBlock w
                 end.
Proof.
  intros o oc od.
  destruct (getConfig_cases env n w) as ([c Hc] & Hframe & _).
  fold oc in Hc, Hframe. destruct Hframe as [F1 F2 F3 F4 F5].
  destruct (addUpvotes_frame env (asked oc) (world oc) (args_user log)
              REQUIRED_UPVOTES) as ([r Hr] & [G1 G2 G3 G4 G5] & _ & _).
  fold od in Hr, G1, G2, G3, G4, G5.
  exists c. split; [exact Hc|].
  subst o. unfold check_inventory_and_award. unmonad.
  rewrite run_bind, run_await_call.
  fold oc. cbv zeta. rewrite Hc.
  destruct (Nat.eqb_spec (queuedNFTCount c) 0) as [Hz|Hz].
  - cbn. rewrite app_nil_r. repeat split; assumption.
  - rewrite !run_bind, run_await_call. fold od. cbv zeta. rewrite Hr.
    destruct (truthy_hash r); cbn -[advances_block];
      rewrite G2, F2;
      destruct (advances_block (blockNumber log) (lastProcessedBlock w));
      cbn; rewrite ?app_nil_r; repeat split; congruence.
Qed.

Lemma addUpvotes_calls_world env n w user amount :
  Forall (fun c => call_world c = w)
         (calls (run env n w (addUpvotesToDispenser user amount))).
Proof.
  destruct (addUpvotes_cases env n w user amount) as (_ & rest & -> & _ & H).
  constructor; [reflexivity | exact H].
Qed.

Lemma getConfig_calls_world env n w :
  Forall (fun c => call_world c = w) (calls (run env n w getConfig)).
Proof.
  destruct (getConfig_cases env n w) as (_ & _ & [-> | ->]);
    repeat constructor.
Qed.

(** Every remote operation the second half starts, starts in a world whose
    [processedLogIds] is the one it was entered with. *)
Lemma check_inventory_calls_world env n w log :
  Forall (fun c => processedLogIds (call_world c) = processedLogIds w)
         (calls (run env n w (check_inventory_and_award log))).
Proof.
  destruct (check_inventory_summary env n w log)
    as (c & Hc & _ & _ & _ & _ & _ & Hcalls).
  destruct (getConfig_cases env n w) as (_ & [F1 _ _ _ _] & _).
  pose proof (getConfig_calls_world env n w) as H1.
  pose proof (addUpvotes_calls_world env (asked (run env n w getConfig))
                (world (run env n w getConfig)) (args_user log)
                REQUIRED_UPVOTES) as H2.
  assert (H1' : Forall (fun c => processedLogIds (call_world c) = processedLogIds w)
                  (calls (run env n w getConfig))).
  { eapply Forall_impl; [|exact H1]. cbn. now intros ? ->. }
  destruct (queuedNFTCount c =? 0)%nat; destruct Hcalls as [-> _].
  - exact H1'.
  - apply Forall_app. split; [exact H1'|].
    eapply Forall_impl; [|exact H2]. cbn. intros ? ->. exact F1.
Qed.

(** ** Invocations that interleave *)

Section Interleaving.

Variable deliverable : Log -> Prop.

Lemma wp_weaken {A} (m : Async A) w c (Q Q' : Res A -> World -> Z -> Prop) :
  (forall r w' c', Q r w' c' -> Q' r w' c') ->
  wp deliverable m w c Q -> wp deliverable m w c Q'.
Proof.
  intros HQ. revert w c.
  induction m as [a|e|k IH|w1 k IH|k IH|T op k IH|k IH]; intros w c; simpl.
  - apply HQ.
  - apply HQ.
  - apply IH.
  - intros (g & Hput & H). exists g. split; [exact Hput | now apply IH].
  - intros H t. apply IH, H.
  - intros [Hc H]. split; [exact Hc|]. intros r w'. apply IH, H.
  - intros [Hc H]. split; [exact Hc|]. intros w'. apply IH, H.
Qed.

Lemma wp_bind {A B} (m : Async A) (f : A -> Async B) w c Q :
  wp deliverable m w c
     (fun r w' c' =>
        match r with
        | Ok a => wp deliverable (f a) w' c' Q
        | Err e => Q (Err e) w' c'
        end) ->
  wp deliverable (abind m f) w c Q.
Proof.
  revert w c.
  induction m as [a|e|k IH|w1 k IH|k IH|T op k IH|k IH]; intros w c; simpl.
  - auto.
  - auto.
  - apply IH.
  - intros (g & Hput & H). exists g. split; [exact Hput | now apply IH].
  - intros H t. apply IH, H.
  - intros [Hc H]. split; [exact Hc|]. intros r w'. apply IH, H.
  - intros [Hc H]. split; [exact Hc|]. intros w'. apply IH, H.
Qed.

Lemma wp_try_catch {A} (m : Async A) (h : Error -> Async A) w c Q :
  wp deliverable m w c
     (fun r w' c' =>
        match r with
        | Ok a => Q (Ok a) w' c'
        | Err e => wp deliverable (h e) w' c' Q
        end) ->
  wp deliverable (try_catch m h) w c Q.
Proof.
  revert w c.
  induction m as [a|e|k IH|w1 k IH|k IH|T op k IH|k IH]; intros w c; simpl.
  - auto.
  - auto.
  - apply IH.
  - intros (g & Hput & H). exists g. split; [exact Hput | now apply IH].
  - intros H t. apply IH, H.
  - intros [Hc H]. split; [exact Hc|]. intros r w'. apply IH, H.
  - intros [Hc H]. split; [exact Hc|]. intros w'. apply IH, H.
Qed.

Lemma wp_await_call {A} (m : Async A) w c (Q : Res A -> World -> Z -> Prop) :
  wp deliverable m w c (fun r _ c' => 0 <= c' /\ forall w', Q r w' c') ->
  wp deliverable (await_call m) w c Q.
Proof.
  intros H. unfold await_call. apply wp_try_catch, wp_bind.
  eapply wp_weaken; [|exact H]. intros [a|e] w' c' [Hc HQ]; cbn; auto.
Qed.

(** A write that touches neither [processedLogIds] nor
    [lastProcessedBlock]. *)
Lemma put_ok_same w w' :
  processedLogIds w' = processedLogIds w ->
  lastProcessedBlock w' = lastProcessedBlock w ->
  net_state_json w' = net_state_json w ->
  put_ok deliverable w w' 0.
Proof.
  intros H1 H2 H3. split; [lia|]. split; [left; auto|].
  unfold file_capped. now rewrite H1, H3.
Qed.

Ltac wp_put_same :=
  exists 0; split; [apply put_ok_same; reflexivity | rewrite Z.add_0_r].

Lemma wp_getConfig w c (Q : Res Config -> World -> Z -> Prop) :
  0 <= c ->
  (forall cfg w', Q (Ok cfg) w' c) ->
  wp deliverable getConfig w c Q.
Proof.
  intros Hc HQ. unfold getConfig. unmonad. cbn [abind Date_now getWorld wp].
  intros t. destruct (cache_hit t (configCache w)); cbn.
  - apply HQ.
  - split; [lia|]. intros [[u q]|e] w'; cbn.
    + wp_put_same. wp_put_same. wp_put_same. rewrite Z.sub_0_r. apply HQ.
    + wp_put_same. wp_put_same.
      destruct (configCache _); cbn.
      * wp_put_same. rewrite Z.sub_0_r. apply HQ.
      * rewrite Z.sub_0_r. apply HQ.
Qed.

Lemma wp_getCurrentTip w c (Q : Res Z -> World -> Z -> Prop) :
  0 <= c ->
  (forall tip w', Q (Ok tip) w' c) ->
  wp deliverable getCurrentTip w c Q.
Proof.
  intros Hc HQ. unfold getCurrentTip. unmonad. cbn.
  split; [lia|]. intros [z|e] w'; cbn.
  - rewrite Z.sub_0_r. apply HQ.
  - wp_put_same. wp_put_same. rewrite Z.sub_0_r. apply HQ.
Qed.

(** A call of [addUpvotesToDispenser] costs one credit. *)
Lemma wp_addUpvotes user amount w c (Q : Res (option string) -> World -> Z -> Prop) :
  1 <= c ->
  (forall r w', Q (Ok r) w' (c - 1)) ->
  wp deliverable (addUpvotesToDispenser user amount) w c Q.
Proof.
  intros Hc HQ. unfold addUpvotesToDispenser. unmonad. cbn.
  split; [lia|]. intros [g|e] w1; cbn.
  2: { wp_put_same. wp_put_same. apply HQ. }
  split; [lia|]. intros [rq|e] w2; cbn.
  2: { wp_put_same. wp_put_same. rewrite Z.sub_0_r. apply HQ. }
  split; [lia|]. intros [h|e] w3; cbn.
  - wp_put_same. wp_put_same. rewrite !Z.sub_0_r. apply HQ.
  - wp_put_same. wp_put_same. rewrite !Z.sub_0_r. apply HQ.
Qed.

Lemma advances_block_gt b last b' :
  advances_block b last = Some b' -> last < b'.
Proof.
  unfold advances_block. destruct b as [x|]; [|discriminate].
  destruct (negb (x =? 0)); cbn; [|discriminate].
  destruct (Z.gtb_spec x last); [|discriminate]. intros [= <-]. lia.
Qed.

Lemma wp_check_inventory log w c (Q : Res unit -> World -> Z -> Prop) :
  1 <= c ->
  (forall w' c', c - 1 <= c' -> Q (Ok tt) w' c') ->
  wp deliverable (check_inventory_and_award log) w c Q.
Proof.
  intros Hc HQ. unfold check_inventory_and_award. unmonad.
  apply wp_bind, wp_await_call, wp_getConfig; [lia|]. intros cfg _.
  split; [lia|]. intros w1.
  destruct (queuedNFTCount cfg =? 0)%nat.
  - cbn. wp_put_same. wp_put_same. wp_put_same. apply HQ. lia.
  - apply wp_bind, wp_await_call, wp_addUpvotes; [lia|]. intros r _.
    split; [lia|]. intros w2.
    apply wp_bind.
    assert (Hend : forall w3,
      wp deliverable
        (abind getWorld (fun w =>
           match advances_block (blockNumber log) (lastProcessedBlock w) with
           | Some b => modify (set_lastProcessedBlock b)
           | None => Ret tt
           end)) w3 (c - 1) Q).
    { intros w3. cbn [abind getWorld wp].
      destruct (advances_block (blockNumber log) (lastProcessedBlock w3)) as [b|] eqn:Hb.
      - cbn. exists 0. split.
        + split; [cbn; apply advances_block_gt in Hb; lia|].
          split; [left; auto | auto].
        + rewrite Z.add_0_r. apply HQ. lia.
      - cbn. apply HQ. lia. }
    destruct (truthy_hash r); cbn [abind console_print logInfo logWarning
      logToFile logDispenserAction modify wp];
      wp_put_same; wp_put_same; wp_put_same; apply Hend.
Qed.

Lemma wp_processLog log w c (Q : Res unit -> World -> Z -> Prop) :
  0 <= c ->
  deliverable log ->
  (forall r w' c', c <= c' -> Q r w' c') ->
  wp deliverable (processLog log) w c Q.
Proof.
  intros Hc Hd HQ. unfold processLog. unmonad. cbn [abind getWorld wp].
  destruct (JSSet.has (log_id log) (processedLogIds w)) eqn:Hnew.
  { apply HQ. lia. }
  destruct (args_numUpvotes log) as [numUpvotes|];
    cbn [BigInt_of_value ret raise Monad_Async MonadExc_Async abind wp];
    [|apply HQ; lia].
  destruct (negb _). { apply HQ. lia. }
  destruct (negb _). { apply HQ. lia. }
  cbn [abind modify logInfo logToFile wp].
  assert (Hadd : JSSet.add (log_id log) (processedLogIds w) =
                 processedLogIds w ++ [log_id log]).
  { unfold JSSet.add. now rewrite Hnew. }
  exists 1. split.
  { split; [cbn; lia|]. split.
    - right. split; [reflexivity|]. exists log. repeat split; assumption.
    - unfold file_capped. cbn. rewrite Hadd.
      destruct (net_state_json w) as [state|]; [|trivial].
      destruct (sf_processed state) as [kept|]; [|trivial].
      intros (Hlen & older & newer & ->). split; [exact Hlen|].
      exists older, (newer ++ [log_id log]). now rewrite <- !app_assoc. }
  wp_put_same.
  apply wp_check_inventory; [lia|]. intros w' c' Hc'. apply HQ. lia.
Qed.

Lemma wp_onLogs logs w c (Q : Res unit -> World -> Z -> Prop) :
  0 <= c ->
  Forall deliverable logs ->
  (forall r w' c', c <= c' -> Q r w' c') ->
  wp deliverable (onLogs logs) w c Q.
Proof.
  intros Hc Hd. revert w c Hc Q.
  induction Hd as [|log rest Hlog Hrest IH]; intros w c Hc Q HQ.
  - cbn. apply HQ. lia.
  - change (onLogs (log :: rest))
      with (abind (processLog log) (fun _ => onLogs rest)).
    apply wp_bind, wp_processLog; [lia | assumption |].
    intros [[]|e] w' c' Hc'; [|now apply HQ].
    apply IH; [lia|]. intros r w'' c'' Hc''. apply HQ. lia.
Qed.

Lemma wp_tick w c (Q : Res unit -> World -> Z -> Prop) :
  0 <= c ->
  (forall w', Q (Ok tt) w' c) ->
  wp deliverable tick w c Q.
Proof.
  intros Hc HQ. unfold tick. unmonad.
  apply wp_try_catch, wp_bind, wp_await_call, wp_getConfig; [lia|].
  intros cfg _. split; [lia|]. intros w1.
  apply wp_bind, wp_await_call, wp_getCurrentTip; [lia|].
  intros tip _. split; [lia|]. intros w2.
  cbn [abind getWorld modify wp].
  exists 0. split.
  { split; [cbn; lia|]. split; [left; auto|]. intros _.
    unfold file_capped. cbn. rewrite trimmed_length. split; [lia|].
    destruct (trimmed_suffix (processedLogIds w2)) as [older Holder].
    exists older, []. now rewrite app_nil_r. }
  rewrite Z.add_0_r. wp_put_same.
  cbn [heartbeatCount set_heartbeatCount].
  assert (Hend : forall w3,
    wp deliverable
      (abind getWorld (fun w =>
         match configCache w with
         | Some cache =>
             let '(Build_Config cached _ _ _) := data cache in
             if negb (cached =? upvotesRequired cfg)%string
             then
               abind (console_print (console_log
                 ("[CONFIG] Upvotes required changed to: " ^^ upvotesRequired cfg)))
                 (fun _ =>
                    logDispenserAction "threshold_changed"
                      [("oldValue", JStr cached);
                       ("newValue", JStr (upvotesRequired cfg))])
             else Ret tt
         | None => Ret tt
         end)) w3 c
      (fun r w' c' =>
         match r with
         | Ok a => Q (Ok a) w' c'
         | Err e =>
             wp deliverable
               (abind (console_print (console_error
                  ("[TICK_ERROR] Failed to update bot state: " ^^ message e)))
                  (fun _ => abind getWorld (fun w =>
                     logError "tick_error" e
                       [("heartbeatCount", JStr (toString (heartbeatCount w)));
                        ("lastProcessedBlock",
                         JStr (toString (lastProcessedBlock w)))])))
               w' c' Q
         end)).
  { intros w3. cbn [abind getWorld wp].
    destruct (configCache w3) as [[ts [cached ? ? ?]]|]; cbn; [|apply HQ].
    destruct (negb _); cbn; [|apply HQ].
    wp_put_same. wp_put_same. apply HQ. }
  destruct (Z.rem _ _ =? 0); cbn [abind console_print modify wp].
  - wp_put_same. apply Hend.
  - apply Hend.
Qed.

Lemma extends_by_trans w1 w2 w3 g1 g2 :
  extends_by deliverable w1 w2 g1 -> extends_by deliverable w2 w3 g2 ->
  extends_by deliverable w1 w3 (g1 + g2).
Proof.
  intros H1 H2. induction H2 as [w|w w' w'' g g' _ IH Hput].
  - now rewrite Z.add_0_r.
  - rewrite Z.add_assoc. eapply ext_put; [apply IH, H1 | exact Hput].
Qed.

Lemma extends_by_put w w' g :
  put_ok deliverable w w' g -> extends_by deliverable w w' g.
Proof.
  intros H. change g with (0 + g). eapply ext_put; [apply ext_refl | exact H].
Qed.

(** What [wp] promises of a program is true of one uninterrupted stretch
    of it. *)
Lemma advance_sound {A} (m : Async A) clock n w c Q :
  wp deliverable m w c Q ->
  match advance clock n w m with
  | Finished r w' =>
      exists g, extends_by deliverable w w' g /\ Q r w' (c + g)
  | Suspended w' op k =>
      exists g,
        extends_by deliverable w w' g
        /\ 0 <= c + g - (if starts_dispatch op then 1 else 0)
        /\ forall r w'',
             wp deliverable (k r) w''
                (c + g - (if starts_dispatch op then 1 else 0)) Q
  | Yielded w' k =>
      exists g,
        extends_by deliverable w w' g
        /\ 0 <= c + g
        /\ forall w'', wp deliverable k w'' (c + g) Q
  end.
Proof.
  revert n w c.
  induction m as [a|e|k IH|w1 k IH|k IH|T op k IH|k IH]; intros n w c; simpl.
  - intros H. exists 0. rewrite Z.add_0_r. split; [constructor | exact H].
  - intros H. exists 0. rewrite Z.add_0_r. split; [constructor | exact H].
  - apply IH.
  - intros (g0 & Hput & H). specialize (IH n w1 (c + g0) H).
    destruct (advance clock n w1 k) as [r w'|w' T op k'|w' k'].
    + destruct IH as (g & Hext & HQ). exists (g0 + g). split.
      * eapply extends_by_trans; [apply extends_by_put, Hput | exact Hext].
      * now rewrite Z.add_assoc.
    + destruct IH as (g & Hext & Hc & Hk). exists (g0 + g).
      rewrite Z.add_assoc. repeat split; try assumption.
      eapply extends_by_trans; [apply extends_by_put, Hput | exact Hext].
    + destruct IH as (g & Hext & Hc & Hk). exists (g0 + g).
      rewrite Z.add_assoc. repeat split; try assumption.
      eapply extends_by_trans; [apply extends_by_put, Hput | exact Hext].
  - intros H. apply IH, H.
  - intros [Hc H]. exists 0. rewrite Z.add_0_r.
    repeat split; [constructor | exact Hc | exact H].
  - intros [Hc H]. exists 0. rewrite Z.add_0_r.
    repeat split; [constructor | exact Hc | exact H].
Qed.

Lemma sumZ_app l1 l2 : sumZ (l1 ++ l2) = sumZ l1 + sumZ l2.
Proof.
  unfold sumZ. induction l1 as [|x l1 IH]; cbn; [reflexivity | rewrite IH; lia].
Qed.

Lemma sumZ_nonneg ps cs :
  Forall2 (pending_ok deliverable) ps cs -> 0 <= sumZ cs.
Proof.
  induction 1 as [|p c ps cs [Hc _] _ IH]; unfold sumZ in *; cbn; lia.
Qed.

Lemma dispatches_app l1 l2 :
  dispatches (l1 ++ l2) = dispatches l1 + dispatches l2.
Proof. unfold dispatches. rewrite filter_app, length_app. lia. Qed.

(** Running a callback that is in order keeps the loop in order. *)
Lemma enter_inv w0 L clock m others credits gained c :
  extends_by deliverable w0 (globals L) gained ->
  Forall2 (pending_ok deliverable) others credits ->
  wp deliverable m (globals L) c (fun _ _ c' => 0 <= c') ->
  dispatches (started L) + sumZ credits + c <= gained ->
  loop_inv deliverable w0 (enter clock m L others).
Proof.
  intros Hext Hothers Hwp Hsum.
  pose proof (advance_sound m clock 0 (globals L) c _ Hwp) as H.
  unfold enter, set_aside.
  destruct (advance clock 0 (globals L) m) as [r w'|w' T op k|w' k].
  - destruct H as (g & Hg & Hc).
    exists (gained + g), credits. cbn. repeat split.
    + eapply extends_by_trans; eassumption.
    + assumption.
    + lia.
  - destruct H as (g & Hg & Hc & Hk).
    exists (gained + g),
      (credits ++ [c + g - (if starts_dispatch op then 1 else 0)]).
    cbn. repeat split.
    + eapply extends_by_trans; eassumption.
    + apply Forall2_app; [assumption|]. constructor; [|constructor].
      split; [exact Hc | exact Hk].
    + rewrite dispatches_app, sumZ_app. unfold dispatches at 2. cbn.
      unfold is_getGasPrice. cbn. destruct (starts_dispatch op); cbn; lia.
  - destruct H as (g & Hg & Hc & Hk).
    exists (gained + g), (credits ++ [c + g]).
    cbn. repeat split.
    + eapply extends_by_trans; eassumption.
    + apply Forall2_app; [assumption|]. constructor; [|constructor].
      split; [exact Hc | exact Hk].
    + rewrite sumZ_app. cbn. lia.
Qed.

Lemma loop_step_inv w0 L L' :
  loop_inv deliverable w0 L -> loop_step deliverable L L' ->
  loop_inv deliverable w0 L'.
Proof.
  intros (gained & credits & Hext & Hpend & Hsum) Hstep.
  destruct Hstep as [L clock logs Hlogs|L clock
                    |L clock before B op k after r Hsplit
                    |L clock before k after Hsplit].
  - eapply enter_inv with (c := 0); try eassumption; [|lia].
    apply wp_onLogs; [lia | assumption | auto].
  - eapply enter_inv with (c := 0); try eassumption; [|lia].
    apply wp_tick; [lia | intros; lia].
  - rewrite Hsplit in Hpend.
    apply Forall2_app_inv_l in Hpend as (cb & cs & Hb & Hrest & ->).
    inversion Hrest as [|p' c ps ca [Hc Hp] Ha]; subst.
    rewrite sumZ_app in Hsum.
    change (sumZ (c :: ca)) with (c + sumZ ca) in Hsum.
    eapply enter_inv with (c := c) (credits := cb ++ ca).
    + eassumption.
    + now apply Forall2_app.
    + apply Hp.
    + rewrite sumZ_app. lia.
  - rewrite Hsplit in Hpend.
    apply Forall2_app_inv_l in Hpend as (cb & cs & Hb & Hrest & ->).
    inversion Hrest as [|p' c ps ca [Hc Hp] Ha]; subst.
    rewrite sumZ_app in Hsum.
    change (sumZ (c :: ca)) with (c + sumZ ca) in Hsum.
    eapply enter_inv with (c := c) (credits := cb ++ ca).
    + eassumption.
    + now apply Forall2_app.
    + apply Hp.
    + rewrite sumZ_app. lia.
Qed.

Lemma reachable_inv w0 L :
  reachable deliverable (boot w0) L -> loop_inv deliverable w0 L.
Proof.
  induction 1 as [|L L' _ IH Hstep].
  - exists 0, []. cbn. repeat split; [constructor | constructor | ].
    unfold dispatches. cbn. lia.
  - eapply loop_step_inv; eassumption.
Qed.

Lemma reachable_trans L0 L1 L2 :
  reachable deliverable L0 L1 -> reachable deliverable L1 L2 ->
  reachable deliverable L0 L2.
Proof.
  intros H1 H2. induction H2 as [|L L' _ IH Hstep]; [exact H1|].
  eapply reach_step; [exact IH | exact Hstep].
Qed.

(** The run of a program with nothing else in flight is one of the
    schedules of the loop: every promise settles as the environment says,
    as soon as it is awaited, and the invocation goes on at once. *)
Lemma run_is_a_schedule (m : Async unit) env base i w before others :
  let o := run env (base + i) w m in
  reachable deliverable
    (set_aside (advance (fun j => env_now env (base + j)) i w m) before others)
    {| globals := world o; pending := others; started := before ++ calls o |}.
Proof.
  revert base i w before.
  induction m as [a|e|k IH|w' k IH|k IH|T op k IH|k IH];
    intros base i w before; cbn [advance run set_aside]; cbv zeta.
  - cbn. rewrite app_nil_r. constructor.
  - cbn. rewrite app_nil_r. constructor.
  - apply IH.
  - apply IH.
  - specialize (IH (env_now env (base + i)) base (S i) w before).
    cbv zeta in IH. now rewrite Nat.add_succ_r in IH.
  - cbn [after_calls world calls].
    specialize (IH (env_settle env (base + i) T op) (S (base + i)) 0%nat w
                  (before ++ [{| call_op := existT _ _ op; call_world := w |}])).
    cbv zeta in IH. rewrite Nat.add_0_r, <- app_assoc in IH.
    eapply reachable_trans; [|exact IH].
    eapply reach_step; [apply reach_start|].
    pose proof (step_settle deliverable
                  {| globals := w; pending := others ++ [Awaiting op k];
                     started := before ++
                       [{| call_op := existT _ _ op; call_world := w |}] |}
                  (fun j => env_now env (S (base + i) + j))
                  others T op k [] (env_settle env (base + i) T op) eq_refl)
      as Hstep.
    unfold enter in Hstep. cbn [globals started] in Hstep.
    now rewrite app_nil_r in Hstep.
  - specialize (IH (base + i)%nat 0%nat w before).
    cbv zeta in IH. rewrite Nat.add_0_r in IH.
    eapply reachable_trans; [|exact IH].
    eapply reach_step; [apply reach_start|].
    pose proof (step_resume deliverable
                  {| globals := w; pending := others ++ [Queued k];
                     started := before |}
                  (fun j => env_now env (base + i + j))
                  others k [] eq_refl) as Hstep.
    unfold enter in Hstep. cbn [globals started] in Hstep.
    now rewrite app_nil_r in Hstep.
Qed.

Lemma run_onLogs_reachable env n w logs :
  Forall deliverable logs ->
  let o := run env n w (onLogs logs) in
  reachable deliverable (boot w)
    {| globals := world o; pending := []; started := calls o |}.
Proof.
  intros Hlogs o.
  eapply reachable_trans.
  - eapply reach_step; [apply reach_start|].
    apply (step_logs deliverable (boot w) (fun j => env_now env (n + j)) logs Hlogs).
  - pose proof (run_is_a_schedule (onLogs logs) env n 0%nat w [] []) as H.
    cbv zeta in H. rewrite Nat.add_0_r in H. exact H.
Qed.

Lemma run_tick_reachable env n w :
  let o := run env n w tick in
  reachable deliverable (boot w)
    {| globals := world o; pending := []; started := calls o |}.
Proof.
  intros o.
  eapply reachable_trans.
  - eapply reach_step; [apply reach_start|].
    apply (step_tick deliverable (boot w) (fun j => env_now env (n + j))).
  - pose proof (run_is_a_schedule tick env n 0%nat w [] []) as H.
    cbv zeta in H. rewrite Nat.add_0_r in H. exact H.
Qed.

(** What a sequence of [put_ok] writes amounts to. *)
Lemma extends_by_spec w0 w g :
  extends_by deliverable w0 w g ->
  lastProcessedBlock w0 <= lastProcessedBlock w
  /\ (file_capped w0 -> file_capped w)
  /\ exists news,
       processedLogIds w = processedLogIds w0 ++ news
       /\ Z.of_nat (List.length news) = g
       /\ NoDup news
       /\ forall id, In id news ->
            ~ In id (processedLogIds w0)
            /\ exists log, deliverable log /\ log_id log = id.
Proof.
  induction 1 as [w0|w0 w w' g g' _ IH (Hblock & Hput & Hfile)].
  - split; [lia|]. split; [auto|]. exists []. rewrite app_nil_r.
    repeat split; [constructor | contradiction | contradiction].
  - destruct IH as (Hb & Hf & news & Hnews & Hlen & Hnd & Hin).
    split; [lia|]. split; [auto|].
    destruct Hput as [[-> Hsame] | (-> & log & Hd & Hnew & Happ)].
    + exists news. rewrite Hsame, Z.add_0_r. auto.
    + exists (news ++ [log_id log]).
      assert (Hfresh : ~ In (log_id log) (processedLogIds w0 ++ news)).
      { rewrite <- Hnews. intros Hi. apply has_true_iff in Hi. congruence. }
      rewrite in_app_iff in Hfresh.
      rewrite Happ, Hnews, <- app_assoc, length_app. cbn.
      split; [reflexivity|]. split; [lia|]. split.
      * apply NoDup_app; [assumption | repeat constructor; intros [] | ].
        intros x Hx [<-|[]]. tauto.
      * intros id Hid.
        apply in_app_iff in Hid as [Hi | [<-|[]]]; [apply Hin, Hi|].
        split; [tauto | eauto].
Qed.

Lemma NoDup_single (id : string) (l : list string) :
  NoDup l -> (forall x, In x l -> x = id) -> (List.length l <= 1)%nat.
Proof.
  intros Hnd Hall. destruct l as [|a [|b l]]; cbn; try lia.
  exfalso. inversion Hnd as [|? ? Hna _]; subst. apply Hna.
  rewrite (Hall a), (Hall b); cbn; auto.
Qed.

(** However deliveries, ticks and settled promises interleave, the bot has
    started no more dispatches than it has appended keys, the keys appended
    are new, distinct and keys of delivered logs, [lastProcessedBlock] has
    not gone down, and the state file is capped if it was. *)
Lemma loop_dispatch_bound w0 L :
  reachable deliverable (boot w0) L ->
  lastProcessedBlock w0 <= lastProcessedBlock (globals L)
  /\ (file_capped w0 -> file_capped (globals L))
  /\ exists news,
       processedLogIds (globals L) = processedLogIds w0 ++ news
       /\ NoDup news
       /\ (forall id, In id news ->
             ~ In id (processedLogIds w0)
             /\ exists log, deliverable log /\ log_id log = id)
       /\ dispatches (started L) <= Z.of_nat (List.length news).
Proof.
  intros Hreach.
  destruct (reachable_inv _ _ Hreach) as (gained & credits & Hext & Hpend & Hsum).
  apply extends_by_spec in Hext as (Hb & Hf & news & Hnews & Hlen & Hnd & Hin).
  pose proof (sumZ_nonneg _ _ Hpend).
  split; [assumption|]. split; [assumption|].
  exists news. repeat split; try assumption; try apply Hin; auto.
  lia.
Qed.

End Interleaving.

(** [processedLogIds] only grows and [lastProcessedBlock] never goes down
    over a batch of logs or a tick run with nothing else in flight, and no
    more dispatches are started than keys are added. *)
Lemma run_onLogs_monotone env n w logs :
  let o := run env n w (onLogs logs) in
  lastProcessedBlock w <= lastProcessedBlock (world o)
  /\ exists news,
       processedLogIds (world o) = processedLogIds w ++ news
       /\ dispatches (calls o) <= Z.of_nat (List.length news).
Proof.
  intros o.
  assert (Hlogs : Forall (fun _ : Log => True) logs) by (apply Forall_forall; auto).
  destruct (loop_dispatch_bound _ _ _
              (run_onLogs_reachable (fun _ => True) env n w logs Hlogs))
    as (Hb & _ & news & Hnews & _ & _ & Hle).
  split; [exact Hb|]. exists news. split; [exact Hnews | exact Hle].
Qed.

Lemma run_tick_monotone env n w :
  let o := run env n w tick in
  lastProcessedBlock w <= lastProcessedBlock (world o)
  /\ exists news, processedLogIds (world o) = processedLogIds w ++ news.
Proof.
  intros o.
  destruct (loop_dispatch_bound _ _ _
              (run_tick_reachable (fun _ => True) env n w))
    as (Hb & _ & news & Hnews & _).
  split; [exact Hb|]. exists news. exact Hnews.
Qed.

(** ** Marking comes before the dispatch *)

Lemma processLog_calls_marked env n w log :
  matched log ->
  let o := run env n w (processLog log) in
  Forall (fun c => JSSet.has (log_id log) (processedLogIds (call_world c)) = true)
         (calls o)
  /\ JSSet.has (log_id log) (processedLogIds (world o)) = true.
Proof.
  intros Hm. cbv zeta.
  destruct (JSSet.has (log_id log) (processedLogIds w)) eqn:Hnew.
  - rewrite (processLog_seen _ _ _ _ Hnew). cbn. split; [constructor | exact Hnew].
  - rewrite (processLog_matched _ _ _ _ Hnew Hm). split.
    + eapply Forall_impl; [|apply check_inventory_calls_world].
      cbn. intros c ->. apply has_add_same.
    + destruct (check_inventory_summary env n (marked log w) log)
        as (c & _ & _ & -> & _).
      cbn. apply has_add_same.
Qed.

(** In any interleaving in which only logs with one key are delivered, at
    most one dispatch is ever started; none if the key was processed
    before. *)
Lemma one_key_one_dispatch (id : string) w0 L :
  reachable (fun l => log_id l = id) (boot w0) L ->
  dispatches (started L) <= 1
  /\ (JSSet.has id (processedLogIds w0) = true -> dispatches (started L) = 0).
Proof.
  intros Hreach.
  destruct (loop_dispatch_bound _ _ _ Hreach)
    as (_ & _ & news & _ & Hnd & Hin & Hle).
  assert (Hall : forall x, In x news -> x = id).
  { intros x Hx. destruct (Hin x Hx) as (_ & l & Hl & Hl'). congruence. }
  pose proof (NoDup_single id news Hnd Hall) as Hlen.
  assert (0 <= dispatches (started L)) by (unfold dispatches; lia).
  split; [lia|].
  intros Hseen. apply has_true_iff in Hseen.
  destruct news as [|x news]; [cbn in Hle; lia|].
  exfalso. destruct (Hin x (or_introl eq_refl)) as (Hnot & _).
  rewrite (Hall x (or_introl eq_refl)) in Hnot. contradiction.
Qed.

(** C1: for an entry that passes both filters, the key [txHash:logIndex] is
    in [processedLogIds] before the dispatch is invoked: every remote
    operation the handler starts for the entry (the inventory read and the
    three steps of [addUpvotesToDispenser]) starts in a world that already
    holds the key, and the key is there when the handler ends.  Hence a
    duplicate delivery after the marking cannot cause a second dispatch:
    however deliveries of logs with that key, ticks and settling promises
    interleave, at most one dispatch is started, and none once the key is
    marked. *)
Theorem key_is_marked_before_dispatch env n w log :
  matched log ->
  let o := run env n w (processLog log) in
  Forall (fun c => JSSet.has (log_id log) (processedLogIds (call_world c)) = true)
         (calls o)
  /\ JSSet.has (log_id log) (processedLogIds (world o)) = true
  /\ (forall L,
        reachable (fun l => log_id l = log_id log) (boot w) L ->
        dispatches (started L) <= 1)
  /\ (forall L,
        reachable (fun l => log_id l = log_id log) (boot (world o)) L ->
        dispatches (started L) = 0).
Proof.
  intros Hm o. destruct (processLog_calls_marked env n w log Hm) as [Hcalls Hend].
  fold o in Hcalls, Hend. repeat split; try assumption.
  - intros L HL. now apply (one_key_one_dispatch (log_id log) w L).
  - intros L HL. now apply (one_key_one_dispatch (log_id log) (world o) L).
Qed.

(** ** lastProcessedBlock *)

Lemma advances_block_max b last :
  0 <= last ->
  match advances_block (Some b) last with
  | Some b' => b'
  | None => last
  end = Z.max last b.
Proof.
  intros Hlast. unfold advances_block.
  destruct (Z.eqb_spec b 0) as [->|Hb]; cbn; [lia|].
  destruct (Z.gtb_spec b last); lia.
Qed.

(** C10, as the code has it: [lastProcessedBlock] never goes down, over a
    batch, over a tick, and in any interleaving of the two.  After a
    matched, new entry that carries a block number it is the maximum of its
    previous value and that number when the inventory count is not zero (a
    dispatch was attempted); when the count is zero the handler leaves it
    unchanged. *)
Theorem lastProcessedBlock_after_matched_entry env n w log c b :
  JSSet.has (log_id log) (processedLogIds w) = false ->
  matched log ->
  let oc := run env n (marked log w) getConfig in
  result oc = Ok c ->
  blockNumber log = Some b ->
  0 <= lastProcessedBlock w ->
  let o := run env n w (processLog log) in
  lastProcessedBlock (world o) =
    (if (queuedNFTCount c =? 0)%nat then lastProcessedBlock w
     else Z.max (lastProcessedBlock w) b)
  /\ (forall env' n' logs,
        lastProcessedBlock w <=
        lastProcessedBlock (world (run env' n' w (onLogs logs))))
  /\ (forall env' n',
        lastProcessedBlock w <= lastProcessedBlock (world (run env' n' w tick)))
  /\ (forall deliverable L,
        reachable deliverable (boot w) L ->
        lastProcessedBlock w <= lastProcessedBlock (globals L)).
Proof.
  intros Hnew Hm oc Hc Hb Hlast o. repeat split.
  - subst o. rewrite (processLog_matched _ _ _ _ Hnew Hm).
    destruct (check_inventory_summary env n (marked log w) log)
      as (c' & Hc' & _ & _ & _ & _ & _ & Hcases).
    fold oc in Hc'. rewrite Hc in Hc'. injection Hc' as <-.
    destruct (queuedNFTCount c =? 0)%nat; destruct Hcases as [_ ->]; cbn.
    + reflexivity.
    + rewrite Hb. now apply advances_block_max.
  - intros env' n' logs. apply run_onLogs_monotone.
  - intros env' n'. apply run_tick_monotone.
  - intros deliverable L HL. now apply (loop_dispatch_bound deliverable w L).
Qed.

(** ** tick and the state file *)

Lemma getCurrentTip_cases env n w :
  let o := run env n w getCurrentTip in
  (exists tip, result o = Ok tip)
  /\ same_bookkeeping w (world o)
  /\ configCache (world o) = configCache w.
Proof.
  unfold getCurrentTip. unmonad. cbn.
  destruct (env_settle env n Z _) as [tip|e]; cbn; repeat split; eauto.
Qed.

(** [tick] always reaches the write of [net_state.json], and writes the
    trimmed list of the keys and the last block. *)
Lemma tick_persists env n w :
  let o := run env n w tick in
  result o = Ok tt
  /\ processedLogIds (world o) = processedLogIds w
  /\ lastProcessedBlock (world o) = lastProcessedBlock w
  /\ heartbeatCount (world o) = heartbeatCount w + 1
  /\ exists tip,
       net_state_json (world o) =
       Some {| sf_lastProcessed := Some (toString tip);
               sf_tip := Some (toString tip);
               sf_lastProcessedBlock := Some (toString (lastProcessedBlock w));
               sf_processed := Some (trimmed (processedLogIds w)) |}.
Proof.
  cbv zeta. unfold tick. unmonad.
  rewrite run_try_catch, run_bind, run_await_call. cbv zeta.
  destruct (getConfig_cases env n w) as ([c Hc] & [F1 F2 F3 F4 F5] & _).
  set (oc := run env n w getConfig) in *. rewrite Hc.
  rewrite run_bind, run_await_call. cbv zeta.
  destruct (getCurrentTip_cases env (asked oc) (world oc))
    as ([tip Ht] & [G1 G2 G3 G4 G5] & _).
  set (ot := run env (asked oc) (world oc) getCurrentTip) in *. rewrite Ht.
  clearbody ot oc.
  cbn [abind getWorld modify run].
  cbn [heartbeatCount set_heartbeatCount set_net_state_json].
  destruct (Z.rem _ _ =? 0); cbn [abind console_print modify getWorld run];
    cbn [configCache set_console set_heartbeatCount set_net_state_json];
    destruct (configCache (world ot)) as [[ts [cached ? ? ?]]|];
    cbn [data]; try destruct (negb _); cbn;
    rewrite ?G1, ?G2, ?G4, ?F1, ?F2, ?F4; repeat split; eauto.
Qed.

(** [BigInt] on strings of several forms. *)
Lemma BigInt_of_string_forms :
  map BigInt_of_string
      ["12"; "-7"; "+5"; " 42 "; ""; "  "; "007"; "-0"; "0x10"; "0X1f";
       "0o17"; "0b101"; "-0x10"; "+"; "0x"; "1_0"; "1n"; "5 5"; "1.0"] =
  [Some 12; Some (-7); Some 5; Some 42; Some 0; Some 0; Some 7; Some 0;
   Some 16; Some 31; Some 15; Some 5; None; None; None; None; None; None;
   None].
Proof. reflexivity. Qed.

Lemma numeral_uint (d : Decimal.uint) (acc : Z) :
  numeral 10 true acc (NilEmpty.string_of_uint d) = Some (uint_value acc d).
Proof.
  revert acc. induction d; intros acc; cbn [NilEmpty.string_of_uint uint_value];
    [reflexivity | ..]; cbn [numeral]; exact (IHd _).
Qed.

Lemma uint_value_pos (d : Decimal.uint) (p : positive) :
  uint_value (Z.pos p) d = Z.pos (Pos.of_uint_acc d p).
Proof.
  revert p. induction d; intros p; cbn [uint_value Pos.of_uint_acc];
    [reflexivity | ..];
    match goal with
    | |- uint_value ?z _ = Z.pos (Pos.of_uint_acc _ ?q) =>
        replace z with (Z.pos q) by lia; apply IHd
    end.
Qed.

Lemma uint_value_0 (d : Decimal.uint) :
  uint_value 0 d = Z.of_uint d.
Proof.
  unfold Z.of_uint. induction d; cbn [uint_value Pos.of_uint];
    [reflexivity | exact IHd | ..];
    cbn [Z.mul Z.add]; now rewrite uint_value_pos.
Qed.

Lemma numeral_NilZero (d : Decimal.uint) :
  numeral 10 false 0 (NilZero.string_of_uint d) = Some (Z.of_uint d).
Proof.
  rewrite <- uint_value_0.
  destruct d; cbn [NilZero.string_of_uint NilEmpty.string_of_uint uint_value];
    [reflexivity | ..]; cbn [numeral]; apply numeral_uint.
Qed.

(** A decimal numeral is read as such. *)
Lemma BigInt_of_numeral (d : Decimal.uint) :
  BigInt_of_string (NilZero.string_of_uint d) =
  numeral 10 false 0 (NilZero.string_of_uint d).
Proof.
  destruct d as [|d|d|d|d|d|d|d|d|d|d]; try reflexivity;
    destruct d; reflexivity.
Qed.

(** [BigInt] reads back what [toString] writes. *)
Lemma BigInt_toString z : BigInt_of_string (toString z) = Some z.
Proof.
  unfold toString. rewrite <- (DecimalZ.of_to z) at 2.
  destruct (Z.to_int z) as [d|d]; cbn [NilZero.string_of_int Z.of_int].
  - now rewrite BigInt_of_numeral, numeral_NilZero.
  - change (BigInt_of_string (String "-" (NilZero.string_of_uint d)))
      with (option_map Z.opp (numeral 10 false 0 (NilZero.string_of_uint d))).
    now rewrite numeral_NilZero.
Qed.

Lemma toString_nonempty z : (toString z =? "")%string = false.
Proof.
  apply String.eqb_neq. unfold toString.
  destruct z as [|p|p]; cbn [Z.to_int NilZero.string_of_int];
    try destruct (Pos.to_uint p); discriminate.
Qed.

(** The state load on the file [tick] writes: the set is rebuilt from the
    array and the last block is read back. *)
Lemma startup_restores env disk tip processed b :
  net_state_json disk =
    Some {| sf_lastProcessed := Some tip; sf_tip := Some tip;
            sf_lastProcessedBlock := Some (toString b);
            sf_processed := Some processed |} ->
  processedLogIds (startup env disk) = JSSet.of_array processed
  /\ lastProcessedBlock (startup env disk) = b
  /\ lastProcessed (startup env disk) = 0.
Proof.
  intros H. unfold startup, loadState. unmonad.
  cbn [try_catch abind getWorld run net_state_json fresh_process].
  rewrite H. cbn [sf_processed sf_lastProcessedBlock].
  rewrite toString_nonempty, BigInt_toString. cbn. auto.
Qed.

(** C7: at every tick the [processed] array written to [net_state.json]
    has at most 500 entries, and they are the last entries, in insertion
    order, of [processedLogIds]: the whole set when it has at most 500 keys,
    its 500 most recently inserted keys otherwise.  And however ticks,
    deliveries and settling promises interleave, the array in the file
    never has more than 500 entries, and they stay consecutive members of
    the set. *)
Theorem persisted_processed_is_capped env n w :
  let o := run env n w tick in
  (exists state kept older,
     net_state_json (world o) = Some state
     /\ sf_processed state = Some kept
     /\ (List.length kept <= 500)%nat
     /\ List.length kept = Nat.min 500 (JSSet.size (processedLogIds w))
     /\ JSSet.to_array (processedLogIds w) = older ++ kept)
  /\ (forall deliverable L,
        file_capped w ->
        reachable deliverable (boot w) L ->
        file_capped (globals L)).
Proof.
  cbv zeta. split.
  - destruct (tick_persists env n w) as (_ & _ & _ & _ & tip & ->).
    destruct (trimmed_suffix (processedLogIds w)) as [older Holder].
    do 3 eexists. split; [reflexivity|]. cbn.
    split; [reflexivity|]. rewrite trimmed_length.
    repeat split; [lia | exact Holder].
  - intros deliverable L Hfile HL.
    now apply (loop_dispatch_bound deliverable w L).
Qed.

(** C6, as the code has it: what a restart reloads from the file written
    by a tick is the trimmed list.  Every key among the 500 most recently
    inserted ones is a member again after the restart, no other key is, and
    so the membership test is the same as before for every key when the
    set held at most 500 keys.  The last block is read back as well. *)
Theorem persisted_keys_survive_restart env n env' w id :
  let disk := world (run env n w tick) in
  let w' := startup env' disk in
  JSSet.has id (processedLogIds w') = JSSet.has id (trimmed (processedLogIds w))
  /\ (In id (trimmed (processedLogIds w)) ->
      JSSet.has id (processedLogIds w') = true)
  /\ ((JSSet.size (processedLogIds w) <= 500)%nat ->
      JSSet.has id (processedLogIds w') = JSSet.has id (processedLogIds w))
  /\ lastProcessedBlock w' = lastProcessedBlock w.
Proof.
  cbv zeta. destruct (tick_persists env n w) as (_ & _ & _ & _ & tip & Hfile).
  destruct (startup_restores env' _ _ _ _ Hfile) as (Hset & Hblock & _).
  rewrite Hset, Hblock, has_of_array. repeat split.
  - intros Hin. now apply has_true_iff.
  - intros Hsmall. now rewrite trimmed_small.
Qed.

(** ** Further properties of the script *)

(** X1: a snapshot read at time [t] (not 0) is served from the cache, with
    no remote read and no change of the world, to every call made less
    than 60 s after [t]; from 60 s on the next call reads the dispenser
    again. *)
Theorem getConfig_serves_cache_for_60s env n w u q env' n' :
  cache_hit (env_now env n) (configCache w) = None ->
  env_settle env (S n) _ read_settings = Ok (u, q) ->
  env_now env n <> 0 ->
  let o := run env n w getConfig in
  let o' := run env' n' (world o) getConfig in
  (env_now env' n' - env_now env n < 60000 ->
   o' = {| result := result o; world := world o; calls := [];
           asked := S n' |})
  /\ (60000 <= env_now env' n' - env_now env n ->
      calls o' =
      [{| call_op := existT _ _ read_settings; call_world := world o |}]).
Proof.
  intros Hc Hs Hnow. cbv zeta.
  rewrite (getConfig_refresh _ _ _ _ _ Hc Hs). cbn [world result].
  split; intros Hage.
  - apply getConfig_hit. unfold cache_hit. cbn [configCache set_configCache timestamp data].
    destruct (Z.eqb_spec (env_now env n) 0) as [|_]; [contradiction|].
    unfold CACHE_TTL_MS.
    destruct (Z.ltb_spec (env_now env' n' - env_now env n) (60 * 1000)); [reflexivity | lia].
  - match goal with |- calls (run _ _ ?w1 _) = _ => set (w' := w1) end.
    assert (Hmiss : cache_hit (env_now env' n') (configCache w') = None).
    { unfold cache_hit, w'. cbn [configCache set_configCache timestamp data].
      unfold CACHE_TTL_MS.
      destruct (Z.ltb_spec (env_now env' n' - env_now env n) (60 * 1000));
        [lia | now rewrite andb_false_r]. }
    destruct (env_settle env' (S n') _ read_settings) as [[u' q']|e] eqn:Hs'.
    + now rewrite (getConfig_refresh _ _ _ _ _ Hmiss Hs').
    + now rewrite (getConfig_fail _ _ _ _ Hmiss Hs').
Qed.

(** X2: whatever the network answers, the snapshot [getConfig] returns has
    a count equal to the length of its list of queued tokens, and so has
    the snapshot it leaves in the cache, provided the cache it found had. *)
Theorem getConfig_count_is_length env n w :
  cache_consistent w ->
  let o := run env n w getConfig in
  (exists c, result o = Ok c /\ snapshot_consistent c)
  /\ cache_consistent (world o).
Proof.
  intros Hw. cbv zeta. unfold cache_consistent in *.
  destruct (cache_hit (env_now env n) (configCache w)) as [d|] eqn:Hc.
  - rewrite (getConfig_hit _ _ _ _ Hc). cbn. split; [|exact Hw].
    exists d. split; [reflexivity|].
    unfold cache_hit in Hc. destruct (configCache w) as [c|]; [|discriminate].
    destruct (_ && _); [|discriminate]. now injection Hc as <-.
  - destruct (env_settle env (S n) _ read_settings) as [[u q]|e] eqn:Hs.
    + rewrite (getConfig_refresh _ _ _ _ _ Hc Hs). cbn.
      split; [eexists; split; [reflexivity|] |];
        unfold snapshot_consistent; cbn; now rewrite length_map.
    + rewrite (getConfig_fail _ _ _ _ Hc Hs). cbn.
      destruct (configCache w) as [c|] eqn:Ec; cbn; rewrite ?Ec.
      * split; [exists (data c); split; [reflexivity | exact Hw] | exact Hw].
      * split; [|trivial]. exists default_config. split; reflexivity.
Qed.

(** X3: [getCurrentTip] never throws.  When the read succeeds it returns
    the count and leaves the world as it was; when the read is rejected it
    returns 0, after writing the error to the console and
    [net_protocol_error] to the log file. *)
Theorem getCurrentTip_is_zero_on_failure env n w :
  let o := run env n w getCurrentTip in
  match env_settle env n _
          (readContract_getTotalMessagesForAppCount NORMALIZED_UPVOTE_APP_ADDRESS)
  with
  | Ok tip => result o = Ok tip /\ world o = w
  | Err e =>
      result o = Ok 0
      /\ console (world o) =
           console w ++
           [console_error
              ("[NET_PROTOCOL_ERROR] Failed to get message count: " ^^ message e)]
      /\ logFile (world o) =
           logFile w ++
           [{| type := "net_protocol_error"; level := error;
               fields :=
                 [("error", JStr (message e)); ("stack", JStr (stack e));
                  ("netProtocolAddress", JStr NET_PROTOCOL_ADDRESS);
                  ("upvoteAppAddress", JStr NORMALIZED_UPVOTE_APP_ADDRESS)] |}]
      /\ same_bookkeeping w (world o)
  end.
Proof.
  unfold getCurrentTip. unmonad. cbn.
  destruct (env_settle env n Z _) as [tip|e]; cbn; repeat split.
Qed.

(** X4: [addUpvotesToDispenser] asks for the gas price, then simulates,
    then submits, and stops at the first step that fails: nothing is
    simulated without a gas price, and nothing is submitted unless the
    simulation succeeded, in which case what is submitted is the request
    the simulation returned. *)
Theorem addUpvotes_submits_only_what_it_simulated env n w user amount :
  let o := run env n w (addUpvotesToDispenser user amount) in
  match env_settle env n _ getGasPrice with
  | Err _ => calls o = [gas_call w]
  | Ok gasPrice =>
      let adjusted := Z.quot (gasPrice * 120) 100 in
      match env_settle env (S n) _
              (simulateContract_addUpvotes NORMALIZED_DISPENSER_ADDRESS user
                 amount adjusted) with
      | Err _ => calls o = [gas_call w; simulate_call w user amount adjusted]
      | Ok request =>
          calls o = [gas_call w; simulate_call w user amount adjusted;
                     write_call w request]
      end
  end.
Proof.
  unfold addUpvotesToDispenser, gas_call, simulate_call, write_call.
  unmonad. cbn.
  destruct (env_settle env n Z getGasPrice) as [g|e]; cbn; [|reflexivity].
  destruct (env_settle env (S n) Request _) as [rq|e]; cbn; [|reflexivity].
  destruct (env_settle env (S (S n)) string (writeContract rq)); reflexivity.
Qed.

(** X5: the gas price offered is the network's price plus 20%, rounded
    down: for a price [g >= 0] the simulation is asked with a price [p]
    such that [g <= p] and [100 p <= 120 g < 100 (p + 1)]. *)
Theorem addUpvotes_offers_120_percent env n w user amount g :
  env_settle env n _ getGasPrice = Ok g ->
  0 <= g ->
  exists p rest,
    calls (run env n w (addUpvotesToDispenser user amount)) =
      gas_call w :: simulate_call w user amount p :: rest
    /\ g <= p
    /\ 100 * p <= 120 * g < 100 * (p + 1).
Proof.
  intros Hg Hpos.
  assert (Hq : Z.quot (g * 120) 100 = g * 120 / 100) by (apply Z.quot_div_nonneg; lia).
  assert (Hb1 : g <= g * 120 / 100).
  { apply Z.div_le_lower_bound; lia. }
  assert (Hb2 : 100 * (g * 120 / 100) <= g * 120 < 100 * (g * 120 / 100 + 1)).
  { pose proof (Z.mul_div_le (g * 120) 100 ltac:(lia)).
    pose proof (Z.mul_succ_div_gt (g * 120) 100 ltac:(lia)). lia. }
  exists (Z.quot (g * 120) 100).
  enough (exists rest,
            calls (run env n w (addUpvotesToDispenser user amount)) =
            gas_call w :: simulate_call w user amount (Z.quot (g * 120) 100) :: rest)
    as [rest Hrest] by (exists rest; split; [exact Hrest | rewrite Hq; lia]).
  clear Hq Hb1 Hb2.
  unfold addUpvotesToDispenser, gas_call, simulate_call.
  unmonad. cbn. rewrite Hg. cbn.
  destruct (env_settle env (S n) Request _) as [rq|e]; cbn;
    [destruct (env_settle env (S (S n)) string (writeContract rq)); cbn|];
    eexists; reflexivity.
Qed.

(** X6: on a matched, new entry with inventory, when
    [addUpvotesToDispenser] returns a transaction hash, the handler writes
    [award_success] to the log file and [nft_awarded], with the inventory
    count read before the dispatch, to the dispenser log; it has called the
    dispatch once; and [lastProcessedBlock] is moved up to the entry's
    block. *)
Theorem successful_dispatch_is_logged env n w log c hash :
  JSSet.has (log_id log) (processedLogIds w) = false ->
  matched log ->
  let oc := run env n (marked log w) getConfig in
  result oc = Ok c ->
  queuedNFTCount c <> 0%nat ->
  let od := run env (asked oc) (world oc)
              (addUpvotesToDispenser (args_user log) REQUIRED_UPVOTES) in
  result od = Ok (Some hash) ->
  hash <> "" ->
  let o := run env n w (processLog log) in
  result o = Ok tt
  /\ logFile (world o) =
       logFile (world od) ++
       [{| type := "award_success"; level := info;
           fields :=
             [("user", JStr (args_user log));
              ("amount", JStr (toString REQUIRED_UPVOTES));
              ("sourceTx", JStr (transactionHash log));
              ("dispenserTx", JStr hash);
              ("sourceBasescan", JStr (basescan_tx (transactionHash log)));
              ("dispenserBasescan", JStr (basescan_tx hash))] |}]
  /\ dispenserLogFile (world o) =
       dispenserLogFile (world oc) ++
       [{| action := "nft_awarded";
           action_data :=
             [("user", JStr (args_user log));
              ("amount", JStr (toString REQUIRED_UPVOTES));
              ("sourceTx", JStr (transactionHash log));
              ("dispenserTx", JStr hash);
              ("sourceBasescan", JStr (basescan_tx (transactionHash log)));
              ("dispenserBasescan", JStr (basescan_tx hash));
              ("inventoryBefore",
               JStr (toString (Z.of_nat (queuedNFTCount c))))] |}]
  /\ List.length (filter is_getGasPrice (calls o)) = 1%nat
  /\ lastProcessedBlock (world o) =
       match advances_block (blockNumber log) (lastProcessedBlock w) with
       | Some b => b
       | None => lastProcessedBlock w
       end.
Proof.
  intros Hnew Hm oc Hc Hstock od Hr Hhash o.
  destruct (getConfig_cases env n (marked log w)) as (_ & Hframe & _).
  fold oc in Hframe. destruct Hframe as [F1 F2 _ _ _].
  destruct (addUpvotes_frame env (asked oc) (world oc) (args_user log)
              REQUIRED_UPVOTES) as (_ & [G1 G2 _ _ _] & _ & G6).
  fold od in G1, G2, G6.
  pose proof (count_getGasPrice_addUpvotes env (asked oc) (world oc)
                (args_user log) REQUIRED_UPVOTES) as Hone. fold od in Hone.
  pose proof (count_getGasPrice_getConfig env n (marked log w)) as Hnone.
  fold oc in Hnone.
  assert (Htruthy : truthy_hash (Some hash) = Some hash).
  { cbn. destruct (String.eqb_spec hash ""); [contradiction | reflexivity]. }
  subst o. rewrite (processLog_matched _ _ _ _ Hnew Hm).
  unfold check_inventory_and_award. unmonad. rewrite run_bind, run_await_call.
  fold oc. cbv zeta. rewrite Hc.
  destruct (Nat.eqb_spec (queuedNFTCount c) 0) as [|_]; [contradiction|].
  rewrite !run_bind, run_await_call. fold od. cbv zeta. rewrite Hr, Htruthy.
  cbn -[advances_block]. rewrite G2, F2.
  change (lastProcessedBlock (marked log w)) with (lastProcessedBlock w).
  destruct (advances_block _ _); cbn;
    rewrite ?app_nil_r, filter_app, Hnone, ?G6; cbn;
    repeat split; try assumption; now rewrite G2, F2.
Qed.

(** The loop body throws only at [BigInt(log.args.numUpvotes)]. *)
Lemma processLog_decoded env n w log :
  args_numUpvotes log <> None ->
  result (run env n w (processLog log)) = Ok tt.
Proof.
  intros Ha. unfold processLog. unmonad. cbn [abind getWorld run].
  destruct (JSSet.has (log_id log) (processedLogIds w)); [reflexivity|].
  destruct (args_numUpvotes log) as [numUpvotes|]; [|contradiction].
  cbn [BigInt_of_value ret Monad_Async abind run].
  destruct (negb _); [reflexivity|].
  destruct (negb _); [reflexivity|].
  cbn [abind modify logInfo logToFile run].
  match goal with
  | |- result (run _ _ ?w1 _) = _ =>
      now destruct (check_inventory_summary env n w1 log) as (c & _ & Hr & _)
  end.
Qed.

Lemma processLog_mismatch env n w log amount :
  args_numUpvotes log = Some amount ->
  (log_token log =? toLowerCase NORMALIZED_TRACKED_TOKEN_ADDRESS)%string = false
  \/ (amount =? REQUIRED_UPVOTES) = false ->
  run env n w (processLog log) =
    {| result := Ok tt; world := w; calls := []; asked := n |}.
Proof.
  intros Ha H. unfold processLog. unmonad. cbn [abind getWorld run].
  destruct (JSSet.has (log_id log) (processedLogIds w)); [reflexivity|].
  rewrite Ha. cbn [BigInt_of_value ret Monad_Async abind run].
  destruct (String.eqb (log_token log) _); cbn [negb]; [|reflexivity].
  destruct (Z.eqb amount _); cbn [negb]; [|reflexivity].
  destruct H; discriminate.
Qed.

Lemma tests_matched log amount :
  (log_token log =? toLowerCase NORMALIZED_TRACKED_TOKEN_ADDRESS)%string = true ->
  args_numUpvotes log = Some amount ->
  (amount =? REQUIRED_UPVOTES) = true ->
  matched log.
Proof.
  intros Ht Ha Hn. split.
  - apply toLowerCase_eq_iff, String.eqb_eq, Ht.
  - rewrite Ha. f_equal. now apply Z.eqb_eq.
Qed.

(** A batch delivered in one piece does what its two halves do when
    delivered one after the other, unless the first half throws. *)
Lemma run_onLogs_app env n w logs1 logs2 :
  run env n w (onLogs (logs1 ++ logs2)) =
  let o1 := run env n w (onLogs logs1) in
  match result o1 with
  | Ok _ => after_calls (calls o1) (run env (asked o1) (world o1) (onLogs logs2))
  | Err e =>
      {| result := Err e; world := world o1; calls := calls o1;
         asked := asked o1 |}
  end.
Proof.
  revert n w. induction logs1 as [|log rest IH]; intros n w.
  - cbn. now rewrite after_calls_nil.
  - cbn [app]. cbv zeta. rewrite !run_onLogs_cons. cbv zeta.
    destruct (result (run env n w (processLog log))) as [[]|e]; [|reflexivity].
    rewrite IH. cbv zeta. cbn [after_calls result world calls asked].
    destruct (result (run env _ _ (onLogs rest))) as [[]|e].
    + now rewrite after_calls_app.
    + reflexivity.
Qed.

(** X7: the [onLogs] callback throws exactly when it comes to an entry,
    not handled before, whose amount did not decode
    ([BigInt(undefined)]).  On a batch whose amounts all decoded it never
    throws.  When it throws, the error is that [TypeError]; the entries
    before the undecoded one have been handled as usual, and the world
    and the operations started are what they left: the entries after it
    are not handled. *)
Theorem onLogs_throws_only_on_undecoded_amount env n w logs :
  let o := run env n w (onLogs logs) in
  (Forall (fun log => args_numUpvotes log <> None) logs -> result o = Ok tt)
  /\ (forall e,
        result o = Err e ->
        e = TypeError_undefined
        /\ exists before log after,
             logs = before ++ log :: after
             /\ args_numUpvotes log = None
             /\ result (run env n w (onLogs before)) = Ok tt
             /\ JSSet.has (log_id log)
                  (processedLogIds (world (run env n w (onLogs before)))) = false
             /\ world o = world (run env n w (onLogs before))
             /\ calls o = calls (run env n w (onLogs before)))
  /\ (forall before log after,
        logs = before ++ log :: after ->
        result (run env n w (onLogs before)) = Ok tt ->
        args_numUpvotes log = None ->
        JSSet.has (log_id log)
          (processedLogIds (world (run env n w (onLogs before)))) = false ->
        result o = Err TypeError_undefined).
Proof.
  cbv zeta. split; [|split].
  - intros Hall. revert n w.
    induction Hall as [|log rest Hlog _ IH]; intros n w; [reflexivity|].
    rewrite run_onLogs_cons. cbv zeta.
    rewrite (processLog_decoded env n w log Hlog). apply IH.
  - revert n w. induction logs as [|log rest IH]; intros n w e; [discriminate|].
    rewrite run_onLogs_cons. cbv zeta.
    destruct (JSSet.has (log_id log) (processedLogIds w)) eqn:Hnew.
    { rewrite (processLog_seen env n w log Hnew).
      cbn [result world calls asked]. rewrite after_calls_nil. intros He.
      destruct (IH n w e He)
        as (-> & before & l & after & -> & Hl & Hr & Hh & Hw & Hc).
      split; [reflexivity|]. exists (log :: before), l, after.
      rewrite (run_onLogs_skip env n w log before (processLog_seen env n w log Hnew)).
      repeat split; assumption. }
    destruct (args_numUpvotes log) as [amount|] eqn:Ha.
    + assert (Hd : args_numUpvotes log <> None) by congruence.
      pose proof (processLog_decoded env n w log Hd) as Hok.
      rewrite Hok. cbn [result world calls after_calls]. intros He.
      destruct (IH _ _ e He)
        as (-> & before & l & after & -> & Hl & Hr & Hh & Hw & Hc).
      split; [reflexivity|]. exists (log :: before), l, after.
      rewrite (run_onLogs_cons env n w log before). cbv zeta. rewrite Hok.
      cbn [result world calls after_calls].
      repeat split; try assumption. now rewrite Hc.
    + rewrite (processLog_undecoded env n w log Hnew Ha).
      cbn [result world calls]. intros [= <-]. split; [reflexivity|].
      exists [], log, rest. repeat split; assumption.
  - intros before log after -> Hr Ha Hh.
    rewrite run_onLogs_app. cbv zeta. rewrite Hr.
    cbn [result after_calls]. rewrite run_onLogs_cons. cbv zeta.
    now rewrite (processLog_undecoded _ _ _ log Hh Ha).
Qed.

(** X8: an entry delivered twice in a row in a batch is handled once: the
    batch behaves as if the second copy were not there, whether the entry
    is matched or not. *)
Theorem repeated_entry_is_handled_once env n w log rest :
  run env n w (onLogs (log :: log :: rest)) = run env n w (onLogs (log :: rest)).
Proof.
  rewrite (run_onLogs_cons env n w log (log :: rest)). cbv zeta.
  rewrite (run_onLogs_cons env n w log rest). cbv zeta.
  destruct (JSSet.has (log_id log) (processedLogIds w)) eqn:Hnew.
  { rewrite (processLog_seen env n w log Hnew). cbn [result world calls asked].
    f_equal. apply run_onLogs_skip. now apply processLog_seen. }
  destruct (args_numUpvotes log) as [amount|] eqn:Ha;
    [|now rewrite (processLog_undecoded env n w log Hnew Ha)].
  rewrite (processLog_decoded env n w log) by congruence.
  f_equal. apply run_onLogs_skip.
  destruct (String.eqb (log_token log) (toLowerCase NORMALIZED_TRACKED_TOKEN_ADDRESS))
    eqn:Ht; [|apply (processLog_mismatch _ _ _ _ amount Ha); now left].
  destruct (Z.eqb amount REQUIRED_UPVOTES) eqn:Hn;
    [|apply (processLog_mismatch _ _ _ _ amount Ha); now right].
  apply processLog_seen.
  now apply (processLog_calls_marked env n w log (tests_matched log amount Ht Ha Hn)).
Qed.

(** X9: however deliveries, ticks and settling promises interleave, no key
    ever leaves [processedLogIds]: the set keeps the keys it started with,
    in their order, followed by the keys added since; it has no duplicate;
    every key added is the key of a delivered log; and no more dispatches
    have been started than keys added. *)
Theorem processed_keys_only_accumulate deliverable w0 L :
  NoDup (processedLogIds w0) ->
  reachable deliverable (boot w0) L ->
  exists news,
    processedLogIds (globals L) = processedLogIds w0 ++ news
    /\ NoDup (processedLogIds (globals L))
    /\ (forall id, In id news -> exists log, deliverable log /\ log_id log = id)
    /\ dispatches (started L) <= Z.of_nat (List.length news).
Proof.
  intros Hnd0 Hreach.
  destruct (loop_dispatch_bound deliverable w0 L Hreach)
    as (_ & _ & news & Hnews & Hnd & Hin & Hle).
  exists news. rewrite Hnews. repeat split.
  - apply NoDup_app; [assumption | assumption |].
    intros a Ha Hb. now apply (Hin a Hb).
  - intros id Hid. apply (Hin id Hid).
  - exact Hle.
Qed.

(** When [getConfig] returns and there is a cache, what it returned is what
    the cache holds. *)
Lemma getConfig_returns_cache env n w c :
  result (run env n w getConfig) = Ok c ->
  match configCache (world (run env n w getConfig)) with
  | Some cache => data cache = c
  | None => True
  end.
Proof.
  destruct (cache_hit (env_now env n) (configCache w)) as [d|] eqn:Hc.
  - rewrite (getConfig_hit _ _ _ _ Hc). cbn. intros [= <-].
    unfold cache_hit in Hc. destruct (configCache w) as [cache|]; [|trivial].
    destruct (_ && _); [|discriminate]. now injection Hc.
  - destruct (env_settle env (S n) _ read_settings) as [[u q]|e] eqn:Hs.
    + rewrite (getConfig_refresh _ _ _ _ _ Hc Hs). cbn. now intros [= <-].
    + rewrite (getConfig_fail _ _ _ _ Hc Hs). cbn.
      destruct (configCache w) as [cache|] eqn:Ec; cbn; rewrite ?Ec;
        [now intros [= <-] | trivial].
Qed.

Lemma getCurrentTip_no_dispatch env n w :
  forallb (fun c => negb (is_dispatch_op c)) (calls (run env n w getCurrentTip)) = true
  /\ dispenserLogFile (world (run env n w getCurrentTip)) = dispenserLogFile w.
Proof.
  unfold getCurrentTip. unmonad. cbn.
  destruct (env_settle env n Z _); cbn; split; reflexivity.
Qed.

(** What a tick run with nothing else in flight adds to the console and to
    the logs once the snapshot and the tip are read. *)
Lemma tick_outputs env n w :
  let o := run env n w tick in
  let oc := run env n w getConfig in
  let ot := run env (asked oc) (world oc) getCurrentTip in
  calls o = calls oc ++ calls ot
  /\ logFile (world o) = logFile (world ot)
  /\ dispenserLogFile (world o) = dispenserLogFile (world oc)
  /\ exists line,
       console (world o) =
       console (world ot) ++
       (if Z.rem (heartbeatCount w + 1) HEARTBEAT_INTERVAL =? 0
        then [console_log line] else []).
Proof.
  cbv zeta. unfold tick. unmonad.
  rewrite run_try_catch, run_bind, run_await_call. cbv zeta.
  destruct (getConfig_cases env n w) as ([c Hc] & [F1 F2 F3 F4 F5] & _).
  pose proof (getConfig_returns_cache env n w c Hc) as Hcache.
  set (oc := run env n w getConfig) in *. rewrite Hc.
  rewrite run_bind, run_await_call. cbv zeta.
  destruct (getCurrentTip_cases env (asked oc) (world oc))
    as ([tip Ht] & [G1 G2 G3 G4 G5] & G6).
  destruct (getCurrentTip_no_dispatch env (asked oc) (world oc)) as [_ G7].
  set (ot := run env (asked oc) (world oc) getCurrentTip) in *. rewrite Ht.
  rewrite <- G6 in Hcache. clearbody ot oc.
  cbn [abind getWorld modify run].
  cbn [heartbeatCount set_heartbeatCount set_net_state_json].
  rewrite G4, F4.
  destruct (Z.rem _ _ =? 0); cbn [abind console_print modify getWorld run];
    cbn [configCache set_console set_heartbeatCount set_net_state_json];
    destruct (configCache (world ot)) as [[ts [cached ? ? ?]]|];
    cbn [data] in *; try (subst c; cbn [upvotesRequired]; rewrite String.eqb_refl);
    cbn; rewrite ?app_nil_r, ?G7; repeat split; eauto using app_nil_r.
Qed.

(** X10: a tick never throws and starts no operation of the dispatch; it
    adds one to [heartbeatCount], and prints the [HEARTBEAT] line exactly
    when the new count is a multiple of 10; [processedLogIds] and
    [lastProcessedBlock] are as before. *)
Theorem tick_beats_every_tenth env n w :
  let o := run env n w tick in
  let oc := run env n w getConfig in
  let ot := run env (asked oc) (world oc) getCurrentTip in
  result o = Ok tt
  /\ heartbeatCount (world o) = heartbeatCount w + 1
  /\ processedLogIds (world o) = processedLogIds w
  /\ lastProcessedBlock (world o) = lastProcessedBlock w
  /\ forallb (fun c => negb (is_dispatch_op c)) (calls o) = true
  /\ (Z.rem (heartbeatCount w + 1) 10 <> 0 ->
      console (world o) = console (world ot))
  /\ (Z.rem (heartbeatCount w + 1) 10 = 0 ->
      exists line, console (world o) = console (world ot) ++ [console_log line]).
Proof.
  cbv zeta.
  destruct (tick_persists env n w) as (Hr & Hp & Hb & Hh & _).
  destruct (tick_outputs env n w) as (Hcalls & _ & _ & line & Hline).
  cbv zeta in Hline. unfold HEARTBEAT_INTERVAL in Hline.
  repeat split; try assumption.
  - rewrite Hcalls, forallb_app, getConfig_no_dispatch.
    now destruct (getCurrentTip_no_dispatch env
                    (asked (run env n w getConfig))
                    (world (run env n w getConfig))) as [-> _].
  - intros Hrem. rewrite Hline.
    destruct (Z.eqb_spec (Z.rem (heartbeatCount w + 1) 10) 0);
      [contradiction | apply app_nil_r].
  - intros Hrem. exists line. rewrite Hline, Hrem. reflexivity.
Qed.

(** X11: in a tick run with nothing else in flight the comparison that
    guards [threshold_changed] sets the snapshot [getConfig] has just
    returned against the cache, which holds that very snapshot: the
    dispenser log gets nothing from the tick beyond what [getConfig]
    wrote, so no [threshold_changed] record. *)
Theorem tick_alone_never_logs_threshold_changed env n w :
  let o := run env n w tick in
  dispenserLogFile (world o) = dispenserLogFile (world (run env n w getConfig))
  /\ forall entry,
       In entry (dispenserLogFile (world o)) ->
       In entry (dispenserLogFile w) \/ action entry = "config_updated".
Proof.
  cbv zeta. destruct (tick_outputs env n w) as (_ & _ & Hd & _).
  split; [exact Hd|]. rewrite Hd. intros entry.
  destruct (cache_hit (env_now env n) (configCache w)) as [d|] eqn:Hc.
  - rewrite (getConfig_hit _ _ _ _ Hc). cbn. auto.
  - destruct (env_settle env (S n) _ read_settings) as [[u q]|e] eqn:Hs.
    + rewrite (getConfig_refresh _ _ _ _ _ Hc Hs). cbn.
      rewrite in_app_iff. cbn. intros [H|[<-|[]]]; auto.
    + rewrite (getConfig_fail _ _ _ _ Hc Hs). cbn.
      destruct (configCache w); cbn; auto.
Qed.

(** [new Set(array)] of an array without repetition lists the array. *)
Lemma fold_add_NoDup (a : list string) (acc : JSSet.t) :
  NoDup (acc ++ a) ->
  fold_left (fun s y => JSSet.add y s) a acc = acc ++ a.
Proof.
  revert acc. induction a as [|y a IH]; intros acc H; simpl.
  - now rewrite app_nil_r.
  - assert (Hy : JSSet.has y acc = false).
    { destruct (JSSet.has y acc) eqn:E; [|reflexivity].
      apply has_true_iff in E. apply NoDup_remove_2 in H.
      exfalso. apply H. apply in_or_app. now left. }
    unfold JSSet.add at 2. rewrite Hy.
    rewrite IH; rewrite <- app_assoc; [reflexivity | exact H].
Qed.

Lemma of_array_NoDup (a : list string) :
  NoDup a -> JSSet.of_array a = a.
Proof. intros H. unfold JSSet.of_array. now rewrite fold_add_NoDup. Qed.

Lemma NoDup_fold_add (a : list string) (acc : JSSet.t) :
  NoDup acc -> NoDup (fold_left (fun s y => JSSet.add y s) a acc).
Proof.
  revert acc. induction a as [|y a IH]; intros acc H; simpl; [assumption|].
  apply IH. unfold JSSet.add. destruct (JSSet.has y acc) eqn:E; [assumption|].
  apply NoDup_app; [assumption | repeat constructor; intros [] |].
  intros x Hx [<-|[]]. apply has_true_iff in Hx. congruence.
Qed.

Lemma NoDup_trimmed (l : list string) : NoDup l -> NoDup (trimmed l).
Proof.
  intros H. destruct (trimmed_suffix l) as [older Hl].
  rewrite Hl in H. now apply NoDup_app_remove_l in H.
Qed.

Lemma trimmed_idempotent (l : list string) : trimmed (trimmed l) = trimmed l.
Proof. apply trimmed_small. rewrite trimmed_length. lia. Qed.

(** X12: the state load never fails and prints exactly one line, whatever
    [net_state.json] holds; the message index starts at 0 and the set has
    no key twice.  Without a readable state file the set is empty, the last
    block is 0 and the line is [No state file found, starting from 0]. *)
Theorem startup_always_starts env disk :
  let o := run env 0 (fresh_process disk) loadState in
  result o = Ok tt
  /\ calls o = []
  /\ lastProcessed (startup env disk) = 0
  /\ NoDup (processedLogIds (startup env disk))
  /\ (exists line, console (startup env disk) = [console_log line])
  /\ (net_state_json disk = None ->
      processedLogIds (startup env disk) = JSSet.empty
      /\ lastProcessedBlock (startup env disk) = 0
      /\ console (startup env disk) =
           [console_log "No state file found, starting from 0"]).
Proof.
  cbv zeta. unfold startup, loadState. unmonad.
  cbn [try_catch abind getWorld run net_state_json fresh_process].
  destruct (net_state_json disk) as [[lp tp lb pr]|];
    cbn [sf_processed sf_lastProcessedBlock].
  - assert (Hnd : forall a, NoDup (JSSet.of_array a))
      by (intros a; apply NoDup_fold_add; constructor).
    destruct pr as [pr|], lb as [lb|]; cbn;
      try (destruct (lb =? "")%string; cbn;
           [|destruct (BigInt_of_string lb); cbn]);
      repeat split; eauto using NoDup_nil; discriminate.
  - cbn. repeat split; eauto using NoDup_nil.
Qed.

(** X13: on a set without repetition, the restart after a tick reloads the
    trimmed list of keys in the same order, and the next tick writes the
    same [processed] array and the same [lastProcessedBlock] to the file
    again: persisting and reloading is stable from the first restart on. *)
Theorem restart_then_tick_rewrites_the_same_state env n w env' env'' n'' :
  NoDup (processedLogIds w) ->
  let disk := world (run env n w tick) in
  let w' := startup env' disk in
  let disk' := world (run env'' n'' w' tick) in
  processedLogIds w' = trimmed (processedLogIds w)
  /\ exists state state',
       net_state_json disk = Some state
       /\ net_state_json disk' = Some state'
       /\ sf_processed state' = sf_processed state
       /\ sf_lastProcessedBlock state' = sf_lastProcessedBlock state.
Proof.
  intros Hnd. cbv zeta.
  destruct (tick_persists env n w) as (_ & _ & _ & _ & tip & Hfile).
  destruct (startup_restores env' _ _ _ _ Hfile) as (Hset & Hblock & _).
  rewrite of_array_NoDup in Hset by now apply NoDup_trimmed.
  split; [exact Hset|].
  destruct (tick_persists env'' n'' (startup env' (world (run env n w tick))))
    as (_ & _ & _ & _ & tip' & Hfile').
  do 2 eexists. split; [exact Hfile|]. split; [exact Hfile'|].
  cbn [sf_processed sf_lastProcessedBlock].
  rewrite Hset, Hblock, trimmed_idempotent. split; reflexivity.
Qed.

(** *** decodeUpvoteData *)

Lemma append_cons (c : ascii) (a b : string) :
  String c a ^^ b = String c (a ^^ b).
Proof. reflexivity. Qed.

Lemma append_empty (b : string) : "" ^^ b = b.
Proof. reflexivity. Qed.

Ltac unappend := rewrite ?append_cons, ?append_empty.

Lemma substring_all (s : string) : substring 0 (String.length s) s = s.
Proof. induction s as [|c s IH]; cbn; [reflexivity | now rewrite IH]. Qed.

Lemma substring_app_skip (a b : string) (n m : nat) :
  substring (String.length a + n) m (a ^^ b) = substring n m b.
Proof.
  induction a as [|c a IH]; unappend; cbn [String.length Nat.add substring];
    [reflexivity | exact IH].
Qed.

Lemma substring_app_skip0 (a b : string) (m : nat) :
  substring (String.length a) m (a ^^ b) = substring 0 m b.
Proof.
  rewrite <- (substring_app_skip a b 0 m). now rewrite Nat.add_0_r.
Qed.

Lemma substring_app_take (a b : string) :
  substring 0 (String.length a) (a ^^ b) = a.
Proof.
  induction a as [|c a IH]; unappend; cbn [String.length substring];
    [now destruct b | now rewrite IH].
Qed.

Lemma length_append (a b : string) :
  String.length (a ^^ b) = (String.length a + String.length b)%nat.
Proof.
  induction a as [|c a IH]; unappend; cbn [String.length Nat.add];
    [reflexivity | now rewrite IH].
Qed.

Lemma slice_to_end_append (a b : string) :
  slice_to_end (String.length a) (a ^^ b) = b.
Proof.
  unfold slice_to_end. rewrite length_append.
  replace (String.length a + String.length b - String.length a)%nat
    with (String.length b) by lia.
  rewrite substring_app_skip0. apply substring_all.
Qed.

Lemma append_assoc (a b c : string) : (a ^^ b) ^^ c = a ^^ b ^^ c.
Proof.
  induction a as [|x a IH]; unappend; [reflexivity | now rewrite IH].
Qed.

Lemma prefix_append (a b : string) : String.prefix a (a ^^ b) = true.
Proof.
  induction a as [|c a IH]; unappend; cbn [String.prefix]; [now destruct b|].
  destruct (Ascii.ascii_dec c c); [exact IH | contradiction].
Qed.

Lemma length_hex_fixed (n : nat) (z : Z) : String.length (hex_fixed n z) = n.
Proof. induction n as [|n IH]; cbn; [reflexivity | now rewrite IH]. Qed.

Lemma hex_digit_hex_char (d : Z) :
  0 <= d < 16 -> hex_digit (hex_char d) = Some d.
Proof.
  intros H.
  assert (E : d = 0 \/ d = 1 \/ d = 2 \/ d = 3 \/ d = 4 \/ d = 5 \/ d = 6
              \/ d = 7 \/ d = 8 \/ d = 9 \/ d = 10 \/ d = 11 \/ d = 12
              \/ d = 13 \/ d = 14 \/ d = 15) by lia.
  repeat (destruct E as [->|E]; [reflexivity|]). now subst.
Qed.

(** Reading back [n] digits: the number modulo [16 ^ n]. *)
Lemma hex_literal_hex_fixed (n : nat) (z acc : Z) (seen : bool) (s : string) :
  hex_literal seen acc (hex_fixed n z ^^ s) =
  hex_literal (seen || negb (Nat.eqb n 0))
              (acc * 16 ^ Z.of_nat n + z mod 16 ^ Z.of_nat n) s.
Proof.
  revert acc seen. induction n as [|n IH]; intros acc seen.
  - cbn [hex_fixed Nat.eqb negb]. unappend. rewrite orb_false_r.
    f_equal. cbn. rewrite Z.mod_1_r. lia.
  - cbn [hex_fixed Nat.eqb negb]. unappend. cbn [hex_literal].
    rewrite hex_digit_hex_char by (apply Z.mod_pos_bound; lia).
    rewrite IH, orb_true_r. cbn [orb]. f_equal.
    rewrite Nat2Z.inj_succ, Z.pow_succ_r by lia.
    rewrite (Z.mul_comm 16 (16 ^ Z.of_nat n)).
    rewrite Z.rem_mul_r by lia. lia.
Qed.

Lemma hex_fixed_split (n m : nat) (z : Z) :
  hex_fixed (n + m) z = hex_fixed n (z / 16 ^ Z.of_nat m) ^^ hex_fixed m z.
Proof.
  induction n as [|n IH]; cbn [hex_fixed Nat.add]; unappend; [reflexivity|].
  rewrite IH. f_equal. f_equal. f_equal.
  rewrite Z.div_div by lia. now rewrite <- Z.pow_add_r, Nat2Z.inj_add, Z.add_comm by lia.
Qed.

(** [hex_literal] is [BigInt] on the string that starts with [0x]. *)
Lemma digit_16 (c : ascii) : digit 16 c = hex_digit c.
Proof.
  destruct c as [[] [] [] [] [] [] [] []]; reflexivity.
Qed.

Lemma numeral_16 (s : string) (seen : bool) (acc : Z) :
  numeral 16 seen acc s = hex_literal seen acc s.
Proof.
  revert seen acc. induction s as [|c s IH]; intros seen acc; [reflexivity|].
  cbn [numeral hex_literal]. rewrite digit_16.
  destruct (hex_digit c); [apply IH | reflexivity].
Qed.

Lemma BigInt_of_0x (h : string) :
  BigInt_of_string ("0x" ^^ h) = hex_literal false 0 h.
Proof.
  change ("0x" ^^ h) with (String "0" (String "x" h)).
  unfold BigInt_of_string. cbn. apply numeral_16.
Qed.

(** The layout [decodeUpvoteData] reads: ten characters of selector, 24 of
    padding, 40 of token, and 32 of amount. *)
Lemma decodeUpvoteData_layout env n w pad tok hi rest :
  String.length pad = 24%nat -> String.length tok = 40%nat ->
  String.length hi = 32%nat ->
  run env n w (decodeUpvoteData ("0x2d4ba917" ^^ pad ^^ tok ^^ hi ^^ rest)) =
  match hex_literal false 0 hi with
  | Some amount =>
      {| result := Ok (Some ("0x" ^^ tok, amount));
         world :=
           set_console
             (console w ++
              [console_log ("[DECODE] Decoded upvote: token=0x" ^^ tok
                            ^^ ", amount=" ^^ toString amount)]) w;
         calls := []; asked := n |}
  | None =>
      {| result := Ok None;
         world :=
           set_console
             (console w ++
              [console_error
                 ("Error decoding upvote data: "
                  ^^ stack (SyntaxError_BigInt ("0x" ^^ hi)))]) w;
         calls := []; asked := n |}
  end.
Proof.
  intros Hpad Htok Hhi.
  set (params := pad ^^ tok ^^ hi ^^ rest).
  assert (Hparams : slice_to_end 10 ("0x2d4ba917" ^^ params) = params)
    by apply (slice_to_end_append "0x2d4ba917").
  assert (Htoken : slice 24 64 params = tok).
  { unfold slice, params. change (64 - 24)%nat with 40%nat.
    rewrite <- Htok, <- Hpad, substring_app_skip0. apply substring_app_take. }
  assert (Hamount : slice 64 96 params = hi).
  { unfold slice, params. change (96 - 64)%nat with 32%nat.
    rewrite <- append_assoc.
    replace 64%nat with (String.length (pad ^^ tok))
      by (rewrite length_append; lia).
    rewrite substring_app_skip0, <- Hhi. apply substring_app_take. }
  unfold decodeUpvoteData, startsWith. unmonad.
  change ("0x2d4ba917" ^^ pad ^^ tok ^^ hi ^^ rest) with ("0x2d4ba917" ^^ params).
  rewrite prefix_append, Hparams, Htoken, Hamount. clearbody params.
  unfold BigInt_0x. destruct (hex_literal false 0 hi); reflexivity.
Qed.

(** X17: on the calldata of a call [upvote(token, amount)], a selector
    followed by two 32-byte words, whatever comes after them,
    [decodeUpvoteData] returns the 40 characters of the token word as they
    are, and as amount the upper 16 bytes of the amount word only
    ([params.slice(64, 96)] is 32 characters, not 32 bytes): the amount
    divided by [2 ^ 128], which is 0 for every amount below [2 ^ 128]. *)
Theorem decodeUpvoteData_reads_upper_half_of_amount env n w tok amount rest :
  String.length tok = 40%nat ->
  0 <= amount < 2 ^ 256 ->
  let data :=
    "0x2d4ba917" ^^ hex_fixed 24 0 ^^ tok ^^ hex_fixed 64 amount ^^ rest in
  let o := run env n w (decodeUpvoteData data) in
  result o = Ok (Some ("0x" ^^ tok, amount / 2 ^ 128))
  /\ calls o = []
  /\ (amount < 2 ^ 128 -> result o = Ok (Some ("0x" ^^ tok, 0))).
Proof.
  intros Htok Hamount. cbv zeta.
  change 64%nat with (32 + 32)%nat. rewrite hex_fixed_split, append_assoc.
  rewrite decodeUpvoteData_layout
    by (try exact Htok; apply length_hex_fixed).
  pose proof (hex_literal_hex_fixed 32 (amount / 16 ^ Z.of_nat 32) 0 false "") as H.
  assert (Happ : forall s, s ^^ "" = s)
    by (induction s as [|c s IH]; unappend; [reflexivity | now rewrite IH]).
  rewrite Happ in H. cbn [hex_literal orb negb Nat.eqb] in H.
  change (16 ^ Z.of_nat 32) with (2 ^ 128) in *.
  rewrite Z.mod_small in H
    by (split; [apply Z.div_pos; lia | apply Z.div_lt_upper_bound; lia]).
  rewrite H. cbn [result calls Z.mul Z.add]. repeat split.
  intros Hsmall. now rewrite Z.div_small by lia.
Qed.

(** X18: [decodeUpvoteData] never throws and asks nothing of the chain; it
    prints one line.  It returns [null] when the data does not start with
    the selector in lower case, printing the first ten characters, and when
    the data stops before the amount field (75 characters are the least). *)
Theorem decodeUpvoteData_rejects env n w data :
  let o := run env n w (decodeUpvoteData data) in
  (exists r line,
     result o = Ok r /\ calls o = [] /\ asked o = n
     /\ world o = set_console (console w ++ [line]) w)
  /\ (startsWith data "0x2d4ba917" = false ->
      result o = Ok None
      /\ console (world o) =
         console w ++
         [console_log ("[DECODE] Not an upvote call, selector: "
                       ^^ slice 0 10 data)])
  /\ ((String.length data <= 74)%nat -> result o = Ok None).
Proof.
  cbv zeta. unfold decodeUpvoteData. unmonad.
  destruct (startsWith data "0x2d4ba917") eqn:Esel; cbn [negb].
  - assert (Hshort : (String.length data <= 74)%nat ->
                     slice 64 96 (slice_to_end 10 data) = "").
    { intros Hlen. unfold slice, slice_to_end.
      assert (Hl : forall (s : string) (a m : nat),
                 (String.length (substring a m s) <= String.length s - a)%nat).
      { intros s a. revert s. induction a as [|a IHa]; intros s m.
        - revert s. induction m as [|m IHm]; intros [|c s]; cbn; try lia.
          specialize (IHm s). lia.
        - destruct s as [|c s]; cbn; [lia | apply IHa]. }
      assert (He : forall (s : string) (k m : nat),
                 (String.length s <= k)%nat -> substring k m s = "").
      { intros s k. revert s. induction k as [|k IHk]; intros [|c s] m Hk; cbn in *;
          try reflexivity; try lia.
        - now destruct m.
        - apply IHk. lia. }
      apply He. specialize (Hl data 10%nat (String.length data - 10)%nat). lia. }
    destruct (BigInt_0x (slice 64 96 (slice_to_end 10 data))) as [amount|e] eqn:Eb;
      cbn; (split; [do 2 eexists; repeat split|]);
      (split; [discriminate|]); intros Hlen; [|reflexivity].
    rewrite (Hshort Hlen) in Eb. discriminate.
  - cbn. split; [do 2 eexists; repeat split|]. split; [|reflexivity].
    intros _. split; reflexivity.
Qed.

End Bot.

(** ** The daily log files *)

(** *** The order of [sort] *)

Lemma ascii_compare_lt_trans (a b c : ascii) :
  Ascii.compare a b = Lt -> Ascii.compare b c = Lt -> Ascii.compare a c = Lt.
Proof.
  unfold Ascii.compare. rewrite !N.compare_lt_iff. apply N.lt_trans.
Qed.

Lemma string_compare_lt_trans (s1 s2 s3 : string) :
  String.compare s1 s2 = Lt -> String.compare s2 s3 = Lt ->
  String.compare s1 s3 = Lt.
Proof.
  revert s2 s3. induction s1 as [|a s1 IH]; intros [|b s2] [|c s3]; cbn;
    try discriminate; try reflexivity.
  destruct (Ascii.compare a b) eqn:Eab; try discriminate;
    destruct (Ascii.compare b c) eqn:Ebc; try discriminate; intros H1 H2.
  - apply Ascii.compare_eq_iff in Eab, Ebc. subst.
    replace (Ascii.compare c c) with Eq; [now apply (IH s2)|].
    pose proof (Ascii.compare_antisym c c) as H.
    destruct (Ascii.compare c c); try reflexivity; discriminate.
  - apply Ascii.compare_eq_iff in Eab. subst. now rewrite Ebc.
  - apply Ascii.compare_eq_iff in Ebc. subst. now rewrite Eab.
  - now rewrite (ascii_compare_lt_trans a b c).
Qed.

Lemma string_compare_refl (s : string) : String.compare s s = Eq.
Proof.
  pose proof (String.compare_antisym s s) as H.
  destruct (String.compare s s); try reflexivity; discriminate.
Qed.

Lemma ltb_irrefl (s : string) : String.ltb s s = false.
Proof. unfold String.ltb. now rewrite string_compare_refl. Qed.

Lemma leb_ltb (s t : string) :
  String.leb s t = true -> s <> t -> String.ltb s t = true.
Proof.
  unfold String.leb, String.ltb. intros H Hne.
  destruct (String.compare s t) eqn:E; try discriminate; [|reflexivity].
  apply String.compare_eq_iff in E. contradiction.
Qed.

Lemma leb_not_ltb (s t : string) :
  String.leb s t = true -> String.ltb t s = false.
Proof.
  unfold String.leb, String.ltb. rewrite (String.compare_antisym t s).
  now destruct (String.compare s t).
Qed.

Lemma ltb_asym (s t : string) :
  String.ltb s t = true -> String.ltb t s = false.
Proof.
  unfold String.ltb. rewrite (String.compare_antisym t s).
  now destruct (String.compare s t).
Qed.

Lemma leb_trans (s1 s2 s3 : string) :
  String.leb s1 s2 = true -> String.leb s2 s3 = true ->
  String.leb s1 s3 = true.
Proof.
  unfold String.leb. intros H1 H2.
  destruct (String.compare s1 s2) eqn:E1; try discriminate;
    destruct (String.compare s2 s3) eqn:E2; try discriminate.
  - apply String.compare_eq_iff in E1, E2. subst.
    now rewrite string_compare_refl.
  - apply String.compare_eq_iff in E1. subst. now rewrite E2.
  - apply String.compare_eq_iff in E2. subst. now rewrite E1.
  - now rewrite (string_compare_lt_trans s1 s2 s3).
Qed.

(** *** [sort] *)

Lemma In_sort_insert (x y : string) (l : list string) :
  In y (DailyLog.sort_insert x l) <-> y = x \/ In y l.
Proof.
  induction l as [|z l IH]; simpl.
  - intuition congruence.
  - destruct (String.leb x z); simpl; rewrite ?IH; intuition congruence.
Qed.

Lemma In_sort (y : string) (l : list string) :
  In y (DailyLog.sort l) <-> In y l.
Proof.
  induction l as [|x l IH]; simpl; [tauto|].
  rewrite In_sort_insert, IH. intuition congruence.
Qed.

Lemma length_sort_insert (x : string) (l : list string) :
  List.length (DailyLog.sort_insert x l) = S (List.length l).
Proof.
  induction l as [|z l IH]; simpl; [reflexivity|].
  destruct (String.leb x z); simpl; now rewrite ?IH.
Qed.

Lemma length_sort (l : list string) :
  List.length (DailyLog.sort l) = List.length l.
Proof.
  induction l as [|x l IH]; simpl; [reflexivity|].
  now rewrite length_sort_insert, IH.
Qed.

Lemma NoDup_sort_insert (x : string) (l : list string) :
  NoDup l -> ~ In x l -> NoDup (DailyLog.sort_insert x l).
Proof.
  induction l as [|z l IH]; simpl; intros Hnd Hx.
  - repeat constructor. intros [].
  - destruct (String.leb x z).
    + constructor; [simpl; tauto | assumption].
    + inversion Hnd; subst. constructor.
      * rewrite In_sort_insert. intuition congruence.
      * apply IH; tauto.
Qed.

Lemma NoDup_sort (l : list string) : NoDup l -> NoDup (DailyLog.sort l).
Proof.
  induction 1 as [|x l Hx Hnd IH]; simpl; [constructor|].
  apply NoDup_sort_insert; [assumption | now rewrite In_sort].
Qed.

Lemma sorted_sort_insert (x : string) (l : list string) :
  StronglySorted leb_true l -> StronglySorted leb_true (DailyLog.sort_insert x l).
Proof.
  induction 1 as [|z l Hs IH Hall]; simpl.
  - repeat constructor.
  - destruct (String.leb x z) eqn:E.
    + constructor; [now constructor|]. constructor; [exact E|].
      eapply Forall_impl; [|exact Hall]. intros y Hy.
      now apply (leb_trans x z y).
    + constructor; [exact IH|]. apply Forall_forall. intros y Hy.
      apply In_sort_insert in Hy as [->|Hy].
      * destruct (String.leb_total x z) as [H|H]; [congruence | exact H].
      * rewrite Forall_forall in Hall. now apply Hall.
Qed.

Lemma sorted_sort (l : list string) : StronglySorted leb_true (DailyLog.sort l).
Proof.
  induction l as [|x l IH]; simpl; [constructor | now apply sorted_sort_insert].
Qed.

Lemma sorted_split (a b : list string) (x : string) :
  StronglySorted leb_true (a ++ x :: b) ->
  (forall y, In y a -> String.leb y x = true)
  /\ (forall y, In y b -> String.leb x y = true).
Proof.
  induction a as [|z a IH]; simpl; intros H; inversion H as [|? ? Hs Hall]; subst.
  - split; [intros y [] |]. now apply Forall_forall.
  - destruct (IH Hs) as [Ha Hb]. split; [|exact Hb].
    intros y [<-|Hy]; [|now apply Ha].
    rewrite Forall_forall in Hall. apply Hall, in_or_app. right. now left.
Qed.

Lemma filter_none {A} (p : A -> bool) (l : list A) :
  (forall y, In y l -> p y = false) -> filter p l = [].
Proof.
  induction l as [|z l IH]; simpl; intros H; [reflexivity|].
  rewrite (H z) by now left. apply IH. intros y Hy. apply H. now right.
Qed.

Lemma filter_all {A} (p : A -> bool) (l : list A) :
  (forall y, In y l -> p y = true) -> filter p l = l.
Proof.
  induction l as [|z l IH]; simpl; intros H; [reflexivity|].
  rewrite (H z) by now left. f_equal. apply IH. intros y Hy. apply H. now right.
Qed.

Lemma filter_filter {A} (p q : A -> bool) (l : list A) :
  filter p (filter q l) = filter (fun x => q x && p x) l.
Proof.
  induction l as [|z l IH]; simpl; [reflexivity|].
  destruct (q z); simpl; [destruct (p z)|]; now rewrite IH.
Qed.

Lemma In_firstn_In {A} (n : nat) (x : A) (l : list A) :
  In x (firstn n l) -> In x l.
Proof.
  intros H. rewrite <- (firstn_skipn n l). apply in_or_app. now left.
Qed.

Lemma NoDup_app_disjoint {A} (a b : list A) (x : A) :
  NoDup (a ++ b) -> In x a -> In x b -> False.
Proof.
  induction a as [|z a IH]; simpl; intros H Ha Hb; [destruct Ha|].
  inversion H as [|? ? Hz Hnd]; subst. destruct Ha as [->|Ha].
  - apply Hz, in_or_app. now right.
  - now apply IH.
Qed.

(** Two lists without repetition and with the same members have the same
    length. *)
Lemma same_members_same_length {A} (l l' : list A) :
  NoDup l -> NoDup l' -> (forall x, In x l <-> In x l') ->
  List.length l = List.length l'.
Proof.
  intros H H' Hiff. apply Permutation_length. now apply NoDup_Permutation.
Qed.

(** In a sorted array without repetition, an entry is among all but the
    last [k] exactly when at least [k] entries come after it. *)
Lemma old_iff_newer (k : nat) (x : string) (J : list string) :
  NoDup J -> In x J ->
  In x (DailyLog.slice_0_minus k (DailyLog.sort J))
  <-> (k <= List.length (filter (String.ltb x) J))%nat.
Proof.
  intros Hnd Hx. unfold DailyLog.slice_0_minus.
  pose proof (NoDup_sort J Hnd) as Hnds.
  pose proof (sorted_sort J) as Hs.
  assert (Hlen : List.length (filter (String.ltb x) J) =
                 List.length (filter (String.ltb x) (DailyLog.sort J))).
  { apply same_members_same_length; try now apply NoDup_filter.
    intros y. rewrite !filter_In, In_sort. tauto. }
  rewrite Hlen. clear Hlen.
  apply In_sort in Hx. destruct (in_split _ _ Hx) as (a & b & Hab).
  rewrite Hab in *. clear Hx Hab.
  destruct (sorted_split a b x Hs) as [Ha Hb].
  assert (Hxa : ~ In x a).
  { intros Hin. apply NoDup_remove_2 in Hnds. apply Hnds, in_or_app. now left. }
  assert (Hxb : ~ In x b).
  { intros Hin. apply NoDup_remove_2 in Hnds. apply Hnds, in_or_app. now right. }
  rewrite filter_app. simpl. rewrite ltb_irrefl.
  rewrite (filter_none (String.ltb x) a)
    by (intros y Hy; now apply leb_not_ltb, Ha).
  rewrite (filter_all (String.ltb x) b)
    by (intros y Hy; apply leb_ltb; [now apply Hb | congruence]).
  simpl. rewrite firstn_app, length_app. simpl. split.
  - intros Hin. apply in_app_or in Hin as [Hin|Hin].
    + exfalso. apply Hxa. eapply In_firstn_In; eassumption.
    + destruct (List.length a + S (List.length b) - k - List.length a)%nat eqn:E;
        [destruct Hin | lia].
  - intros Hk. apply in_or_app. right.
    replace (List.length a + S (List.length b) - k - List.length a)%nat
      with (S (List.length b - k)) by lia.
    now left.
Qed.

(** *** The clean-up *)

Lemma files_clean (old : list string) (st : DailyLog.Logs) :
  DailyLog.files (fold_left DailyLog.clean old st) =
  filter (fun f => negb (existsb (String.eqb (DailyLog.file_name f)) old))
         (DailyLog.files st).
Proof.
  revert st. induction old as [|x old IH]; intros st; simpl.
  - symmetry. now apply filter_all.
  - rewrite IH. simpl. unfold DailyLog.unlinkSync. rewrite filter_filter.
    apply filter_ext. intros f. now rewrite negb_orb.
Qed.

Lemma cache_clean (old : list string) (st : DailyLog.Logs) :
  DailyLog.currentLogFile (fold_left DailyLog.clean old st) = DailyLog.currentLogFile st
  /\ DailyLog.currentLogDate (fold_left DailyLog.clean old st) = DailyLog.currentLogDate st.
Proof.
  revert st. induction old as [|x old IH]; intros st; simpl; [tauto|].
  destruct (IH (DailyLog.clean st x)) as [-> ->]. split; reflexivity.
Qed.

Lemma getLogFile_fresh today st :
  day_changed today st ->
  DailyLog.getLogFile today st =
  (today ^^ ".jsonl",
   {| DailyLog.files :=
        DailyLog.files (fold_left DailyLog.clean
                          (DailyLog.oldFiles (DailyLog.files st)) st);
      DailyLog.currentLogFile := Some (today ^^ ".jsonl");
      DailyLog.currentLogDate := Some today;
      DailyLog.printed :=
        DailyLog.printed (fold_left DailyLog.clean
                            (DailyLog.oldFiles (DailyLog.files st)) st) |}).
Proof.
  unfold day_changed, DailyLog.getLogFile. intros [H|H].
  - now rewrite H.
  - destruct (DailyLog.currentLogFile st); [|reflexivity].
    destruct (DailyLog.currentLogDate st) as [d|]; [|reflexivity].
    destruct (String.eqb_spec d today); [congruence | reflexivity].
Qed.

Lemma getLogFile_same_day today st :
  DailyLog.currentLogFile st = Some (today ^^ ".jsonl") ->
  DailyLog.currentLogDate st = Some today ->
  DailyLog.getLogFile today st = (today ^^ ".jsonl", st).
Proof.
  unfold DailyLog.getLogFile. intros -> ->. now rewrite String.eqb_refl.
Qed.

Lemma oldFiles_eq (fs : list DailyLog.File) :
  DailyLog.oldFiles fs =
  firstn (List.length (filter is_jsonl (DailyLog.readdirSync fs)) - 7)
         (DailyLog.sort (filter is_jsonl (DailyLog.readdirSync fs))).
Proof.
  unfold DailyLog.oldFiles, DailyLog.slice_0_minus. now rewrite length_sort.
Qed.

Lemma In_oldFiles (x : string) (fs : list DailyLog.File) :
  In x (DailyLog.oldFiles fs) ->
  is_jsonl x = true /\ In x (DailyLog.readdirSync fs).
Proof.
  unfold DailyLog.oldFiles, DailyLog.slice_0_minus. intros H.
  apply In_firstn_In in H. apply In_sort, filter_In in H. tauto.
Qed.

Lemma oldFiles_iff (x : string) (fs : list DailyLog.File) :
  NoDup (DailyLog.readdirSync fs) ->
  In x (DailyLog.oldFiles fs)
  <-> In x (DailyLog.readdirSync fs) /\ is_jsonl x = true
      /\ (7 <= newer x (DailyLog.readdirSync fs))%nat.
Proof.
  intros Hnd. unfold newer. rewrite <- filter_filter. split.
  - intros H. destruct (In_oldFiles x fs H) as [Hj Hin].
    repeat split; try assumption.
    apply old_iff_newer; [now apply NoDup_filter | | exact H].
    apply filter_In. tauto.
  - intros (Hin & Hj & Hk). apply old_iff_newer; try assumption.
    + now apply NoDup_filter.
    + apply filter_In. tauto.
Qed.

Lemma existsb_eqb_In (x : string) (l : list string) :
  existsb (String.eqb x) l = true <-> In x l.
Proof.
  rewrite existsb_exists. split.
  - intros (y & Hy & E). apply String.eqb_eq in E. now subst.
  - intros H. exists x. split; [assumption | apply String.eqb_refl].
Qed.

Lemma In_files_clean (f : DailyLog.File) (old : list string) (st : DailyLog.Logs) :
  In f (DailyLog.files (fold_left DailyLog.clean old st))
  <-> In f (DailyLog.files st) /\ ~ In (DailyLog.file_name f) old.
Proof.
  rewrite files_clean, filter_In, negb_true_iff, <- not_true_iff_false,
    existsb_eqb_In. tauto.
Qed.

Lemma NoDup_map_filter {A B} (g : A -> B) (p : A -> bool) (l : list A) :
  NoDup (map g l) -> NoDup (map g (filter p l)).
Proof.
  induction l as [|z l IH]; simpl; intros H; [constructor|].
  inversion H as [|? ? Hz Hnd]; subst.
  destruct (p z); simpl; [|now apply IH].
  constructor; [|now apply IH].
  rewrite in_map_iff in *. intros (y & E & Hy). apply Hz.
  exists y. split; [assumption|]. apply filter_In in Hy. tauto.
Qed.

(** The [.jsonl] names left by the clean-up are the last seven of the
    sorted array, or all of them. *)
Lemma count_after_clean (st : DailyLog.Logs) :
  NoDup (DailyLog.readdirSync (DailyLog.files st)) ->
  let st' := fold_left DailyLog.clean (DailyLog.oldFiles (DailyLog.files st)) st in
  List.length (filter is_jsonl (DailyLog.readdirSync (DailyLog.files st'))) =
  Nat.min 7 (List.length (filter is_jsonl (DailyLog.readdirSync (DailyLog.files st)))).
Proof.
  intros Hnd st'.
  set (J := filter is_jsonl (DailyLog.readdirSync (DailyLog.files st))).
  set (k := (List.length J - 7)%nat).
  assert (HJ : NoDup J) by now apply NoDup_filter.
  pose proof (NoDup_sort J HJ) as Hs.
  rewrite <- (firstn_skipn k (DailyLog.sort J)) in Hs.
  transitivity (List.length (skipn k (DailyLog.sort J))).
  - apply same_members_same_length.
    + apply NoDup_filter. unfold DailyLog.readdirSync, st'.
      rewrite files_clean. now apply NoDup_map_filter.
    + now apply NoDup_app_remove_l in Hs.
    + intros x. rewrite filter_In. unfold DailyLog.readdirSync at 1.
      rewrite in_map_iff. split.
      * intros ((f & <- & Hf) & Hj). apply In_files_clean in Hf as [Hf Hold].
        assert (Hin : In (DailyLog.file_name f) (DailyLog.sort J)).
        { apply In_sort, filter_In. split; [now apply in_map | exact Hj]. }
        rewrite <- (firstn_skipn k (DailyLog.sort J)) in Hin.
        apply in_app_or in Hin as [Hin|Hin]; [|exact Hin].
        exfalso. apply Hold. rewrite oldFiles_eq. exact Hin.
      * intros Hx.
        assert (Hin : In x J).
        { apply In_sort. rewrite <- (firstn_skipn k (DailyLog.sort J)).
          apply in_or_app. now right. }
        apply filter_In in Hin as [Hin Hj]. split; [|exact Hj].
        apply in_map_iff in Hin as (f & <- & Hf). exists f. split; [reflexivity|].
        apply In_files_clean. split; [exact Hf|].
        intros Hold. rewrite oldFiles_eq in Hold.
        apply (NoDup_app_disjoint _ _ (DailyLog.file_name f) Hs);
          assumption.
  - rewrite length_skipn, length_sort. unfold k. lia.
Qed.

Lemma find_filter {A} (p q : A -> bool) (l : list A) :
  (forall x, In x l -> p x = true -> q x = true) ->
  find p (filter q l) = find p l.
Proof.
  induction l as [|z l IH]; simpl; intros H; [reflexivity|].
  destruct (p z) eqn:Ep.
  - rewrite (H z) by (try assumption; now left). simpl. now rewrite Ep.
  - destruct (q z); simpl; rewrite ?Ep; apply IH; intros x Hx; apply H; now right.
Qed.

Lemma lines_of_clean (name : string) (old : list string) (st : DailyLog.Logs) :
  ~ In name old ->
  lines_of name (DailyLog.files (fold_left DailyLog.clean old st)) =
  lines_of name (DailyLog.files st).
Proof.
  intros H. unfold lines_of. rewrite files_clean, find_filter; [reflexivity|].
  intros f _ E. apply String.eqb_eq in E. rewrite E.
  apply negb_true_iff, not_true_iff_false. now rewrite existsb_eqb_In.
Qed.

Lemma lines_of_append (name : string) (l : DailyLog.Line) (fs : list DailyLog.File) :
  lines_of name (DailyLog.appendFileSync name l fs) = lines_of name fs ++ [l].
Proof.
  unfold lines_of. induction fs as [|f fs IH]; simpl.
  - now rewrite String.eqb_refl.
  - destruct (DailyLog.file_name f =? name)%string eqn:E; simpl.
    + now rewrite String.eqb_refl.
    + now rewrite E.
Qed.

Lemma In_append_other (f : DailyLog.File) (name : string) (l : DailyLog.Line)
      (fs : list DailyLog.File) :
  DailyLog.file_name f <> name ->
  In f (DailyLog.appendFileSync name l fs) <-> In f fs.
Proof.
  intros Hne. induction fs as [|g fs IH]; simpl.
  - split; [intros [<-|[]]; now elim Hne | intros []].
  - destruct (String.eqb_spec (DailyLog.file_name g) name) as [E|E]; simpl.
    + split; (intros [<-|H]; [|now right]); exfalso; now apply Hne.
    + now rewrite IH.
Qed.

(** While [currentLogDate] is today, [logToFile] only appends. *)
Lemma logToFile_same_day today (es : list LogEntry) (st : DailyLog.Logs) :
  DailyLog.currentLogFile st = Some (today ^^ ".jsonl") ->
  DailyLog.currentLogDate st = Some today ->
  let st' := fold_left (fun s m => DailyLog.logToFile today m s) es st in
  lines_of (today ^^ ".jsonl") (DailyLog.files st') =
    lines_of (today ^^ ".jsonl") (DailyLog.files st) ++ map DailyLog.log_line es
  /\ (forall f, DailyLog.file_name f <> today ^^ ".jsonl" ->
        In f (DailyLog.files st') <-> In f (DailyLog.files st))
  /\ DailyLog.printed st' = DailyLog.printed st.
Proof.
  cbv zeta. revert st. induction es as [|m es IH]; intros st Hf Hd; simpl.
  - rewrite app_nil_r. repeat split; tauto.
  - set (st1 := DailyLog.logToFile today m st).
    assert (H1 : st1 =
                 {| DailyLog.files :=
                      DailyLog.appendFileSync (today ^^ ".jsonl")
                        (DailyLog.log_line m) (DailyLog.files st);
                    DailyLog.currentLogFile := DailyLog.currentLogFile st;
                    DailyLog.currentLogDate := DailyLog.currentLogDate st;
                    DailyLog.printed := DailyLog.printed st |}).
    { unfold st1, DailyLog.logToFile.
      now rewrite (getLogFile_same_day today st Hf Hd). }
    clearbody st1.
    destruct (IH st1) as (IH1 & IH2 & IH3); [now subst st1 .. |].
    rewrite IH1, IH3. subst st1. cbn [DailyLog.files DailyLog.printed].
    rewrite lines_of_append, <- app_assoc.
    split; [reflexivity|]. split; [|reflexivity].
    intros f Hne. rewrite (IH2 f Hne). cbn [DailyLog.files].
    now apply In_append_other.
Qed.

Lemma day_changed_dec today st :
  day_changed today st
  \/ exists current, DailyLog.currentLogFile st = Some current
                     /\ DailyLog.currentLogDate st = Some today.
Proof.
  unfold day_changed. destruct (DailyLog.currentLogFile st) as [c|]; [|left; now left].
  destruct (DailyLog.currentLogDate st) as [d|]; [|left; right; discriminate].
  destruct (String.eqb_spec d today) as [->|E].
  - right. now exists c.
  - left. right. congruence.
Qed.

(** The first [logToFile] of a call sequence. *)
Lemma logToFile_first today (m : LogEntry) (st : DailyLog.Logs) :
  cache_names_the_day st ->
  let st1 := DailyLog.logToFile today m st in
  DailyLog.currentLogFile st1 = Some (today ^^ ".jsonl")
  /\ DailyLog.currentLogDate st1 = Some today
  /\ (~ In (today ^^ ".jsonl") (DailyLog.oldFiles (DailyLog.files st)) ->
      lines_of (today ^^ ".jsonl") (DailyLog.files st1) =
      lines_of (today ^^ ".jsonl") (DailyLog.files st) ++ [DailyLog.log_line m]).
Proof.
  intros Hc. cbv zeta. unfold DailyLog.logToFile.
  destruct (day_changed_dec today st) as [H|(c & Hf & Hd)].
  - rewrite (getLogFile_fresh today st H).
    cbn [DailyLog.files DailyLog.currentLogFile DailyLog.currentLogDate].
    repeat split. intros Hold. now rewrite lines_of_append, lines_of_clean.
  - unfold cache_names_the_day in Hc. rewrite Hf, Hd in Hc. cbn in Hc.
    injection Hc as ->.
    rewrite (getLogFile_same_day today st Hf Hd).
    cbn [DailyLog.files]. repeat split; try assumption.
    intros _. apply lines_of_append.
Qed.

Lemma length_filter_and {A} (p r : A -> bool) (l : list A) :
  (List.length (filter (fun x => p x && r x) l) <= List.length (filter p l))%nat.
Proof.
  induction l as [|z l IH]; simpl; [lia|].
  destruct (p z), (r z); simpl; lia.
Qed.

Lemma length_filter_without (p : string -> bool) (d : string) (l : list string) :
  In d (filter p l) ->
  (List.length (filter (fun g => p g && negb (g =? d)%string) l)
   < List.length (filter p l))%nat.
Proof.
  induction l as [|z l IH]; simpl; [intros []|].
  destruct (p z) eqn:Ep; simpl; [|exact IH].
  destruct (String.eqb_spec z d) as [->|E]; simpl.
  - intros _. pose proof (length_filter_and p (fun g => negb (g =? d)%string) l).
    lia.
  - intros [H|H]; [contradiction|]. apply IH in H. lia.
Qed.

(** X14: when the day has changed, [getLogFile] names the file of the
    day, and deletes from the directory (whose names are distinct) exactly
    the [.jsonl] files that have at least seven [.jsonl] names after them
    in the order of [sort]; the other files stay as they are, and
    [min 7 n] of the [n] [.jsonl] files are left. *)
Theorem getLogFile_deletes_what_has_seven_newer today st :
  NoDup (DailyLog.readdirSync (DailyLog.files st)) ->
  day_changed today st ->
  let names := DailyLog.readdirSync (DailyLog.files st) in
  let st' := snd (DailyLog.getLogFile today st) in
  fst (DailyLog.getLogFile today st) = today ^^ ".jsonl"
  /\ (forall f,
        In f (DailyLog.files st') <->
        In f (DailyLog.files st)
        /\ (is_jsonl (DailyLog.file_name f) = false
            \/ (newer (DailyLog.file_name f) names < 7)%nat))
  /\ List.length (filter is_jsonl (DailyLog.readdirSync (DailyLog.files st'))) =
     Nat.min 7 (List.length (filter is_jsonl names)).
Proof.
  intros Hnd Hday. cbv zeta. rewrite (getLogFile_fresh today st Hday).
  cbn [fst snd DailyLog.files]. split; [reflexivity|]. split.
  - intros f. rewrite In_files_clean, (oldFiles_iff _ _ Hnd). split.
    + intros [Hf Hold]. split; [exact Hf|].
      destruct (is_jsonl (DailyLog.file_name f)) eqn:Ej; [right | now left].
      destruct (Nat.lt_ge_cases
                  (newer (DailyLog.file_name f)
                     (DailyLog.readdirSync (DailyLog.files st))) 7) as [H|H];
        [exact H|].
      exfalso. apply Hold. repeat split; try assumption.
      now apply in_map.
    + intros [Hf H]. split; [exact Hf|]. intros (_ & Hj & Hk).
      destruct H as [H|H]; [congruence | lia].
  - now apply count_after_clean.
Qed.

(** X15: entries logged on one day end up, in order, at the end of the
    day's file, provided fewer than seven [.jsonl] names of the directory
    come after the day's file name (so the clean-up does not take a file
    of today that is already there); after the first entry nothing is
    deleted or printed, and no other file changes. *)
Theorem same_day_entries_are_appended today m es st :
  NoDup (DailyLog.readdirSync (DailyLog.files st)) ->
  cache_names_the_day st ->
  (newer (today ^^ ".jsonl") (DailyLog.readdirSync (DailyLog.files st)) < 7)%nat ->
  let st1 := DailyLog.logToFile today m st in
  let st2 := fold_left (fun s e => DailyLog.logToFile today e s) es st1 in
  lines_of (today ^^ ".jsonl") (DailyLog.files st2) =
    lines_of (today ^^ ".jsonl") (DailyLog.files st)
    ++ DailyLog.log_line m :: map DailyLog.log_line es
  /\ (forall f, DailyLog.file_name f <> today ^^ ".jsonl" ->
        In f (DailyLog.files st2) <-> In f (DailyLog.files st1))
  /\ DailyLog.printed st2 = DailyLog.printed st1.
Proof.
  intros Hnd Hc Hnew. cbv zeta.
  destruct (logToFile_first today m st Hc) as (Hf & Hd & Hlines).
  destruct (logToFile_same_day today es _ Hf Hd) as (H1 & H2 & H3).
  rewrite H1, Hlines, <- app_assoc; [split; [reflexivity | split; assumption]|].
  rewrite (oldFiles_iff _ _ Hnd). intros (_ & _ & Hk). lia.
Qed.

(** X16: [dispenser-actions.jsonl] is in the directory the clean-up
    sorts.  When every other [.jsonl] name comes before it, as the dated
    names do, the clean-up never deletes it, and it takes one of the seven
    places: at most six of the other [.jsonl] files are left. *)
Theorem dispenser_log_takes_one_of_the_seven today st :
  NoDup (DailyLog.readdirSync (DailyLog.files st)) ->
  day_changed today st ->
  In "dispenser-actions.jsonl" (DailyLog.readdirSync (DailyLog.files st)) ->
  (forall g, In g (DailyLog.readdirSync (DailyLog.files st)) ->
             is_jsonl g = true -> g <> "dispenser-actions.jsonl" ->
             String.ltb g "dispenser-actions.jsonl" = true) ->
  let st' := snd (DailyLog.getLogFile today st) in
  In "dispenser-actions.jsonl" (DailyLog.readdirSync (DailyLog.files st'))
  /\ lines_of "dispenser-actions.jsonl" (DailyLog.files st') =
     lines_of "dispenser-actions.jsonl" (DailyLog.files st)
  /\ (List.length
        (filter (fun g => is_jsonl g && negb (g =? "dispenser-actions.jsonl")%string)
                (DailyLog.readdirSync (DailyLog.files st'))) <= 6)%nat.
Proof.
  intros Hnd Hday Hin Hlast. cbv zeta.
  pose proof (count_after_clean st Hnd) as Hcount. cbv zeta in Hcount.
  rewrite (getLogFile_fresh today st Hday). cbn [snd DailyLog.files].
  assert (Hnew : newer "dispenser-actions.jsonl"
                   (DailyLog.readdirSync (DailyLog.files st)) = 0%nat).
  { unfold newer. rewrite filter_none; [reflexivity|]. intros g Hg.
    destruct (is_jsonl g) eqn:Ej; [|reflexivity]. cbn [andb].
    destruct (String.eqb_spec g "dispenser-actions.jsonl") as [->|E].
    - apply ltb_irrefl.
    - now apply ltb_asym, Hlast. }
  assert (Hold : ~ In "dispenser-actions.jsonl"
                   (DailyLog.oldFiles (DailyLog.files st))).
  { rewrite (oldFiles_iff _ _ Hnd). intros (_ & _ & Hk). lia. }
  assert (Hstays : In "dispenser-actions.jsonl"
                     (DailyLog.readdirSync
                        (DailyLog.files
                           (fold_left DailyLog.clean
                              (DailyLog.oldFiles (DailyLog.files st)) st)))).
  { unfold DailyLog.readdirSync in *. apply in_map_iff in Hin as (f & E & Hf).
    apply in_map_iff. exists f. split; [exact E|].
    apply In_files_clean. split; [exact Hf | now rewrite E]. }
  split; [exact Hstays|]. split; [now apply lines_of_clean|].
  assert (Hlt := length_filter_without is_jsonl "dispenser-actions.jsonl" _
                   (proj2 (filter_In _ _ _) (conj Hstays eq_refl))).
  lia.
Qed.

(** ** The dispenser contract *)

Lemma pop_then_last (l : list Z) :
  l <> [] -> l = removelast l ++ [last l 0].
Proof. intros H. now apply app_removelast_last. Qed.

(** What [addUpvotes] does when it returns. *)
Lemma addUpvotes_success this nft sender user numVotes s s' events calls :
  MegapurrDispenser.addUpvotes this nft sender user numVotes s =
    MegapurrDispenser.Success s' events calls ->
  let total := MegapurrDispenser.userUpvotes s user + numVotes in
  sender = MegapurrDispenser.owner s
  /\ total <= MegapurrDispenser.MAX_UINT256
  /\ (forall a, a <> user ->
        MegapurrDispenser.userUpvotes s' a = MegapurrDispenser.userUpvotes s a)
  /\ MegapurrDispenser.upvotesRequired s' = MegapurrDispenser.upvotesRequired s
  /\ ((calls = []
       /\ MegapurrDispenser.queuedNFTs s' = MegapurrDispenser.queuedNFTs s
       /\ MegapurrDispenser.userUpvotes s' user = total
       /\ events = [MegapurrDispenser.UpvotesAdded user numVotes]
       /\ (total < MegapurrDispenser.upvotesRequired s
           \/ MegapurrDispenser.queuedNFTs s = []))
      \/ (exists tokenId,
            calls = [MegapurrDispenser.safeTransferFrom
                       (MegapurrDispenser.nftContract s) this user tokenId]
            /\ nft (MegapurrDispenser.safeTransferFrom
                      (MegapurrDispenser.nftContract s) this user tokenId) = true
            /\ MegapurrDispenser.queuedNFTs s =
               MegapurrDispenser.queuedNFTs s' ++ [tokenId]
            /\ MegapurrDispenser.userUpvotes s' user =
               total - MegapurrDispenser.upvotesRequired s
            /\ events = [MegapurrDispenser.UpvotesAdded user numVotes;
                         MegapurrDispenser.NFTClaimed user tokenId]
            /\ MegapurrDispenser.upvotesRequired s <= total)).
Proof.
  unfold MegapurrDispenser.addUpvotes, MegapurrDispenser.onlyOwner. cbv zeta.
  destruct (Z.eqb_spec sender (MegapurrDispenser.owner s)) as [Hs|]; [|discriminate].
  destruct (Z.ltb_spec MegapurrDispenser.MAX_UINT256
              (MegapurrDispenser.userUpvotes s user + numVotes)) as [|Hmax];
    [discriminate|].
  cbn [MegapurrDispenser.upvotesRequired MegapurrDispenser.userUpvotes
       MegapurrDispenser.queuedNFTs MegapurrDispenser.nftContract
       MegapurrDispenser.set_userUpvotes MegapurrDispenser.set_queuedNFTs].
  rewrite Z.eqb_refl.
  destruct (Z.leb_spec (MegapurrDispenser.upvotesRequired s)
              (MegapurrDispenser.userUpvotes s user + numVotes)) as [Hge|Hlt];
    cbn [andb].
  - destruct (MegapurrDispenser.queuedNFTs s) as [|t q] eqn:Eq.
    + cbn. intros [= <- <- <-]. cbn. rewrite Z.eqb_refl.
      repeat split; try assumption.
      * intros a Ha. now destruct (Z.eqb_spec a user).
      * left. repeat split; auto.
    + replace (0 <? Z.of_nat (List.length (t :: q))) with true
        by (symmetry; apply Z.ltb_lt; cbn [List.length]; lia).
      destruct (nft _) eqn:Enft; [|discriminate].
      intros [= <- <- <-]. cbn. rewrite Z.eqb_refl.
      repeat split; try assumption.
      * intros a Ha. now destruct (Z.eqb_spec a user).
      * right. exists (last (t :: q) 0). repeat split; try assumption.
        apply pop_then_last. discriminate.
  - intros [= <- <- <-]. cbn. rewrite Z.eqb_refl.
    repeat split; try assumption.
    + intros a Ha. now destruct (Z.eqb_spec a user).
    + left. repeat split; auto.
Qed.

(** X19: a call of [addUpvotes] that returns hands over at most one NFT,
    however large the user's credit is, and it is the last one queued; the
    votes are all accounted for: what the user holds afterwards, plus the
    threshold for the NFT handed over, is what the user held plus the votes
    added.  Nobody else's credit changes. *)
Theorem addUpvotes_awards_at_most_the_last_queued
        this nft sender user numVotes s s' events calls :
  MegapurrDispenser.addUpvotes this nft sender user numVotes s =
    MegapurrDispenser.Success s' events calls ->
  (List.length calls <= 1)%nat
  /\ MegapurrDispenser.queuedNFTs s =
     MegapurrDispenser.queuedNFTs s' ++ map transferred calls
  /\ MegapurrDispenser.userUpvotes s' user
     + MegapurrDispenser.upvotesRequired s * Z.of_nat (List.length calls) =
     MegapurrDispenser.userUpvotes s user + numVotes
  /\ (forall c, In c calls ->
        c = MegapurrDispenser.safeTransferFrom
              (MegapurrDispenser.nftContract s) this user
              (last (MegapurrDispenser.queuedNFTs s) 0))
  /\ (forall a, a <> user ->
        MegapurrDispenser.userUpvotes s' a = MegapurrDispenser.userUpvotes s a).
Proof.
  intros H. apply addUpvotes_success in H. cbv zeta in H.
  destruct H as (_ & _ & Hothers & _ & [(-> & Hq & Hu & _ & _)
                                      |(t & -> & _ & Hq & Hu & _ & _)]).
  - cbn [List.length map In]. rewrite Hq, app_nil_r.
    split; [lia|]. split; [reflexivity|]. split; [lia|].
    split; [intros c [] | exact Hothers].
  - cbn [List.length map transferred In]. rewrite Hq, last_last.
    split; [lia|]. split; [reflexivity|]. split; [lia|].
    split; [|exact Hothers]. intros c [<-|[]]. reflexivity.
Qed.

(** X20: [addUpvotes] reverts, and then credits nothing, in three cases
    only: the caller is not the owner; the credit would pass
    [2^256 - 1]; or an NFT is due and the NFT contract refuses the
    transfer. *)
Theorem addUpvotes_reverts_as_a_whole this nft sender user numVotes s :
  let total := MegapurrDispenser.userUpvotes s user + numVotes in
  (exists why,
     MegapurrDispenser.addUpvotes this nft sender user numVotes s =
     MegapurrDispenser.Revert why)
  <-> (sender <> MegapurrDispenser.owner s
       \/ MegapurrDispenser.MAX_UINT256 < total
       \/ (MegapurrDispenser.upvotesRequired s <= total
           /\ MegapurrDispenser.queuedNFTs s <> []
           /\ nft (MegapurrDispenser.safeTransferFrom
                     (MegapurrDispenser.nftContract s) this user
                     (last (MegapurrDispenser.queuedNFTs s) 0)) = false)).
Proof.
  cbv zeta.
  unfold MegapurrDispenser.addUpvotes, MegapurrDispenser.onlyOwner. cbv zeta.
  destruct (Z.eqb_spec sender (MegapurrDispenser.owner s)) as [Hs|Hs];
    [|split; [tauto | intros _; eexists; reflexivity]].
  destruct (Z.ltb_spec MegapurrDispenser.MAX_UINT256
              (MegapurrDispenser.userUpvotes s user + numVotes)) as [Hmax|Hmax];
    [split; [tauto | intros _; eexists; reflexivity]|].
  cbn [MegapurrDispenser.upvotesRequired MegapurrDispenser.userUpvotes
       MegapurrDispenser.queuedNFTs MegapurrDispenser.nftContract
       MegapurrDispenser.set_userUpvotes MegapurrDispenser.set_queuedNFTs].
  rewrite Z.eqb_refl.
  destruct (Z.leb_spec (MegapurrDispenser.upvotesRequired s)
              (MegapurrDispenser.userUpvotes s user + numVotes)) as [Hge|Hlt];
    cbn [andb].
  - destruct (MegapurrDispenser.queuedNFTs s) as [|t q] eqn:Eq.
    + cbn [List.length Z.of_nat Z.ltb Z.compare].
      split; [intros [why [=]] | intros [?|[?|(_ & ? & _)]]; try lia; congruence].
    + replace (0 <? Z.of_nat (List.length (t :: q))) with true
        by (symmetry; apply Z.ltb_lt; cbn [List.length]; lia).
      destruct (nft _) eqn:Enft.
      * split; [intros [why [=]] | intros [?|[?|(_ & _ & ?)]]; try lia; congruence].
      * split; [intros _ | intros _; eexists; reflexivity].
        right. right. repeat split; [assumption | discriminate].
  - split; [intros [why [=]] | intros [?|[?|(? & _)]]; lia].
Qed.

(** X21: the queue is a stack.  A token the NFT contract hands to the
    dispenser is the next one awarded: after [onERC721Received], a call of
    [addUpvotes] by the owner that brings the user to the threshold
    transfers that token, and the queue is as it was before. *)
Theorem queued_token_is_awarded_first this nft user numVotes tokenId s :
  MegapurrDispenser.upvotesRequired s
    <= MegapurrDispenser.userUpvotes s user + numVotes
    <= MegapurrDispenser.MAX_UINT256 ->
  nft (MegapurrDispenser.safeTransferFrom
         (MegapurrDispenser.nftContract s) this user tokenId) = true ->
  exists s1 s2 events,
    MegapurrDispenser.onERC721Received (MegapurrDispenser.nftContract s) tokenId s =
      MegapurrDispenser.Success s1 [MegapurrDispenser.NFTQueued tokenId] []
    /\ MegapurrDispenser.addUpvotes this nft (MegapurrDispenser.owner s)
         user numVotes s1 =
       MegapurrDispenser.Success s2 events
         [MegapurrDispenser.safeTransferFrom
            (MegapurrDispenser.nftContract s) this user tokenId]
    /\ MegapurrDispenser.queuedNFTs s2 = MegapurrDispenser.queuedNFTs s
    /\ MegapurrDispenser.userUpvotes s2 user =
       MegapurrDispenser.userUpvotes s user + numVotes
       - MegapurrDispenser.upvotesRequired s.
Proof.
  intros [Hge Hmax] Hnft.
  unfold MegapurrDispenser.onERC721Received. rewrite Z.eqb_refl.
  do 3 eexists. split; [reflexivity|].
  unfold MegapurrDispenser.addUpvotes, MegapurrDispenser.onlyOwner. cbv zeta.
  cbn [MegapurrDispenser.upvotesRequired MegapurrDispenser.userUpvotes
       MegapurrDispenser.queuedNFTs MegapurrDispenser.nftContract
       MegapurrDispenser.owner
       MegapurrDispenser.set_userUpvotes MegapurrDispenser.set_queuedNFTs].
  rewrite !Z.eqb_refl.
  replace (MegapurrDispenser.MAX_UINT256 <?
           MegapurrDispenser.userUpvotes s user + numVotes) with false
    by (symmetry; apply Z.ltb_ge; lia).
  replace (MegapurrDispenser.upvotesRequired s <=?
           MegapurrDispenser.userUpvotes s user + numVotes) with true
    by (symmetry; apply Z.leb_le; lia).
  replace (0 <? Z.of_nat (List.length (MegapurrDispenser.queuedNFTs s ++ [tokenId])))
    with true
    by (symmetry; apply Z.ltb_lt; rewrite length_app; cbn [List.length]; lia).
  cbn [andb]. rewrite last_last, Hnft, removelast_last.
  split; [reflexivity|]. cbn. rewrite Z.eqb_refl. split; reflexivity.
Qed.

(** X22: [rescueNFT] sends a token away without taking it off the queue:
    whatever [addUpvotes] does after a rescue is what it would have done
    before it, so a rescued token that is last in the queue is still the
    one [addUpvotes] tries to transfer. *)
Theorem rescued_token_stays_queued this nft nft' sender to tokenId s s1 events calls :
  MegapurrDispenser.rescueNFT this nft sender to tokenId s =
    MegapurrDispenser.Success s1 events calls ->
  MegapurrDispenser.getQueuedNFTs s1 = MegapurrDispenser.getQueuedNFTs s
  /\ calls = [MegapurrDispenser.safeTransferFrom
                (MegapurrDispenser.nftContract s) this to tokenId]
  /\ forall caller user numVotes,
       MegapurrDispenser.addUpvotes this nft' caller user numVotes s1 =
       MegapurrDispenser.addUpvotes this nft' caller user numVotes s.
Proof.
  unfold MegapurrDispenser.rescueNFT, MegapurrDispenser.onlyOwner. cbv zeta.
  destruct (sender =? MegapurrDispenser.owner s); [|discriminate].
  destruct (nft _); [|discriminate].
  intros [= <- <- <-]. repeat split.
Qed.

(** X23: [rescueAllNFTs] returns only if the NFT contract carries out
    every transfer, one per queue entry in queue order; the queue is then
    empty, and [addUpvotes] only credits votes until a token arrives. *)
Theorem rescueAllNFTs_empties_the_queue this nft nft' sender to s s1 events calls :
  MegapurrDispenser.rescueAllNFTs this nft sender to s =
    MegapurrDispenser.Success s1 events calls ->
  sender = MegapurrDispenser.owner s
  /\ map transferred calls = MegapurrDispenser.queuedNFTs s
  /\ (forall c, In c calls -> nft c = true)
  /\ MegapurrDispenser.getQueuedNFTs s1 = []
  /\ forall user numVotes,
       MegapurrDispenser.userUpvotes s user + numVotes
         <= MegapurrDispenser.MAX_UINT256 ->
       exists s2,
         MegapurrDispenser.addUpvotes this nft' sender user numVotes s1 =
           MegapurrDispenser.Success s2
             [MegapurrDispenser.UpvotesAdded user numVotes] []
         /\ MegapurrDispenser.userUpvotes s2 user =
            MegapurrDispenser.userUpvotes s user + numVotes.
Proof.
  unfold MegapurrDispenser.rescueAllNFTs, MegapurrDispenser.onlyOwner. cbv zeta.
  destruct (Z.eqb_spec sender (MegapurrDispenser.owner s)) as [Hs|]; [|discriminate].
  destruct (forallb nft _) eqn:Eall; [|discriminate].
  intros [= <- <- <-]. split; [exact Hs|]. split.
  { rewrite map_map. cbn [transferred]. apply map_id. }
  split; [now apply forallb_forall|]. split; [reflexivity|].
  intros user numVotes Hmax.
  unfold MegapurrDispenser.addUpvotes, MegapurrDispenser.onlyOwner. cbv zeta.
  cbn [MegapurrDispenser.upvotesRequired MegapurrDispenser.userUpvotes
       MegapurrDispenser.queuedNFTs MegapurrDispenser.nftContract
       MegapurrDispenser.owner
       MegapurrDispenser.set_userUpvotes MegapurrDispenser.set_queuedNFTs].
  rewrite Hs, !Z.eqb_refl.
  replace (MegapurrDispenser.MAX_UINT256 <?
           MegapurrDispenser.userUpvotes s user + numVotes) with false
    by (symmetry; apply Z.ltb_ge; lia).
  cbn [List.length Z.of_nat Z.ltb Z.compare]. rewrite andb_false_r.
  eexists. split; [reflexivity|]. cbn. now rewrite Z.eqb_refl.
Qed.

(** X24: [queueNFT] pushes the token after the transfer into the
    dispenser.  When that transfer calls the dispenser's own
    [onERC721Received], as a [safeTransferFrom] to a contract does, the
    token has been pushed there already: it is in the queue twice, and
    [getQueuedNFTs] counts two for the one token held. *)
Theorem queueNFT_queues_the_token_twice this ownerOf during sender tokenId s s1 events :
  ownerOf tokenId = Some sender ->
  MegapurrDispenser.onERC721Received (MegapurrDispenser.nftContract s) tokenId s =
    MegapurrDispenser.Success s1 events [] ->
  during (MegapurrDispenser.safeTransferFrom
            (MegapurrDispenser.nftContract s) sender this tokenId) s =
    Some (s1, events) ->
  exists s2 events2 calls,
    MegapurrDispenser.queueNFT this ownerOf during sender tokenId s =
      MegapurrDispenser.Success s2 events2 calls
    /\ MegapurrDispenser.getQueuedNFTs s2 =
       MegapurrDispenser.getQueuedNFTs s ++ [tokenId; tokenId]
    /\ events2 = [MegapurrDispenser.NFTQueued tokenId;
                  MegapurrDispenser.NFTQueued tokenId].
Proof.
  intros Hown Hhook Hduring.
  unfold MegapurrDispenser.queueNFT. cbv zeta.
  rewrite Hown, Z.eqb_refl. cbn [negb]. rewrite Hduring.
  unfold MegapurrDispenser.onERC721Received in Hhook.
  rewrite Z.eqb_refl in Hhook. injection Hhook as <- <-.
  do 3 eexists. split; [reflexivity|]. cbn.
  unfold MegapurrDispenser.getQueuedNFTs. now rewrite <- app_assoc.
Qed.

(** ** The theorems at concrete inputs

    420 upvotes are required, as by default. *)

Lemma ex_log_matched : matched 420 ex_tracked ex_log.
Proof. split; [apply toLowerCase_eq_iff; reflexivity | reflexivity]. Qed.

(** Split a conjunction of established facts. *)
Ltac established :=
  repeat match goal with |- _ /\ _ => split end;
  first [assumption | exact ex_log_matched].

(** [ex_log] is delivered twice to a fresh process whose dispenser holds
    three tokens: every operation started sees the key, and one dispatch is
    started however the second delivery interleaves. *)
Lemma key_is_marked_before_dispatch_witness :
  matched 420 ex_tracked ex_log
  /\ let o := run (ex_env [7; 8; 9] (fun _ => false)) 0 ex_empty_disk
                (processLog 420 ex_dispenser ex_tracked ex_log) in
     Forall (fun c => JSSet.has "0xaaa:3" (processedLogIds (call_world c)) = true)
            (calls o)
     /\ List.length (calls o) = 4%nat
     /\ JSSet.has "0xaaa:3" (processedLogIds (world o)) = true.
Proof.
  split; [exact ex_log_matched|].
  pose proof (key_is_marked_before_dispatch 420 ex_dispenser ex_tracked ex_app
                (ex_env [7; 8; 9] (fun _ => false)) 0 ex_empty_disk ex_log
                ex_log_matched) as H.
  cbv zeta in H |- *. destruct H as (H1 & H2 & _).
  split; [exact H1|]. split; [reflexivity | exact H2].
Defined.

Lemma processed_key_is_skipped_witness :
  JSSet.has (log_id ex_log) (processedLogIds ex_world_seen) = true
  /\ run (ex_env [7; 8; 9] (fun _ => false)) 0 ex_world_seen
       (onLogs 420 ex_dispenser ex_tracked [ex_log; ex_log_419]) =
     run (ex_env [7; 8; 9] (fun _ => false)) 0 ex_world_seen
       (onLogs 420 ex_dispenser ex_tracked [ex_log_419]).
Proof.
  split; [reflexivity|].
  apply (processed_key_is_skipped 420 ex_dispenser ex_tracked
           (ex_env [7; 8; 9] (fun _ => false)) 0 ex_world_seen ex_log
           [ex_log_419]).
  reflexivity.
Defined.

(** Scenarios C and D: 419 upvotes, and another token. *)
Lemma mismatch_is_dropped_witness :
  (args_numUpvotes ex_log_419 = Some 419 /\ 419 <> 420)
  /\ run (ex_env [7; 8; 9] (fun _ => false)) 0 ex_empty_disk
       (processLog 420 ex_dispenser ex_tracked ex_log_419) =
     {| result := Ok tt; world := ex_empty_disk; calls := []; asked := 0 |}.
Proof.
  split; [split; [reflexivity | discriminate]|].
  apply (mismatch_is_dropped 420 ex_dispenser ex_tracked
           (ex_env [7; 8; 9] (fun _ => false)) 0 ex_empty_disk ex_log_419 419 []).
  - reflexivity.
  - right. discriminate.
Defined.

(** An undecoded log ([args] is [{}], so the token does not match either)
    is delivered before [ex_log]: the callback throws, and [ex_log], which
    alone is awarded, is not handled. *)
Lemma undecoded_entry_is_not_dropped_witness :
  (JSSet.has (log_id ex_log_undecoded) (processedLogIds ex_empty_disk) = false
   /\ args_numUpvotes ex_log_undecoded = None)
  /\ ~ case_insensitive_eq (token_of ex_log_undecoded) ex_tracked
  /\ run (ex_env [7; 8; 9] (fun _ => false)) 0 ex_empty_disk
       (onLogs 420 ex_dispenser ex_tracked [ex_log_undecoded; ex_log]) =
     {| result := Err TypeError_undefined; world := ex_empty_disk; calls := [];
        asked := 0 |}
  /\ dispatches
       (calls (run (ex_env [7; 8; 9] (fun _ => false)) 0 ex_empty_disk
                 (onLogs 420 ex_dispenser ex_tracked [ex_log]))) = 1.
Proof.
  split; [split; reflexivity|].
  split; [intros H; exact H|].
  split; [|reflexivity].
  apply (undecoded_entry_is_not_dropped 420 ex_dispenser ex_tracked
           (ex_env [7; 8; 9] (fun _ => false)) 0 ex_empty_disk
           ex_log_undecoded [ex_log]); reflexivity.
Defined.

Lemma other_token_is_dropped :
  run (ex_env [7; 8; 9] (fun _ => false)) 0 ex_empty_disk
    (processLog 420 ex_dispenser ex_tracked ex_log_other_token) =
  {| result := Ok tt; world := ex_empty_disk; calls := []; asked := 0 |}.
Proof. reflexivity. Qed.

(** Scenario E: the dispenser holds no token. *)
Lemma depleted_inventory_is_logged_not_dispatched_witness :
  let env := ex_env [] (fun _ => false) in
  let c := {| upvotesRequired := "420"; queuedNFTCount := 0; queuedNFTs := [];
              lastUpdated := 1700000000000 |} in
  let o := run env 0 ex_empty_disk (processLog 420 ex_dispenser ex_tracked ex_log) in
  (JSSet.has (log_id ex_log) (processedLogIds ex_empty_disk) = false
   /\ matched 420 ex_tracked ex_log
   /\ result (run env 0 (marked ex_log ex_empty_disk) (getConfig ex_dispenser)) = Ok c
   /\ queuedNFTCount c = 0%nat)
  /\ forallb (fun c => negb (is_dispatch_op c)) (calls o) = true
  /\ processedLogIds (world o) = ["0xaaa:3"]
  /\ lastProcessedBlock (world o) = 0.
Proof.
  intros env c o.
  assert (H1 : JSSet.has (log_id ex_log) (processedLogIds ex_empty_disk) = false)
    by reflexivity.
  assert (H3 : result (run env 0 (marked ex_log ex_empty_disk)
                         (getConfig ex_dispenser)) = Ok c) by reflexivity.
  assert (H4 : queuedNFTCount c = 0%nat) by reflexivity.
  split; [established|].
  pose proof (depleted_inventory_is_logged_not_dispatched 420 ex_dispenser
                ex_tracked env 0 ex_empty_disk ex_log c H1 ex_log_matched H3 H4)
    as H.
  cbv zeta in H. destruct H as (_ & _ & Hnd & _ & _ & Hset & Hblock & _).
  split; [exact Hnd|]. split; [exact Hset | exact Hblock].
Defined.

(** Scenario F: the simulation reverts (the fourth question of the run). *)
Lemma failed_dispatch_is_logged_not_retried_witness :
  let env := ex_env [7] (fun n => Nat.eqb n 3) in
  let c := {| upvotesRequired := "420"; queuedNFTCount := 1; queuedNFTs := ["7"];
              lastUpdated := 1700000000000 |} in
  let oc := run env 0 (marked ex_log ex_empty_disk) (getConfig ex_dispenser) in
  let od := run env (asked oc) (world oc)
              (addUpvotesToDispenser ex_dispenser "0xU1" 420) in
  let o := run env 0 ex_empty_disk (processLog 420 ex_dispenser ex_tracked ex_log) in
  (JSSet.has (log_id ex_log) (processedLogIds ex_empty_disk) = false
   /\ matched 420 ex_tracked ex_log
   /\ result oc = Ok c
   /\ queuedNFTCount c <> 0%nat
   /\ result od = Ok None
   /\ truthy_hash None = None)
  /\ JSSet.has (log_id ex_log) (processedLogIds (world o)) = true
  /\ List.length (filter is_getGasPrice (calls o)) = 1%nat.
Proof.
  intros env c oc od o.
  assert (H1 : JSSet.has (log_id ex_log) (processedLogIds ex_empty_disk) = false)
    by reflexivity.
  assert (H3 : result oc = Ok c) by reflexivity.
  assert (H4 : queuedNFTCount c <> 0%nat) by discriminate.
  assert (H5 : result od = Ok None) by reflexivity.
  assert (H6 : truthy_hash None = None) by reflexivity.
  split; [established|].
  pose proof (failed_dispatch_is_logged_not_retried 420 ex_dispenser ex_tracked
                env 0 ex_empty_disk ex_log c None H1 ex_log_matched H3 H4 H5 H6)
    as H.
  cbv zeta in H. destruct H as (_ & _ & _ & Hkey & Hone).
  split; [exact Hkey | exact Hone].
Defined.

(** The first read of a fresh process fails: the default comes back. *)
Lemma getConfig_survives_read_failure_witness :
  let env := ex_env [7] (fun n => Nat.eqb n 1) in
  (cache_hit (env_now env 0) (configCache ex_empty_disk) = None
   /\ env_settle env 1 _ (read_settings ex_dispenser) = Err ex_revert)
  /\ result (run env 0 ex_empty_disk (getConfig ex_dispenser)) =
     Ok {| upvotesRequired := "200"; queuedNFTCount := 0; queuedNFTs := [];
           lastUpdated := 0 |}.
Proof.
  intros env.
  assert (H1 : cache_hit (env_now env 0) (configCache ex_empty_disk) = None)
    by reflexivity.
  assert (H2 : env_settle env 1 _ (read_settings ex_dispenser) = Err ex_revert)
    by reflexivity.
  split; [split; assumption|].
  exact (proj1 (getConfig_survives_read_failure ex_dispenser env 0 ex_empty_disk
                  ex_revert H1 H2)).
Defined.

(** The simulation reverts: [null] comes back, not an exception. *)
Lemma addUpvotesToDispenser_never_raises_witness :
  let env := ex_env [7] (fun n => Nat.eqb n 1) in
  dispatch_settles ex_dispenser env 0 "0xU1" 420 = Err ex_revert
  /\ result (run env 0 ex_empty_disk (addUpvotesToDispenser ex_dispenser "0xU1" 420))
     = Ok None.
Proof.
  intros env.
  assert (H : dispatch_settles ex_dispenser env 0 "0xU1" 420 = Err ex_revert)
    by reflexivity.
  split; [exact H|].
  destruct (addUpvotesToDispenser_never_raises ex_dispenser env 0 ex_empty_disk
              "0xU1" 420) as (_ & _ & Hfail).
  exact (proj1 (Hfail ex_revert H)).
Defined.

(** C10 as stated fails on the depleted path: [ex_log] is matched and in
    block 100, the dispenser holds no token, and after the entry is handled
    [lastProcessedBlock] is still 0, not the maximum of 0 and 100. *)
Lemma depleted_entry_does_not_advance_lastProcessedBlock :
  let o := run (ex_env [] (fun _ => false)) 0 ex_empty_disk
             (processLog 420 ex_dispenser ex_tracked ex_log) in
  matched 420 ex_tracked ex_log
  /\ blockNumber ex_log = Some 100
  /\ JSSet.has (log_id ex_log) (processedLogIds (world o)) = true
  /\ lastProcessedBlock (world o) <> Z.max (lastProcessedBlock ex_empty_disk) 100.
Proof.
  cbv zeta. split; [exact ex_log_matched|]. split; [reflexivity|].
  split; [reflexivity|]. vm_compute. discriminate.
Qed.

Lemma lastProcessedBlock_after_matched_entry_witness :
  let env := ex_env [7] (fun _ => false) in
  let c := {| upvotesRequired := "420"; queuedNFTCount := 1; queuedNFTs := ["7"];
              lastUpdated := 1700000000000 |} in
  let o := run env 0 ex_empty_disk (processLog 420 ex_dispenser ex_tracked ex_log) in
  (JSSet.has (log_id ex_log) (processedLogIds ex_empty_disk) = false
   /\ matched 420 ex_tracked ex_log
   /\ result (run env 0 (marked ex_log ex_empty_disk) (getConfig ex_dispenser)) = Ok c
   /\ blockNumber ex_log = Some 100
   /\ 0 <= lastProcessedBlock ex_empty_disk)
  /\ lastProcessedBlock (world o) = 100.
Proof.
  intros env c o.
  assert (H1 : JSSet.has (log_id ex_log) (processedLogIds ex_empty_disk) = false)
    by reflexivity.
  assert (H3 : result (run env 0 (marked ex_log ex_empty_disk)
                         (getConfig ex_dispenser)) = Ok c) by reflexivity.
  assert (H4 : blockNumber ex_log = Some 100) by reflexivity.
  assert (H5 : 0 <= lastProcessedBlock ex_empty_disk) by (cbn; lia).
  split; [established|].
  exact (proj1 (lastProcessedBlock_after_matched_entry 420 ex_dispenser
                  ex_tracked ex_app env 0 ex_empty_disk ex_log c 100 H1
                  ex_log_matched H3 H4 H5)).
Defined.

(** C6 as stated fails once the set holds more than 500 keys: of 501 keys
    the oldest is a member before the tick and is not a member after the
    restart. *)
Lemma oldest_key_is_lost_on_restart :
  let env := ex_env [7] (fun _ => false) in
  let disk := world (run env 0 ex_world_501 (tick ex_dispenser ex_app)) in
  let w' := startup env disk in
  JSSet.size (processedLogIds ex_world_501) = 501%nat
  /\ JSSet.has "0xtx0:0" (processedLogIds ex_world_501) = true
  /\ JSSet.has "0xtx0:0" (processedLogIds w') = false.
Proof. cbv zeta. repeat split; vm_compute; reflexivity. Qed.

Lemma persisted_keys_survive_restart_witness :
  let env := ex_env [7] (fun _ => false) in
  let disk := world (run env 0 ex_world_seen (tick ex_dispenser ex_app)) in
  (In "0xaaa:3" (trimmed (processedLogIds ex_world_seen))
   /\ (JSSet.size (processedLogIds ex_world_seen) <= 500)%nat)
  /\ JSSet.has "0xaaa:3" (processedLogIds (startup env disk)) = true.
Proof.
  intros env disk.
  assert (H1 : In "0xaaa:3" (trimmed (processedLogIds ex_world_seen)))
    by (left; reflexivity).
  assert (H2 : (JSSet.size (processedLogIds ex_world_seen) <= 500)%nat)
    by (cbn; lia).
  split; [split; assumption|].
  destruct (persisted_keys_survive_restart ex_dispenser ex_app env 0 env
              ex_world_seen "0xaaa:3") as (_ & Hin & _).
  exact (Hin H1).
Defined.

(** The bound on dispatches is met: [ex_log] is delivered, delivered again
    while the first invocation waits for the inventory, the read settles
    and the first invocation goes on to the dispatch.  One dispatch has
    been started and one invocation is pending. *)
Lemma duplicate_delivery_dispatches_once :
  exists L,
    reachable 420 ex_dispenser ex_tracked ex_app
      (fun l => log_id l = log_id ex_log) (boot ex_empty_disk) L
    /\ dispatches (started L) = 1
    /\ List.length (pending L) = 1%nat.
Proof.
  eexists. split.
  - eapply reach_step. eapply reach_step. eapply reach_step.
    eapply reach_step. apply reach_start.
    + apply (step_logs 420 ex_dispenser ex_tracked ex_app _
               (boot ex_empty_disk) (fun _ => 1700000000000) [ex_log]).
      repeat constructor.
    + apply (step_logs 420 ex_dispenser ex_tracked ex_app _ _
               (fun _ => 1700000000001) [ex_log]).
      repeat constructor.
    + eapply (step_settle 420 ex_dispenser ex_tracked ex_app _ _
                (fun _ => 1700000000002) [] _ _ _ [] (Ok (420, [7]))).
      reflexivity.
    + eapply (step_resume 420 ex_dispenser ex_tracked ex_app _ _
                (fun _ => 1700000000002) [] _ []).
      reflexivity.
  - split; vm_compute; reflexivity.
Qed.

(** Scenario A: one matched event, three tokens queued: one dispatch, and
    [nft_awarded] is the last line of the dispenser log. *)
Lemma matched_event_with_inventory_is_awarded :
  let o := run (ex_env [7; 8; 9] (fun _ => false)) 0 ex_empty_disk
             (onLogs 420 ex_dispenser ex_tracked [ex_log]) in
  dispatches (calls o) = 1
  /\ map action (dispenserLogFile (world o)) = ["config_updated"; "nft_awarded"]
  /\ map type (logFile (world o)) =
       ["upvote_event_seen"; "config_updated"; "dispenser_call"; "award_success"]
  /\ lastProcessedBlock (world o) = 100.
Proof. cbv zeta. repeat split; vm_compute; reflexivity. Qed.

(** With 501 keys in memory the file gets 500, from the second on. *)
Lemma tick_keeps_500_of_501_keys :
  let o := run (ex_env [7] (fun _ => false)) 0 ex_world_501
             (tick ex_dispenser ex_app) in
  option_map (fun st => option_map (@List.length string) (sf_processed st))
             (net_state_json (world o)) = Some (Some 500%nat)
  /\ option_map (fun st => option_map (@hd_error string) (sf_processed st))
               (net_state_json (world o)) = Some (Some (Some "0xtx1:0")).
Proof. cbv zeta. split; vm_compute; reflexivity. Qed.

(** ** The further properties at concrete inputs *)

(** A fresh process reads the dispenser; five milliseconds later the
    snapshot comes from the cache. *)
Lemma getConfig_serves_cache_for_60s_witness :
  let env := ex_env [7] (fun _ => false) in
  let o := run env 0 ex_empty_disk (getConfig ex_dispenser) in
  (cache_hit (env_now env 0) (configCache ex_empty_disk) = None
   /\ env_settle env 1 _ (read_settings ex_dispenser) = Ok (420, [7])
   /\ env_now env 0 <> 0)
  /\ run env 5 (world o) (getConfig ex_dispenser) =
     {| result := result o; world := world o; calls := []; asked := 6 |}.
Proof.
  intros env o.
  assert (H1 : cache_hit (env_now env 0) (configCache ex_empty_disk) = None)
    by reflexivity.
  assert (H2 : env_settle env 1 _ (read_settings ex_dispenser) = Ok (420, [7]))
    by reflexivity.
  assert (H3 : env_now env 0 <> 0) by discriminate.
  split; [established|].
  destruct (getConfig_serves_cache_for_60s ex_dispenser env 0 ex_empty_disk
              420 [7] env 5 H1 H2 H3) as [H _].
  apply H. reflexivity.
Defined.

Lemma getConfig_count_is_length_witness :
  cache_consistent ex_empty_disk
  /\ let o := run (ex_env [7; 8; 9] (fun _ => false)) 0 ex_empty_disk
                (getConfig ex_dispenser) in
     (exists c, result o = Ok c /\ snapshot_consistent c)
     /\ cache_consistent (world o).
Proof.
  split; [exact I|].
  apply (getConfig_count_is_length ex_dispenser
           (ex_env [7; 8; 9] (fun _ => false)) 0 ex_empty_disk).
  exact I.
Defined.

(** A gas price of 1000 is offered as 1200. *)
Lemma addUpvotes_offers_120_percent_witness :
  let env := ex_env [7] (fun _ => false) in
  (env_settle env 0 _ getGasPrice = Ok 1000 /\ 0 <= 1000)
  /\ exists p rest,
       calls (run env 0 ex_empty_disk
                (addUpvotesToDispenser ex_dispenser "0xU1" 420)) =
         gas_call ex_empty_disk
         :: simulate_call ex_dispenser ex_empty_disk "0xU1" 420 p :: rest
       /\ 1000 <= p /\ 100 * p <= 120 * 1000 < 100 * (p + 1).
Proof.
  intros env.
  assert (H1 : env_settle env 0 _ getGasPrice = Ok 1000) by reflexivity.
  assert (H2 : 0 <= 1000) by lia.
  split; [established|].
  exact (addUpvotes_offers_120_percent ex_dispenser env 0 ex_empty_disk
           "0xU1" 420 1000 H1 H2).
Defined.

(** Scenario A: the dispatch returns the hash [0xfeed]. *)
Lemma successful_dispatch_is_logged_witness :
  let env := ex_env [7] (fun _ => false) in
  let c := {| upvotesRequired := "420"; queuedNFTCount := 1; queuedNFTs := ["7"];
              lastUpdated := 1700000000000 |} in
  let oc := run env 0 (marked ex_log ex_empty_disk) (getConfig ex_dispenser) in
  let od := run env (asked oc) (world oc)
              (addUpvotesToDispenser ex_dispenser "0xU1" 420) in
  let o := run env 0 ex_empty_disk (processLog 420 ex_dispenser ex_tracked ex_log) in
  (JSSet.has (log_id ex_log) (processedLogIds ex_empty_disk) = false
   /\ matched 420 ex_tracked ex_log
   /\ result oc = Ok c
   /\ queuedNFTCount c <> 0%nat
   /\ result od = Ok (Some "0xfeed")
   /\ "0xfeed" <> "")
  /\ result o = Ok tt
  /\ List.length (filter is_getGasPrice (calls o)) = 1%nat.
Proof.
  intros env c oc od o.
  assert (H1 : JSSet.has (log_id ex_log) (processedLogIds ex_empty_disk) = false)
    by reflexivity.
  assert (H3 : result oc = Ok c) by reflexivity.
  assert (H4 : queuedNFTCount c <> 0%nat) by discriminate.
  assert (H5 : result od = Ok (Some "0xfeed")) by reflexivity.
  assert (H6 : "0xfeed" <> "") by discriminate.
  split; [established|].
  pose proof (successful_dispatch_is_logged 420 ex_dispenser ex_tracked
                env 0 ex_empty_disk ex_log c "0xfeed" H1 ex_log_matched H3 H4 H5 H6)
    as H.
  cbv zeta in H. destruct H as (Hr & _ & _ & Hone & _).
  split; [exact Hr | exact Hone].
Defined.

(** One delivery of [ex_log] to a fresh process, run to its end. *)
Lemma processed_keys_only_accumulate_witness :
  let o := run (ex_env [7] (fun _ => false)) 0 ex_empty_disk
             (onLogs 420 ex_dispenser ex_tracked [ex_log]) in
  let L := {| globals := world o; pending := []; started := calls o |} in
  NoDup (processedLogIds ex_empty_disk)
  /\ exists news,
       processedLogIds (globals L) = processedLogIds ex_empty_disk ++ news
       /\ NoDup (processedLogIds (globals L))
       /\ (forall id, In id news -> exists log, True /\ log_id log = id)
       /\ dispatches (started L) <= Z.of_nat (List.length news).
Proof.
  intros o L.
  assert (H1 : NoDup (processedLogIds ex_empty_disk)) by constructor.
  split; [exact H1|].
  apply (processed_keys_only_accumulate 420 ex_dispenser ex_tracked ex_app
           (fun _ => True) ex_empty_disk L H1).
  apply (run_onLogs_reachable 420 ex_dispenser ex_tracked ex_app
           (fun _ => True) (ex_env [7] (fun _ => false)) 0 ex_empty_disk [ex_log]).
  constructor; [exact I | constructor].
Defined.

(** [ex_world_seen] is persisted, reloaded and persisted again. *)
Lemma restart_then_tick_rewrites_the_same_state_witness :
  let env := ex_env [7] (fun _ => false) in
  let disk := world (run env 0 ex_world_seen (tick ex_dispenser ex_app)) in
  NoDup (processedLogIds ex_world_seen)
  /\ processedLogIds (startup env disk) = trimmed (processedLogIds ex_world_seen).
Proof.
  intros env disk.
  assert (H1 : NoDup (processedLogIds ex_world_seen))
    by (repeat constructor; intros []).
  split; [exact H1|].
  exact (proj1 (restart_then_tick_rewrites_the_same_state ex_dispenser ex_app
                  env 0 ex_world_seen env env 0 H1)).
Defined.

(** With two [.jsonl] files nothing is deleted. *)
Lemma getLogFile_deletes_what_has_seven_newer_witness :
  (NoDup (DailyLog.readdirSync (DailyLog.files ex_logs))
   /\ day_changed "2026-11-01" ex_logs)
  /\ fst (DailyLog.getLogFile "2026-11-01" ex_logs) = "2026-11-01.jsonl"
  /\ List.length
       (filter is_jsonl
          (DailyLog.readdirSync
             (DailyLog.files (snd (DailyLog.getLogFile "2026-11-01" ex_logs))))) =
     Nat.min 7 (List.length
                  (filter is_jsonl (DailyLog.readdirSync (DailyLog.files ex_logs)))).
Proof.
  assert (H1 : NoDup (DailyLog.readdirSync (DailyLog.files ex_logs)))
    by (repeat constructor; simpl; intuition discriminate).
  assert (H2 : day_changed "2026-11-01" ex_logs) by (left; reflexivity).
  split; [split; assumption|].
  destruct (getLogFile_deletes_what_has_seven_newer "2026-11-01" ex_logs H1 H2)
    as (Ha & _ & Hc).
  split; [exact Ha | exact Hc].
Defined.

(** Two entries logged on 1 November 2026. *)
Lemma same_day_entries_are_appended_witness :
  (NoDup (DailyLog.readdirSync (DailyLog.files ex_logs))
   /\ cache_names_the_day ex_logs
   /\ (newer "2026-11-01.jsonl"
         (DailyLog.readdirSync (DailyLog.files ex_logs)) < 7)%nat)
  /\ lines_of "2026-11-01.jsonl"
       (DailyLog.files
          (fold_left (fun s e => DailyLog.logToFile "2026-11-01" e s) [ex_entry]
             (DailyLog.logToFile "2026-11-01" ex_entry ex_logs))) =
     lines_of "2026-11-01.jsonl" (DailyLog.files ex_logs)
     ++ DailyLog.log_line ex_entry :: map DailyLog.log_line [ex_entry].
Proof.
  assert (H1 : NoDup (DailyLog.readdirSync (DailyLog.files ex_logs)))
    by (repeat constructor; simpl; intuition discriminate).
  assert (H2 : cache_names_the_day ex_logs) by reflexivity.
  assert (H3 : (newer "2026-11-01.jsonl"
                  (DailyLog.readdirSync (DailyLog.files ex_logs)) < 7)%nat)
    by (vm_compute; lia).
  split; [repeat split; assumption|].
  exact (proj1 (same_day_entries_are_appended "2026-11-01" ex_entry [ex_entry]
                  ex_logs H1 H2 H3)).
Defined.

Lemma dispenser_log_takes_one_of_the_seven_witness :
  (NoDup (DailyLog.readdirSync (DailyLog.files ex_logs))
   /\ day_changed "2026-11-01" ex_logs
   /\ In "dispenser-actions.jsonl" (DailyLog.readdirSync (DailyLog.files ex_logs)))
  /\ In "dispenser-actions.jsonl"
       (DailyLog.readdirSync
          (DailyLog.files (snd (DailyLog.getLogFile "2026-11-01" ex_logs)))).
Proof.
  assert (H1 : NoDup (DailyLog.readdirSync (DailyLog.files ex_logs)))
    by (repeat constructor; simpl; intuition discriminate).
  assert (H2 : day_changed "2026-11-01" ex_logs) by (left; reflexivity).
  assert (H3 : In "dispenser-actions.jsonl"
                  (DailyLog.readdirSync (DailyLog.files ex_logs)))
    by (simpl; tauto).
  assert (H4 : forall g,
             In g (DailyLog.readdirSync (DailyLog.files ex_logs)) ->
             is_jsonl g = true -> g <> "dispenser-actions.jsonl" ->
             String.ltb g "dispenser-actions.jsonl" = true).
  { intros g [<-|[<-|[<-|[]]]] Hj Hne;
      [reflexivity | now elim Hne | discriminate Hj]. }
  split; [repeat split; assumption|].
  exact (proj1 (dispenser_log_takes_one_of_the_seven "2026-11-01" ex_logs
                  H1 H2 H3 H4)).
Defined.

(** The calldata of [upvote(0xabcdef...01, 420)]: the amount comes out
    as 0. *)
Lemma decodeUpvoteData_reads_upper_half_of_amount_witness :
  (String.length "abcdef0000000000000000000000000000000001" = 40%nat
   /\ 0 <= 420 < 2 ^ 256)
  /\ result (run (ex_env [] (fun _ => false)) 0 ex_empty_disk
               (decodeUpvoteData
                  ("0x2d4ba917" ^^ hex_fixed 24 0
                   ^^ "abcdef0000000000000000000000000000000001"
                   ^^ hex_fixed 64 420 ^^ ""))) =
     Ok (Some ("0x" ^^ "abcdef0000000000000000000000000000000001", 0)).
Proof.
  assert (H1 : String.length "abcdef0000000000000000000000000000000001" = 40%nat)
    by reflexivity.
  assert (H2 : 0 <= 420 < 2 ^ 256) by (split; [lia | reflexivity]).
  split; [split; assumption|].
  destruct (decodeUpvoteData_reads_upper_half_of_amount
              (ex_env [] (fun _ => false)) 0 ex_empty_disk
              "abcdef0000000000000000000000000000000001" 420 "" H1 H2)
    as (_ & _ & H).
  apply H. reflexivity.
Defined.

(** The owner credits 420 votes to account 5: token 8, the last queued,
    goes to account 5. *)
Lemma addUpvotes_awards_at_most_the_last_queued_witness :
  exists s' events calls,
    MegapurrDispenser.addUpvotes 100 (fun _ => true) 1 5 420 ex_storage =
      MegapurrDispenser.Success s' events calls
    /\ (List.length calls <= 1)%nat
    /\ MegapurrDispenser.queuedNFTs ex_storage =
       MegapurrDispenser.queuedNFTs s' ++ map transferred calls.
Proof.
  do 3 eexists.
  assert (E : MegapurrDispenser.addUpvotes 100 (fun _ => true) 1 5 420 ex_storage =
              MegapurrDispenser.Success _ _ _) by reflexivity.
  split; [exact E|].
  destruct (addUpvotes_awards_at_most_the_last_queued _ _ _ _ _ _ _ _ _ E)
    as (Ha & Hb & _).
  split; [exact Ha | exact Hb].
Defined.

(** Token 9 arrives and is awarded at once. *)
Lemma queued_token_is_awarded_first_witness :
  (MegapurrDispenser.upvotesRequired ex_storage
     <= MegapurrDispenser.userUpvotes ex_storage 5 + 420
     <= MegapurrDispenser.MAX_UINT256)
  /\ exists s1 s2 events,
       MegapurrDispenser.onERC721Received
         (MegapurrDispenser.nftContract ex_storage) 9 ex_storage =
         MegapurrDispenser.Success s1 [MegapurrDispenser.NFTQueued 9] []
       /\ MegapurrDispenser.addUpvotes 100 (fun _ => true)
            (MegapurrDispenser.owner ex_storage) 5 420 s1 =
          MegapurrDispenser.Success s2 events
            [MegapurrDispenser.safeTransferFrom
               (MegapurrDispenser.nftContract ex_storage) 100 5 9]
       /\ MegapurrDispenser.queuedNFTs s2 = MegapurrDispenser.queuedNFTs ex_storage.
Proof.
  assert (H1 : MegapurrDispenser.upvotesRequired ex_storage
               <= MegapurrDispenser.userUpvotes ex_storage 5 + 420
               <= MegapurrDispenser.MAX_UINT256)
    by (split; vm_compute; discriminate).
  split; [exact H1|].
  destruct (queued_token_is_awarded_first 100 (fun _ => true) 5 420 9 ex_storage
              H1 eq_refl) as (s1 & s2 & events & Ha & Hb & Hc & _).
  exists s1, s2, events. split; [exact Ha|]. split; [exact Hb | exact Hc].
Defined.

(** The owner sends token 8 to account 77. *)
Lemma rescued_token_stays_queued_witness :
  MegapurrDispenser.rescueNFT 100 (fun _ => true) 1 77 8 ex_storage =
    MegapurrDispenser.Success ex_storage [MegapurrDispenser.NFTRescued 77 8]
      [MegapurrDispenser.safeTransferFrom 2 100 77 8]
  /\ MegapurrDispenser.getQueuedNFTs ex_storage = [7; 8].
Proof.
  assert (E : MegapurrDispenser.rescueNFT 100 (fun _ => true) 1 77 8 ex_storage =
              MegapurrDispenser.Success ex_storage
                [MegapurrDispenser.NFTRescued 77 8]
                [MegapurrDispenser.safeTransferFrom 2 100 77 8]) by reflexivity.
  split; [exact E|].
  exact (proj1 (rescued_token_stays_queued 100 (fun _ => true) (fun _ => true)
                  1 77 8 ex_storage _ _ _ E)).
Defined.

Lemma rescueAllNFTs_empties_the_queue_witness :
  exists s1 events calls,
    MegapurrDispenser.rescueAllNFTs 100 (fun _ => true) 1 77 ex_storage =
      MegapurrDispenser.Success s1 events calls
    /\ map transferred calls = [7; 8]
    /\ MegapurrDispenser.getQueuedNFTs s1 = [].
Proof.
  do 3 eexists.
  assert (E : MegapurrDispenser.rescueAllNFTs 100 (fun _ => true) 1 77 ex_storage =
              MegapurrDispenser.Success _ _ _) by reflexivity.
  split; [exact E|].
  destruct (rescueAllNFTs_empties_the_queue 100 (fun _ => true) (fun _ => true)
              _ _ _ _ _ _ E) as (_ & Ha & _ & Hb & _).
  split; [exact Ha | exact Hb].
Defined.

(** Account 6 queues its token 9 through [queueNFT]. *)
Lemma queueNFT_queues_the_token_twice_witness :
  let s1 := MegapurrDispenser.set_queuedNFTs [7; 8; 9] ex_storage in
  let during := fun (_ : MegapurrDispenser.External) (_ : MegapurrDispenser.Storage) =>
                  Some (s1, [MegapurrDispenser.NFTQueued 9]) in
  MegapurrDispenser.onERC721Received 2 9 ex_storage =
    MegapurrDispenser.Success s1 [MegapurrDispenser.NFTQueued 9] []
  /\ exists s2 events2 calls,
       MegapurrDispenser.queueNFT 100 (fun _ => Some 6) during 6 9 ex_storage =
         MegapurrDispenser.Success s2 events2 calls
       /\ MegapurrDispenser.getQueuedNFTs s2 = [7; 8; 9; 9].
Proof.
  intros s1 during.
  assert (E : MegapurrDispenser.onERC721Received
                (MegapurrDispenser.nftContract ex_storage) 9 ex_storage =
              MegapurrDispenser.Success s1 [MegapurrDispenser.NFTQueued 9] [])
    by reflexivity.
  split; [exact E|].
  destruct (queueNFT_queues_the_token_twice 100 (fun _ => Some 6) during 6 9
              ex_storage s1 [MegapurrDispenser.NFTQueued 9] eq_refl E eq_refl)
    as (s2 & events2 & calls & Ha & Hb & _).
  exists s2, events2, calls. split; [exact Ha | exact Hb].
Defined.
